(** * GothSteroids: the simulation core of [main.py], embedded in Rocq

    The embedding follows [src/main.py] function by function.  Python [int]s
    (timestamps, scores, size tiers, rectangle coordinates) are [Z].  Python
    [float]s and the components of [pygame.math.Vector2] are modelled twice:

    - as mathematical reals [R] (no rounding, no NaN and no infinities),
      the model in which the control flow, the exceptions, the object store
      and the bounds on speeds are stated; of a modulo it is used for no
      more than that the modulo returns, within the closed range, since
      rounding can move a result onto the upper end of the range;
    - as IEEE-754 binary64 numbers (Rocq's primitive [float]) in [Binary64],
      for [wrap_position], whose range depends on rounding: its range and
      its fixed points are stated there, for all doubles.

    Sprites are mutable objects: they live in an object store, indexed by
    object identity, and the sprite groups hold references.  What the program
    takes from outside (pygame's clock, Python's random generator, the image
    files and image transformations) is gathered in the record [Library]. *)

From Stdlib Require Import ZArith List Bool Lia Reals Lra.
From Stdlib Require PrimFloat SpecFloat FloatOps FloatAxioms FloatLemmas Uint63.
Import ListNotations.

(** ** Results of fallible code *)

(** The exceptions that the modelled code can raise. *)
Inductive Exn : Type :=
| ZeroDivisionError   (* float modulo by zero *)
| ValueError          (* Vector2.scale_to_length on a zero-length vector *)
| KeyError.           (* dict lookup in Asteroid.__init__ *)

(** [Val] is a normal return, [Raise] an uncaught exception, [OutOfFuel] says
    that a [while True] loop used up the iterations the model was given. *)
Inductive Res (A : Type) : Type :=
| Val (a : A)
| Raise (e : Exn)
| OutOfFuel.

Arguments Val {A} a.
Arguments Raise {A} e.
Arguments OutOfFuel {A}.

Definition res_bind {A B : Type} (r : Res A) (k : A -> Res B) : Res B :=
  match r with
  | Val a => k a
  | Raise e => Raise e
  | OutOfFuel => OutOfFuel
  end.

Declare Scope res_scope.
Delimit Scope res_scope with res.
Notation "x <-- c ;; k" := (res_bind c (fun x => k))
  (at level 61, c at next level, right associativity) : res_scope.

(** ** Screen configuration *)

Definition SCREEN_WIDTH : Z := 800.
Definition SCREEN_HEIGHT : Z := 600.

(** ** Vectors and float arithmetic over the reals *)

Record Vector2 : Type := mkVector2 { vx : R; vy : R }.

Section RealGeometry.
Local Open Scope R_scope.

Definition vadd (a b : Vector2) : Vector2 := mkVector2 (vx a + vx b) (vy a + vy b).
(** [v * k], a vector times a scalar. *)
Definition vscale (v : Vector2) (k : R) : Vector2 := mkVector2 (vx v * k) (vy v * k).
(** [Vector2.length()]. *)
Definition vlength (v : Vector2) : R := sqrt (vx v * vx v + vy v * vy v).
(** [a.distance_to(b)]. *)
Definition distance_to (a b : Vector2) : R :=
  sqrt ((vx a - vx b) * (vx a - vx b) + (vy a - vy b) * (vy a - vy b)).

(** Truthiness of a [Vector2]: false exactly for the zero vector. *)
Definition vector_bool (v : Vector2) : bool :=
  if Req_dec_T (vx v) 0 then (if Req_dec_T (vy v) 0 then false else true) else true.

(** pygame's default [Vector2.epsilon]. *)
Definition VECTOR_EPSILON : R := 1 / 1000000.

(** [Vector2.scale_to_length(l)]: pygame raises [ValueError] when the current
    length is below epsilon, and otherwise multiplies each coordinate by
    [l / old_length]. *)
Definition scale_to_length (v : Vector2) (l : R) : Res Vector2 :=
  let old_length := vlength v in
  if Rlt_dec old_length VECTOR_EPSILON then Raise ValueError
  else Val (vscale v (l / old_length)).

(** Rounding toward zero, as C's [fmod] uses for its quotient. *)
Definition Ztrunc (x : R) : Z :=
  if Rle_dec 0 x then Zfloor x else (- Zfloor (- x))%Z.

(** C's [fmod]: the remainder with the sign of the dividend. *)
Definition fmod (x y : R) : R := x - IZR (Ztrunc (x / y)) * y.

(** Python's [float % float] (CPython [float_rem]): [ZeroDivisionError] for a
    zero divisor; otherwise [fmod], moved by one divisor when its sign differs
    from the divisor's. *)
Definition float_rem (v w : R) : Res R :=
  if Req_dec_T w 0 then Raise ZeroDivisionError
  else
    let m := fmod v w in
    if Req_dec_T m 0 then Val 0
    else if Bool.eqb (if Rlt_dec w 0 then true else false)
                     (if Rlt_dec m 0 then true else false)
         then Val m
         else Val (m + w).

(** [wrap_position(pos)]. *)
Definition wrap_position (pos : Vector2) : Res Vector2 :=
  (x <-- float_rem (vx pos) (IZR SCREEN_WIDTH) ;;
   y <-- float_rem (vy pos) (IZR SCREEN_HEIGHT) ;;
   Val (mkVector2 x y))%res.

(** [math.radians]. *)
Definition radians (deg : R) : R := deg * PI / 180.

(** [angle_to_vector(angle_deg)]. *)
Definition angle_to_vector (angle_deg : R) : Vector2 :=
  let rad := radians angle_deg in
  mkVector2 (cos rad) (- sin rad).

End RealGeometry.

(** ** The same modulo on IEEE-754 doubles *)

Module Binary64.
Import PrimFloat SpecFloat FloatOps.

(** C's [fmod] on doubles.  The result is exact: both operands are written
    over the smaller of the two exponents and the integer remainder of the
    mantissas is taken, with the sign of the dividend. *)
Definition fmod (x y : float) : float :=
  match Prim2SF x, Prim2SF y with
  | S754_nan, _ | _, S754_nan => nan
  | S754_infinity _, _ => nan
  | _, S754_zero _ => nan
  | S754_zero _, _ => x
  | S754_finite _ _ _, S754_infinity _ => x
  | S754_finite sx mx ex, S754_finite _ my ey =>
      let e := Z.min ex ey in
      let r := ((Zpos mx * 2 ^ (ex - e)) mod (Zpos my * 2 ^ (ey - e)))%Z in
      match r with
      | Zpos p => SF2Prim (S754_finite sx p e)
      | _ => if sx then neg_zero else zero
      end
  end.

(** CPython's [float_rem] on doubles. *)
Definition float_rem (v w : float) : Res float :=
  if PrimFloat.eqb w zero then Raise ZeroDivisionError
  else
    let m := fmod v w in
    if PrimFloat.eqb m zero
    then Val (if PrimFloat.ltb w zero then neg_zero else zero)
    else if Bool.eqb (PrimFloat.ltb w zero) (PrimFloat.ltb m zero)
         then Val m
         else Val (PrimFloat.add m w).

(** [wrap_position] on a pair of doubles. *)
Definition wrap_position (pos : float * float) : Res (float * float) :=
  (x <-- float_rem (fst pos) 800%float ;;
   y <-- float_rem (snd pos) 600%float ;;
   Val (x, y))%res.

(** Three positions: a hair left of the screen, x = -2^-60 (about
    -8.7e-19); the right edge, x = 800.0; and the origin. *)
Definition hair_left : float * float := ((-0x1p-60)%float, 0%float).
Definition right_edge : float * float := (800%float, 0%float).
Definition origin : float * float := (0%float, 0%float).

(** The range and idempotence that are stated for wrapping, at one
    position, with the comparisons of doubles. *)
Definition wrap_range_idempotent (p : float * float) : Prop :=
  exists q,
    wrap_position p = Val q /\
    (leb 0 (fst q) && ltb (fst q) 800 && leb 0 (snd q) && ltb (snd q) 600)%bool = true /\
    wrap_position q = Val q.

(** [math.isfinite]: neither an infinity nor a NaN. *)
Definition is_finite (x : float) : bool := ltb (abs x) infinity.

(** Both coordinates are finite. *)
Definition finite (p : float * float) : bool :=
  is_finite (fst p) && is_finite (snd p).

(** Neither coordinate is negative ([0 <= x] and [0 <= y]). *)
Definition nonneg (p : float * float) : bool :=
  leb 0 (fst p) && leb 0 (snd p).

(** Inside the screen: [0 <= x < 800] and [0 <= y < 600]. *)
Definition inside (q : float * float) : bool :=
  leb 0 (fst q) && ltb (fst q) 800 && leb 0 (snd q) && ltb (snd q) 600.

(** Inside the screen or on its right or bottom edge: [0 <= x <= 800] and
    [0 <= y <= 600]. *)
Definition within (q : float * float) : bool :=
  leb 0 (fst q) && leb (fst q) 800 && leb 0 (snd q) && leb (snd q) 600.

(** Python's [==] on both coordinates (it equates [-0.0] and [0.0]). *)
Definition same (p q : float * float) : bool :=
  eqb (fst p) (fst q) && eqb (snd p) (snd q).

(** *** Two notions for reasoning about IEEE rounding *)

(** What [k] right shifts leave of a mantissa [z]: the quotient by [2^k],
    and round and sticky bits that are clear exactly when the division is
    exact. *)
Definition shifted (z : Z) (k : nat) (mrs : shr_record) : Prop :=
  shr_m mrs = (z / 2 ^ Z.of_nat k)%Z /\
  (orb (shr_r mrs) (shr_s mrs) = false <-> (z mod 2 ^ Z.of_nat k = 0)%Z).

(** The last step of IEEE rounding ([binary_round_aux]), on a mantissa
    [m2] that has been rounded to the exponent [f]: one more shift if the
    rounding carried into a 54th bit, and the overflow test. *)
Definition finalize (s : bool) (m2 f : Z) : spec_float :=
  let '(mrs, e) := shr_fexp prec emax m2 f loc_Exact in
  match shr_m mrs with
  | Z0 => S754_zero s
  | Zpos m => if (e <=? emax - prec)%Z then S754_finite s m e else S754_infinity s
  | Zneg _ => S754_nan
  end.

End Binary64.

(** ** Rectangles and surfaces (pygame.Rect, pygame.Surface) *)

(** A [pygame.Rect]: integer position of the top-left corner, width, height. *)
Record Rect : Type := mkRect { r_x : Z; r_y : Z; r_w : Z; r_h : Z }.

(** Of a surface the core only ever uses the size. *)
Record Surface : Type := mkSurface { s_w : Z; s_h : Z }.

Section Rects.
Local Open Scope Z_scope.

(** [rect.center] (getter). *)
Definition rect_center (r : Rect) : Z * Z :=
  (r_x r + Z.quot (r_w r) 2, r_y r + Z.quot (r_h r) 2).

(** [rect.center = (cx, cy)] (setter). *)
Definition rect_set_center (r : Rect) (c : Z * Z) : Rect :=
  mkRect (fst c - Z.quot (r_w r) 2) (snd c - Z.quot (r_h r) 2) (r_w r) (r_h r).

(** [surface.get_rect(center=c)]. *)
Definition get_rect (s : Surface) (c : Z * Z) : Rect :=
  rect_set_center (mkRect 0 0 (s_w s) (s_h s)) c.

(** [a.colliderect(b)]: rectangles of zero width or height collide with
    nothing; otherwise the open interiors must overlap on both axes. *)
Definition colliderect (a b : Rect) : bool :=
  if (r_w a =? 0) || (r_h a =? 0) || (r_w b =? 0) || (r_h b =? 0) then false
  else
    (Z.min (r_x a) (r_x a + r_w a) <? Z.max (r_x b) (r_x b + r_w b)) &&
    (Z.min (r_y a) (r_y a + r_h a) <? Z.max (r_y b) (r_y b + r_h b)) &&
    (Z.max (r_x a) (r_x a + r_w a) >? Z.min (r_x b) (r_x b + r_w b)) &&
    (Z.max (r_y a) (r_y a + r_h a) >? Z.min (r_y b) (r_y b + r_h b)).

End Rects.

(** ** What the program takes from outside *)

(** [ext] is the state of the outside world that calls can observe and
    advance: the millisecond clock and the random generator.  Nothing is
    assumed about the values they return. *)
Record Library : Type := mkLibrary {
  ext : Type;
  get_ticks : ext -> Z * ext;             (* pygame.time.get_ticks() *)
  uniform : R -> R -> ext -> R * ext;     (* random.uniform(a, b) *)
  randrange : Z -> ext -> Z * ext;        (* random.randrange(n) *)
  ship_image : Surface;                   (* ship.png, scaled to width 60 *)
  asteroid_image : Z -> Surface;          (* goth_girl.png, scaled to a width *)
  heart_image : Surface;                  (* heart.png, scaled to 25 x 25 *)
  rotate : Surface -> R -> Surface;       (* pygame.transform.rotate *)
  int_of_float : R -> Z                   (* float coordinate to Rect integer *)
}.

(** ** Game objects *)

Record GameObject : Type := mkGameObject {
  original_image : Surface;
  image : Surface;
  rect : Rect;
  pos : Vector2;
  velocity : Vector2;
  angle : R;             (* degrees *)
  rotation_speed : R     (* degrees per frame *)
}.

Record Player : Type := mkPlayer {
  p_obj : GameObject;
  thrust : R;
  max_speed : R;
  last_shot_time : Z;
  shot_cooldown : Z
}.

Record Asteroid : Type := mkAsteroid {
  a_obj : GameObject;
  size : Z
}.

Record Bullet : Type := mkBullet {
  b_obj : GameObject;
  lifetime : Z;
  spawn_time : Z
}.

Inductive Key : Type :=
| K_SPACE | K_ESCAPE | K_r | K_q | K_LEFT | K_RIGHT | K_UP
| K_OTHER (code : nat).

(** [pygame.key.get_pressed()]: which keys are held. *)
Definition Keys : Type := Key -> bool.

Section Objects.
Variable L : Library.
Local Open Scope R_scope.

(** The integer point a float position is coerced to when it is assigned to
    a [Rect] attribute. *)
Definition point_of (p : Vector2) : Z * Z :=
  (int_of_float L (vx p), int_of_float L (vy p)).

Definition set_rect (o : GameObject) (r : Rect) : GameObject :=
  mkGameObject (original_image o) (image o) r (pos o) (velocity o) (angle o)
               (rotation_speed o).
Definition set_image (o : GameObject) (i : Surface) : GameObject :=
  mkGameObject (original_image o) i (rect o) (pos o) (velocity o) (angle o)
               (rotation_speed o).
Definition set_pos (o : GameObject) (p : Vector2) : GameObject :=
  mkGameObject (original_image o) (image o) (rect o) p (velocity o) (angle o)
               (rotation_speed o).
Definition set_velocity (o : GameObject) (v : Vector2) : GameObject :=
  mkGameObject (original_image o) (image o) (rect o) (pos o) v (angle o)
               (rotation_speed o).
Definition set_angle (o : GameObject) (a : R) : GameObject :=
  mkGameObject (original_image o) (image o) (rect o) (pos o) (velocity o) a
               (rotation_speed o).
Definition set_rotation_speed (o : GameObject) (s : R) : GameObject :=
  mkGameObject (original_image o) (image o) (rect o) (pos o) (velocity o)
               (angle o) s.

(** [GameObject.__init__] when an [image] is passed, as every subclass does.
    [vel] is [None] when the argument is left out. *)
Definition GameObject_init (img : Surface) (p : Vector2) (vel : option Vector2)
    (ang : R) : GameObject :=
  mkGameObject img img (get_rect img (point_of p)) p
    (match vel with
     | Some v => if vector_bool v then v else mkVector2 0 0
     | None => mkVector2 0 0
     end)
    ang 0.

(** [GameObject.update]. *)
Definition GameObject_update (o : GameObject) : Res GameObject :=
  (o1 <-- (if Req_dec_T (rotation_speed o) 0 then Val o
           else
             a <-- float_rem (angle o + rotation_speed o) 360 ;;
             let o' := set_angle o a in
             let o' := set_image o' (rotate L (original_image o') (angle o')) in
             Val (set_rect o' (get_rect (image o') (rect_center (rect o'))))) ;;
   let o2 := set_pos o1 (vadd (pos o1) (velocity o1)) in
   p <-- wrap_position (pos o2) ;;
   let o3 := set_pos o2 p in
   Val (set_rect o3 (rect_set_center (rect o3) (point_of (pos o3)))))%res.

(** [Player.__init__]. *)
Definition Player_init (p : Vector2) : Player :=
  let o := GameObject_init (ship_image L) p None 0 in
  let o := set_rotation_speed o 0 in
  let o := set_angle o 0 in
  let o := set_image o (rotate L (original_image o) (angle o)) in
  let o := set_rect o (get_rect (image o) (point_of p)) in
  mkPlayer o (15 / 100) 6 0%Z 250%Z.

Definition set_p_obj (p : Player) (o : GameObject) : Player :=
  mkPlayer o (thrust p) (max_speed p) (last_shot_time p) (shot_cooldown p).
Definition set_last_shot_time (p : Player) (t : Z) : Player :=
  mkPlayer (p_obj p) (thrust p) (max_speed p) t (shot_cooldown p).

(** [Player.handle_input(keys, dt)]. *)
Definition handle_input (self : Player) (keys : Keys) (dt : R) : Res Player :=
  (let o := p_obj self in
   o <-- (if keys K_LEFT
          then a <-- float_rem (angle o + 180 * dt) 360 ;; Val (set_angle o a)
          else Val o) ;;
   o <-- (if keys K_RIGHT
          then a <-- float_rem (angle o - 180 * dt) 360 ;; Val (set_angle o a)
          else Val o) ;;
   o <-- (if keys K_UP
          then
            let direction := angle_to_vector (angle o) in
            let o := set_velocity o (vadd (velocity o) (vscale direction (thrust self))) in
            if Rgt_dec (vlength (velocity o)) (max_speed self)
            then v <-- scale_to_length (velocity o) (max_speed self) ;;
                 Val (set_velocity o v)
            else Val o
          else Val o) ;;
   let o := set_velocity o (vscale (velocity o) (99 / 100)) in
   let o := set_image o (rotate L (original_image o) (angle o)) in
   let o := set_rect o (get_rect (image o) (rect_center (rect o))) in
   Val (set_p_obj self o))%res.

(** [Player.can_shoot(current_time)]. *)
Definition can_shoot (self : Player) (current_time : Z) : bool :=
  (current_time - last_shot_time self >=? shot_cooldown self)%Z.

(** The attributes that [Player.__init__] sets and that no method assigns
    again: thrust 0.15, maximum speed 6, cooldown 250 ms. *)
Definition Player_inv (p : Player) : Prop :=
  thrust p = 15 / 100 /\ max_speed p = 6 /\ shot_cooldown p = 250%Z.

(** The size tiers for which [Asteroid.__init__] returns: 1, 2 and 3. *)
Definition Asteroid_inv (a : Asteroid) : Prop := (1 <= size a <= 3)%Z.

End Objects.

(** ** The object store and the sprite groups *)

(** A reference to a sprite: its class and its identity. *)
Inductive Ref : Type :=
| RPlayer (i : nat)
| RAsteroid (i : nat)
| RBullet (i : nat).

Definition ref_eqb (a b : Ref) : bool :=
  match a, b with
  | RPlayer i, RPlayer j => Nat.eqb i j
  | RAsteroid i, RAsteroid j => Nat.eqb i j
  | RBullet i, RBullet j => Nat.eqb i j
  | _, _ => false
  end.

Definition ref_id (r : Ref) : nat :=
  match r with RPlayer i | RAsteroid i | RBullet i => i end.

(** [h[i] := v] on a store. *)
Definition upd {A : Type} (h : nat -> A) (i : nat) (v : A) : nat -> A :=
  fun j => if Nat.eqb j i then v else h j.

(** [Group.add]: a group holds a sprite once, in insertion order. *)
Definition group_add {A : Type} (eqb : A -> A -> bool) (x : A) (g : list A) : list A :=
  if existsb (eqb x) g then g else g ++ [x].

(** The sum of a list of integers. *)
Definition sumZ (l : list Z) : Z := fold_right Z.add 0%Z l.

(** [Group.remove]. *)
Definition group_remove {A : Type} (eqb : A -> A -> bool) (x : A) (g : list A) : list A :=
  filter (fun y => negb (eqb x y)) g.

Inductive GameState : Type := START | PLAYING | PAUSED | GAME_OVER.

Inductive Event : Type :=
| QUIT
| KEYDOWN (key : Key)
| OTHER_EVENT.

(** The local variables of [main] that the loop reads and writes. *)
Record Game : Type := mkGame {
  player : nat;          (* reference to the current Player object *)
  score : Z;
  state : GameState;
  running : bool
}.

(** What one iteration of the loop reads from pygame. *)
Record FrameInput : Type := mkFrameInput {
  f_dt : R;                  (* clock.tick(FPS) / 1000.0 *)
  f_events : list Event;     (* pygame.event.get() *)
  f_keys : Keys              (* pygame.key.get_pressed() *)
}.

Section Store.
Variable L : Library.

(** The memory: one store per class, the next fresh identity, the three
    sprite groups of [main], and the outside world. *)
Record Mem : Type := mkMem {
  players : nat -> Player;
  asteroid_objs : nat -> Asteroid;
  bullet_objs : nat -> Bullet;
  next_id : nat;
  all_sprites : list Ref;
  asteroids : list nat;
  bullets : list nat;
  world : ext L
}.

Definition set_players (m : Mem) (h : nat -> Player) : Mem :=
  mkMem h (asteroid_objs m) (bullet_objs m) (next_id m) (all_sprites m)
        (asteroids m) (bullets m) (world m).
Definition set_asteroid_objs (m : Mem) (h : nat -> Asteroid) : Mem :=
  mkMem (players m) h (bullet_objs m) (next_id m) (all_sprites m)
        (asteroids m) (bullets m) (world m).
Definition set_bullet_objs (m : Mem) (h : nat -> Bullet) : Mem :=
  mkMem (players m) (asteroid_objs m) h (next_id m) (all_sprites m)
        (asteroids m) (bullets m) (world m).
Definition set_next_id (m : Mem) (n : nat) : Mem :=
  mkMem (players m) (asteroid_objs m) (bullet_objs m) n (all_sprites m)
        (asteroids m) (bullets m) (world m).
Definition set_all_sprites (m : Mem) (g : list Ref) : Mem :=
  mkMem (players m) (asteroid_objs m) (bullet_objs m) (next_id m) g
        (asteroids m) (bullets m) (world m).
Definition set_asteroids (m : Mem) (g : list nat) : Mem :=
  mkMem (players m) (asteroid_objs m) (bullet_objs m) (next_id m) (all_sprites m)
        g (bullets m) (world m).
Definition set_bullets (m : Mem) (g : list nat) : Mem :=
  mkMem (players m) (asteroid_objs m) (bullet_objs m) (next_id m) (all_sprites m)
        (asteroids m) g (world m).
Definition set_world (m : Mem) (w : ext L) : Mem :=
  mkMem (players m) (asteroid_objs m) (bullet_objs m) (next_id m) (all_sprites m)
        (asteroids m) (bullets m) w.

(** Computations that read and write the memory and may raise. *)
Definition M (A : Type) : Type := Mem -> Res (A * Mem).

Definition ret {A : Type} (a : A) : M A := fun m => Val (a, m).

Definition bind {A B : Type} (c : M A) (k : A -> M B) : M B :=
  fun m =>
    match c m with
    | Val (a, m') => k a m'
    | Raise e => Raise e
    | OutOfFuel => OutOfFuel
    end.

Definition lift {A : Type} (r : Res A) : M A :=
  fun m => res_bind r (fun a => Val (a, m)).

Definition gets {A : Type} (f : Mem -> A) : M A := fun m => Val (f m, m).
Definition modify (f : Mem -> Mem) : M unit := fun m => Val (tt, f m).

(** What holds of the memory of a running game: the groups hold each sprite
    once, every reference in a group points to an object that has been
    created, and every asteroid of the group has a size tier 1, 2 or 3. *)
Definition Mem_inv (m : Mem) : Prop :=
  NoDup (asteroids m) /\ NoDup (bullets m) /\
  (forall a, In a (asteroids m) -> a < next_id m /\ Asteroid_inv (asteroid_objs m a)) /\
  (forall b, In b (bullets m) -> b < next_id m) /\
  (forall r, In r (all_sprites m) -> ref_id r < next_id m).

(** [returns c m Q]: run from memory [m], the computation [c] returns
    normally, with a result and a final memory that satisfy [Q]. *)
Definition returns {A : Type} (c : M A) (m : Mem) (Q : A -> Mem -> Prop) : Prop :=
  exists a m', c m = Val (a, m') /\ Q a m'.

(** [ensures c m Q]: whenever [c], run from [m], returns normally, its
    result and final memory satisfy [Q]. *)
Definition ensures {A : Type} (c : M A) (m : Mem) (Q : A -> Mem -> Prop) : Prop :=
  forall a m', c m = Val (a, m') -> Q a m'.

(** The attributes of a player that only [handle_input] or a new game can
    change: the three constants and the velocity. *)
Definition player_static (p p' : Player) : Prop :=
  thrust p' = thrust p /\ max_speed p' = max_speed p /\
  shot_cooldown p' = shot_cooldown p /\
  velocity (p_obj p') = velocity (p_obj p).

(** How [all_sprites.update()] may change the memory: no object is created,
    the asteroid group and every size tier stay, bullets can only leave
    their group, and no player's velocity or constants change. *)
Definition update_rel (m m' : Mem) : Prop :=
  next_id m' = next_id m /\
  asteroids m' = asteroids m /\
  (forall i, size (asteroid_objs m' i) = size (asteroid_objs m i)) /\
  (forall b, In b (bullets m') -> In b (bullets m)) /\
  (NoDup (bullets m) -> NoDup (bullets m')) /\
  (forall r, In r (all_sprites m') -> In r (all_sprites m)) /\
  (forall i, player_static (players m i) (players m' i)).

End Store.

Arguments players {L} m.
Arguments asteroid_objs {L} m.
Arguments bullet_objs {L} m.
Arguments next_id {L} m.
Arguments all_sprites {L} m.
Arguments asteroids {L} m.
Arguments bullets {L} m.
Arguments world {L} m.
Arguments set_players {L} m _.
Arguments set_asteroid_objs {L} m _.
Arguments set_bullet_objs {L} m _.
Arguments set_next_id {L} m _.
Arguments set_all_sprites {L} m _.
Arguments set_asteroids {L} m _.
Arguments set_bullets {L} m _.
Arguments set_world {L} m _.
Arguments ret {L A} a.
Arguments bind {L A B} c k.
Arguments lift {L A} r.
Arguments gets {L A} f.
Arguments modify {L} f.
Arguments returns {L A} c m Q.
Arguments Mem_inv {L} m.
Arguments ensures {L A} c m Q.
Arguments update_rel {L} m m'.

Declare Scope m_scope.
Delimit Scope m_scope with M.
Notation "x <- c ; k" := (bind c (fun x => k))
  (at level 61, c at next level, right associativity) : m_scope.
Notation "c ;; k" := (bind c (fun _ => k))
  (at level 61, right associativity) : m_scope.

Section Effects.
Variable L : Library.
Local Open Scope m_scope.

(** [for x in xs: body(x)]. *)
Fixpoint for_each {A : Type} (xs : list A) (body : A -> M L unit) : M L unit :=
  match xs with
  | [] => ret tt
  | x :: xs' => body x ;; for_each xs' body
  end.

Definition m_get_ticks : M L Z :=
  fun m => let (t, w) := get_ticks L (world m) in Val (t, set_world m w).
Definition m_uniform (a b : R) : M L R :=
  fun m => let (x, w) := uniform L a b (world m) in Val (x, set_world m w).
Definition m_randrange (n : Z) : M L Z :=
  fun m => let (x, w) := randrange L n (world m) in Val (x, set_world m w).

(** Object creation: the new object gets the next fresh identity. *)
Definition new_player (p : Player) : M L nat :=
  fun m => Val (next_id m,
                set_next_id (set_players m (upd (players m) (next_id m) p))
                            (S (next_id m))).
Definition new_asteroid (a : Asteroid) : M L nat :=
  fun m => Val (next_id m,
                set_next_id (set_asteroid_objs m (upd (asteroid_objs m) (next_id m) a))
                            (S (next_id m))).
Definition new_bullet (b : Bullet) : M L nat :=
  fun m => Val (next_id m,
                set_next_id (set_bullet_objs m (upd (bullet_objs m) (next_id m) b))
                            (S (next_id m))).

(** [sprite.kill()]: the sprite leaves every group it is in. *)
Definition kill_asteroid (i : nat) : M L unit :=
  modify (fun m =>
    set_asteroids (set_all_sprites m (group_remove ref_eqb (RAsteroid i) (all_sprites m)))
                  (group_remove Nat.eqb i (asteroids m))).
Definition kill_bullet (i : nat) : M L unit :=
  modify (fun m =>
    set_bullets (set_all_sprites m (group_remove ref_eqb (RBullet i) (all_sprites m)))
                (group_remove Nat.eqb i (bullets m))).

(** [all_sprites.add(s)], [asteroids.add(s)], [bullets.add(s)]. *)
Definition all_sprites_add (r : Ref) : M L unit :=
  modify (fun m => set_all_sprites m (group_add ref_eqb r (all_sprites m))).
Definition asteroids_add (i : nat) : M L unit :=
  modify (fun m => set_asteroids m (group_add Nat.eqb i (asteroids m))).
Definition bullets_add (i : nat) : M L unit :=
  modify (fun m => set_bullets m (group_add Nat.eqb i (bullets m))).

(** The lookup [{3: 1.0, 2: 0.6, 1: 0.35}[size]] followed by
    [int(100 * scale_mult)]: 100, 60 and 35 pixels, [KeyError] otherwise. *)
Definition target_size (sz : Z) : Res Z :=
  match sz with
  | 3%Z => Val 100%Z
  | 2%Z => Val 60%Z
  | 1%Z => Val 35%Z
  | _ => Raise KeyError
  end.

(** [Asteroid(pos, size)]: returns the reference to the new asteroid. *)
Definition Asteroid_new (p : Vector2) (sz : Z) : M L nat :=
  t <- lift (target_size sz) ;
  let img := asteroid_image L t in
  ang <- m_uniform 0%R 360%R ;
  sp <- m_uniform (1 / 2)%R 2%R ;
  let speed := (sp / IZR sz)%R in
  let vel := vscale (angle_to_vector ang) speed in
  let o := GameObject_init L img p (Some vel) 0%R in
  let o := set_rect o (get_rect (image o) (point_of L p)) in
  spin <- m_uniform (-1)%R 1%R ;
  let o := set_rotation_speed o spin in
  new_asteroid (mkAsteroid o sz).

(** The loop [for _ in range(2)] of [break_apart]: each round reads
    [self.pos], builds a fragment and appends it. *)
Fixpoint break_apart_loop (n : nat) (self : nat) (new_size : Z)
    (fragments : list nat) : M L (list nat) :=
  match n with
  | O => ret fragments
  | S n' =>
      p <- gets (fun m => pos (a_obj (asteroid_objs m self))) ;
      fragment <- Asteroid_new p new_size ;
      break_apart_loop n' self new_size (fragments ++ [fragment])
  end.

(** [asteroid.break_apart()] on the asteroid referenced by [self]: returns the
    references of the fragments. *)
Definition break_apart (self : nat) : M L (list nat) :=
  sz <- gets (fun m => size (asteroid_objs m self)) ;
  if (sz <=? 1)%Z then ret []
  else
    sz <- gets (fun m => size (asteroid_objs m self)) ;
    let new_size := (sz - 1)%Z in
    break_apart_loop 2 self new_size [].

(** [Bullet(pos, velocity)]. *)
Definition Bullet_new (p v : Vector2) : M L nat :=
  let o := GameObject_init L (heart_image L) p (Some v) 0%R in
  t <- m_get_ticks ;
  new_bullet (mkBullet o 2000%Z t).

(** [player.shoot(current_time)] on the player referenced by [self]. *)
Definition shoot (self : nat) (current_time : Z) : M L nat :=
  modify (fun m => set_players m
            (upd (players m) self (set_last_shot_time (players m self) current_time))) ;;
  o <- gets (fun m => p_obj (players m self)) ;
  let direction := angle_to_vector (angle o) in
  let bullet_vel := vadd (vscale direction 10%R) (velocity o) in
  let bullet_pos := vadd (pos o) (vscale direction (IZR (r_w (rect o) / 2))) in
  Bullet_new bullet_pos bullet_vel.

(** [update()] of a sprite, by class. *)
Definition Player_update (i : nat) : M L unit :=
  o <- gets (fun m => p_obj (players m i)) ;
  o' <- lift (GameObject_update L o) ;
  modify (fun m => set_players m (upd (players m) i (set_p_obj (players m i) o'))).

Definition Asteroid_update (i : nat) : M L unit :=
  o <- gets (fun m => a_obj (asteroid_objs m i)) ;
  o' <- lift (GameObject_update L o) ;
  modify (fun m => set_asteroid_objs m
            (upd (asteroid_objs m) i (mkAsteroid o' (size (asteroid_objs m i))))).

Definition Bullet_update (i : nat) : M L unit :=
  o <- gets (fun m => b_obj (bullet_objs m i)) ;
  o' <- lift (GameObject_update L o) ;
  modify (fun m => set_bullet_objs m
            (upd (bullet_objs m) i
                 (mkBullet o' (lifetime (bullet_objs m i)) (spawn_time (bullet_objs m i))))) ;;
  t <- m_get_ticks ;
  b <- gets (fun m => bullet_objs m i) ;
  if (t - spawn_time b >? lifetime b)%Z then kill_bullet i else ret tt.

Definition sprite_update (r : Ref) : M L unit :=
  match r with
  | RPlayer i => Player_update i
  | RAsteroid i => Asteroid_update i
  | RBullet i => Bullet_update i
  end.

(** [all_sprites.update()]: the group is iterated over a copy of its list. *)
Definition all_sprites_update : M L unit :=
  rs <- gets (fun m => all_sprites m) ;
  for_each rs sprite_update.

End Effects.

Arguments for_each {L A} xs body.

(** ** Collisions, reset and the frame loop *)

Section Loop.
Variable L : Library.
Local Open Scope m_scope.

(** A loop that threads a local variable through its body. *)
Fixpoint fold_m {A B : Type} (xs : list A) (body : B -> A -> M L B) (b : B) : M L B :=
  match xs with
  | [] => ret b
  | x :: xs' => b' <- body b x ; fold_m xs' body b'
  end.

(** [pygame.sprite.spritecollide(sprite, asteroids, False)], given the
    sprite's rect: the asteroids of the group whose rect it overlaps. *)
Definition spritecollide_asteroids (r : Rect) : M L (list nat) :=
  gets (fun m =>
    filter (fun a => colliderect r (rect (a_obj (asteroid_objs m a)))) (asteroids m)).

(** [pygame.sprite.groupcollide(bullets, asteroids, True, False)]: for each
    bullet of the group, the list of asteroids it overlaps; a bullet with a
    non-empty list is entered in the result and killed.  The result keeps
    the order of the bullets group. *)
Definition groupcollide_bullets_asteroids : M L (list (nat * list nat)) :=
  bs <- gets (fun m => bullets m) ;
  fold_m bs
    (fun crashed b =>
       r <- gets (fun m => rect (b_obj (bullet_objs m b))) ;
       collision <- spritecollide_asteroids r ;
       match collision with
       | [] => ret crashed
       | _ :: _ => kill_bullet L b ;; ret (crashed ++ [(b, collision)])
       end)
    [].

(** [pygame.sprite.spritecollideany(player, asteroids)], as a truth value. *)
Definition spritecollideany_asteroids (p : nat) : M L bool :=
  gets (fun m =>
    existsb (fun a => colliderect (rect (p_obj (players m p)))
                                  (rect (a_obj (asteroid_objs m a))))
            (asteroids m)).

(** The body of [for asteroid in hit_asteroids]; returns the new score. *)
Definition hit_asteroid (sc : Z) (asteroid : nat) : M L Z :=
  fragments <- break_apart L asteroid ;
  kill_asteroid L asteroid ;;
  for_each fragments
    (fun frag => all_sprites_add L (RAsteroid frag) ;; asteroids_add L frag) ;;
  sz <- gets (fun m => size (asteroid_objs m asteroid)) ;
  ret (sc + 10 * sz)%Z.

(** [for bullet, hit_asteroids in hits.items(): for asteroid in ...]. *)
Definition resolve_hits (hits : list (nat * list nat)) (sc : Z) : M L Z :=
  fold_m hits (fun sc hit => fold_m (snd hit) hit_asteroid sc) sc.

(** The bullet-asteroid collision pass of a frame: returns the new score. *)
Definition bullet_collisions (sc : Z) : M L Z :=
  hits <- groupcollide_bullets_asteroids ;
  resolve_hits hits sc.

(** The [while True] loop of [reset_game] that draws a spawn position;
    [fuel] bounds its iterations. *)
Fixpoint spawn_position (fuel : nat) (p : nat) (min_dist : R) : M L Vector2 :=
  match fuel with
  | O => fun _ => OutOfFuel
  | S fuel' =>
      x <- m_randrange L SCREEN_WIDTH ;
      y <- m_randrange L SCREEN_HEIGHT ;
      let ps := mkVector2 (IZR x) (IZR y) in
      ppos <- gets (fun m => pos (p_obj (players m p))) ;
      if Rgt_dec (distance_to ps ppos) min_dist then ret ps
      else spawn_position fuel' p min_dist
  end.

(** The loop [for _ in range(5)] of [reset_game]. *)
Fixpoint spawn_asteroids (fuel : nat) (n : nat) (p : nat) : M L unit :=
  match n with
  | O => ret tt
  | S n' =>
      let min_dist := 200%R in
      ps <- spawn_position fuel p min_dist ;
      asteroid <- Asteroid_new L ps 3%Z ;
      all_sprites_add L (RAsteroid asteroid) ;;
      asteroids_add L asteroid ;;
      spawn_asteroids fuel n' p
  end.

(** [reset_game(all_sprites, asteroids, bullets)]: returns the new player
    and the reset score. *)
Definition reset_game (fuel : nat) : M L (nat * Z) :=
  modify (fun m => set_all_sprites m []) ;;
  modify (fun m => set_asteroids m []) ;;
  modify (fun m => set_bullets m []) ;;
  p <- new_player L (Player_init L (mkVector2 (IZR SCREEN_WIDTH / 2) (IZR SCREEN_HEIGHT / 2))) ;
  all_sprites_add L (RPlayer p) ;;
  spawn_asteroids fuel 5 p ;;
  ret (p, 0%Z).

Definition key_eqb (a b : Key) : bool :=
  match a, b with
  | K_SPACE, K_SPACE | K_ESCAPE, K_ESCAPE | K_r, K_r | K_q, K_q
  | K_LEFT, K_LEFT | K_RIGHT, K_RIGHT | K_UP, K_UP => true
  | K_OTHER c, K_OTHER d => Nat.eqb c d
  | _, _ => false
  end.

Definition set_state (g : Game) (s : GameState) : Game :=
  mkGame (player g) (score g) s (running g).
Definition set_running (g : Game) (b : bool) : Game :=
  mkGame (player g) (score g) (state g) b.
Definition set_score (g : Game) (sc : Z) : Game :=
  mkGame (player g) sc (state g) (running g).

(** The body of [for event in pygame.event.get()]. *)
Definition handle_event (fuel : nat) (g : Game) (event : Event) : M L Game :=
  match event with
  | QUIT => ret (set_running g false)
  | KEYDOWN key =>
      match state g with
      | START =>
          if key_eqb key K_SPACE then ret (set_state g PLAYING) else ret g
      | PLAYING =>
          if key_eqb key K_SPACE then
            now <- m_get_ticks L ;
            p <- gets (fun m => players m (player g)) ;
            if can_shoot p now then
              bullet <- shoot L (player g) now ;
              all_sprites_add L (RBullet bullet) ;;
              bullets_add L bullet ;;
              ret g
            else ret g
          else if key_eqb key K_ESCAPE then ret (set_state g PAUSED)
          else ret g
      | PAUSED =>
          if key_eqb key K_ESCAPE then ret (set_state g PLAYING) else ret g
      | GAME_OVER =>
          if key_eqb key K_r then
            ps <- reset_game fuel ;
            ret (mkGame (fst ps) (snd ps) PLAYING (running g))
          else if key_eqb key K_q then ret (set_running g false)
          else ret g
      end
  | OTHER_EVENT => ret g
  end.

(** [player.handle_input(keys, dt)] on the player object in the store. *)
Definition player_handle_input (p : nat) (keys : Keys) (dt : R) : M L unit :=
  self <- gets (fun m => players m p) ;
  self' <- lift (handle_input L self keys dt) ;
  modify (fun m => set_players m (upd (players m) p self')).

(** The first two statements under [if state == GameState.PLAYING]: the
    ship reads the held keys, then every sprite is updated. *)
Definition move_sprites (inp : FrameInput) (g : Game) : M L unit :=
  player_handle_input (player g) (f_keys inp) (f_dt inp) ;;
  all_sprites_update L.

(** The block under [if state == GameState.PLAYING] (update logic). *)
Definition update_logic (inp : FrameInput) (g : Game) : M L Game :=
  move_sprites inp g ;;
  sc <- bullet_collisions (score g) ;
  let g := set_score g sc in
  c <- spritecollideany_asteroids (player g) ;
  if c then ret (set_state g GAME_OVER) else ret g.

(** One iteration of the [while running] loop, without the drawing. *)
Definition frame (fuel : nat) (inp : FrameInput) (g : Game) : M L Game :=
  g <- fold_m (f_events inp) (handle_event fuel) g ;
  match state g with
  | PLAYING => update_logic inp g
  | _ => ret g
  end.

(** [while running: ...] over the inputs of successive frames. *)
Fixpoint main_loop (fuel : nat) (inputs : list FrameInput) (g : Game) : M L Game :=
  if running g then
    match inputs with
    | [] => ret g
    | inp :: rest => g' <- frame fuel inp g ; main_loop fuel rest g'
    end
  else ret g.

(** The part of [main] before the loop: three empty groups, a first
    [reset_game], and the state [START]. *)
Definition startup (fuel : nat) : M L Game :=
  modify (fun m => set_all_sprites m []) ;;
  modify (fun m => set_asteroids m []) ;;
  modify (fun m => set_bullets m []) ;;
  ps <- reset_game fuel ;
  ret (mkGame (fst ps) (snd ps) START true).

(** [main], run on the inputs of a number of frames. *)
Definition main (fuel : nat) (inputs : list FrameInput) : M L Game :=
  g <- startup fuel ;
  main_loop fuel inputs g.

(** *** The game-flow state machine, as the design lists it *)

(** The transitions on events: Start to Playing on space; Playing and
    Paused toggle on escape; GameOver to Playing on [R]; every other pair
    of state and event leaves the state as it is. *)
Definition spec_transition (s : GameState) (e : Event) : GameState :=
  match s, e with
  | START, KEYDOWN K_SPACE => PLAYING
  | PLAYING, KEYDOWN K_ESCAPE => PAUSED
  | PAUSED, KEYDOWN K_ESCAPE => PLAYING
  | GAME_OVER, KEYDOWN K_r => PLAYING
  | _, _ => s
  end.

(** The events that end the process: a window-close request in any state,
    and [Q] in GameOver. *)
Definition spec_exits (s : GameState) (e : Event) : bool :=
  match s, e with
  | _, QUIT => true
  | GAME_OVER, KEYDOWN K_q => true
  | _, _ => false
  end.

(** What holds of the game between frames: the memory invariant, the
    constants of the current player, its speed at most 6, and a score that
    is not negative. *)
Definition frame_inv (g : Game) (m : Mem L) : Prop :=
  Mem_inv m /\
  Player_inv (players m (player g)) /\
  (vlength (velocity (p_obj (players m (player g)))) <= 6)%R /\
  (0 <= score g)%Z.

(** *** What a collision pass meets *)

(** Does the rect of bullet [b] overlap the rect of asteroid [a]? *)
Definition overlaps (m : Mem L) (b a : nat) : bool :=
  colliderect (rect (b_obj (bullet_objs m b))) (rect (a_obj (asteroid_objs m a))).

(** The asteroids of the group that bullet [b] overlaps. *)
Definition overlapping (m : Mem L) (b : nat) : list nat :=
  filter (overlaps m b) (asteroids m).

(** The dictionary that [groupcollide] builds from a memory. *)
Definition hits_of (m : Mem L) : list (nat * list nat) :=
  flat_map (fun b => match overlapping m b with
                     | [] => []
                     | _ :: _ => [(b, overlapping m b)]
                     end)
           (bullets m).

(** The hit asteroids, one entry for each overlapping (bullet, asteroid)
    pair, in the order in which the collision loop visits them. *)
Definition hit_pairs (m : Mem L) : list nat :=
  flat_map (overlapping m) (bullets m).

(** The number of bullets of the group that overlap asteroid [a]. *)
Definition bullets_over (m : Mem L) (a : nat) : nat :=
  length (filter (fun b => overlaps m b a) (bullets m)).

(** The sum of the sizes of a list of asteroids. *)
Definition sum_sizes (m : Mem L) (l : list nat) : Z :=
  sumZ (map (fun a => size (asteroid_objs m a)) l).

(** The sizes of the fragments that breaking each asteroid of a list
    yields: none for size 1 or less, else two of one tier less. *)
Definition fragment_sizes (m : Mem L) (l : list nat) : list Z :=
  flat_map (fun a => let s := size (asteroid_objs m a) in
                     if (s <=? 1)%Z then [] else [(s - 1)%Z; (s - 1)%Z]) l.

(** The score that all overlapping pairs are worth: for each asteroid of
    the group, ten times its size times the number of bullets over it. *)
Definition pair_score (m : Mem L) : Z :=
  sumZ
    (map (fun a => (10 * size (asteroid_objs m a) * Z.of_nat (bullets_over m a))%Z)
         (asteroids m)).

(** The asteroids of the group that at least one bullet overlaps, each
    listed once. *)
Definition hit_asteroids (m : Mem L) : list nat :=
  filter (fun a => negb (Nat.eqb (bullets_over m a) 0)) (asteroids m).

(** One fragmenting hit per asteroid and frame, as a statement about a
    collision pass run from memory [m] with score [sc]: the pass returns,
    the score grows by ten times the size of each hit asteroid, counted
    once, and the group loses the hit asteroids and gains the fragments of
    each, counted once. *)
Definition one_hit_per_asteroid (sc : Z) (m : Mem L) : Prop :=
  exists sc' m',
    bullet_collisions sc m = Val (sc', m') /\
    sc' = (sc + 10 * sum_sizes m (hit_asteroids m))%Z /\
    length (asteroids m') =
      length (filter (fun a => Nat.eqb (bullets_over m a) 0) (asteroids m))
      + length (fragment_sizes m (hit_asteroids m)).

(** The asteroids of the group of [m] that the group of [m'] no longer
    holds: the asteroids destroyed between [m] and [m']. *)
Definition destroyed (m m' : Mem L) : list nat :=
  filter (fun a => negb (existsb (Nat.eqb a) (asteroids m'))) (asteroids m).

(** Ten points times its size for each asteroid destroyed, and no other
    change of the score, as a statement about a collision pass run from
    memory [m] with score [sc]: the pass returns, and the score grows by ten
    times the size of each asteroid that it destroyed. *)
Definition ten_per_destroyed (sc : Z) (m : Mem L) : Prop :=
  exists sc' m',
    bullet_collisions sc m = Val (sc', m') /\
    sc' = (sc + 10 * sum_sizes m (destroyed m m'))%Z.

(** *** A fresh session *)

(** The centre of the screen, where [reset_game] puts the ship. *)
Definition screen_centre : Vector2 := mkVector2 400 300.

(** What a session looks like right after [reset_game]: score 0; one ship,
    at the centre of the screen and at rest; five asteroids, each of size 3
    and farther than 200 from the ship; no bullets; and [all_sprites] holds
    exactly the ship and these asteroids. *)
Definition fresh_session (g : Game) (m : Mem L) : Prop :=
  score g = 0%Z /\
  all_sprites m = RPlayer (player g) :: map RAsteroid (asteroids m) /\
  pos (p_obj (players m (player g))) = screen_centre /\
  velocity (p_obj (players m (player g))) = mkVector2 0 0 /\
  length (asteroids m) = 5 /\
  NoDup (asteroids m) /\
  (forall a, In a (asteroids m) ->
     size (asteroid_objs m a) = 3%Z /\
     (distance_to (pos (a_obj (asteroid_objs m a)))
                  (pos (p_obj (players m (player g)))) > 200)%R) /\
  bullets m = [].

(** The random generator lets the [while True] loop of [reset_game] end
    within [fuel] rounds, from every memory in which player [p] sits at the
    centre of the screen. *)
Definition spawn_fair (fuel : nat) (p : nat) : Prop :=
  forall m, pos (p_obj (players m p)) = screen_centre ->
            returns (spawn_position fuel p 200%R) m (fun _ _ => True).

End Loop.

Arguments fresh_session {L} g m.
Arguments frame_inv {L} g m.

Arguments overlaps {L} m b a.
Arguments overlapping {L} m b.
Arguments hits_of {L} m.
Arguments hit_pairs {L} m.
Arguments bullets_over {L} m a.
Arguments sum_sizes {L} m l.
Arguments fragment_sizes {L} m l.
Arguments pair_score {L} m.
Arguments hit_asteroids {L} m.
Arguments destroyed {L} m m'.

(** ** A concrete library and a concrete memory *)

(** A clock that advances by one millisecond per reading, a random
    generator whose [uniform] returns the lower bound and whose [randrange]
    returns 0, square images, a rotation that keeps the image size, and
    truncation toward zero for Rect coordinates. *)
Definition demo_library : Library :=
  mkLibrary nat
    (fun t => (Z.of_nat t, S t))
    (fun a _ t => (a, S t))
    (fun _ t => (0%Z, S t))
    (mkSurface 60 60)
    (fun w => mkSurface w w)
    (mkSurface 25 25)
    (fun s _ => s)
    Ztrunc.

(** A large asteroid whose rect is the square from (0, 0) to (100, 100). *)
Definition demo_asteroid : Asteroid :=
  mkAsteroid
    (mkGameObject (mkSurface 100 100) (mkSurface 100 100) (mkRect 0 0 100 100)
                  (mkVector2 50 50) (mkVector2 0 0) 0%R 0%R)
    3.

(** A bullet flying to the right whose 25 x 25 rect has its left edge at
    [x] and its top edge at 40. *)
Definition demo_bullet (x : Z) : Bullet :=
  mkBullet
    (mkGameObject (mkSurface 25 25) (mkSurface 25 25) (mkRect x 40 25 25)
                  (mkVector2 (IZR x + 12) 52) (mkVector2 4 0) 0%R 0%R)
    2000 0.

(** A Playing-state memory: the ship at the centre of the screen, one
    large asteroid (object 1), and two bullets (objects 2 and 3), 60 pixels
    apart, both inside the asteroid's rect. *)
Definition double_hit_mem : Mem demo_library :=
  mkMem demo_library
    (fun _ => Player_init demo_library screen_centre)
    (fun _ => demo_asteroid)
    (fun i => if Nat.eqb i 2 then demo_bullet 10 else demo_bullet 70)
    4
    [RPlayer 0; RAsteroid 1; RBullet 2; RBullet 3]
    [1]
    [2; 3]
    0.

(** The same memory with the first bullet only. *)
Definition single_hit_mem : Mem demo_library :=
  mkMem demo_library
    (fun _ => Player_init demo_library screen_centre)
    (fun _ => demo_asteroid)
    (fun _ => demo_bullet 10)
    3
    [RPlayer 0; RAsteroid 1; RBullet 2]
    [1]
    [2]
    0.

(** All keys held, no key held. *)
Definition all_keys : Keys := fun _ => true.
Definition no_keys : Keys := fun _ => false.

(** A game in the Playing state whose player is object 0. *)
Definition demo_game : Game := mkGame 0 0 PLAYING true.

(** ** Further definitions used by the properties of the remaining code *)

(** The random generator keeps [uniform(a, b)] between its bounds. *)
Definition uniform_in_range (L : Library) : Prop :=
  forall (a b : R) (w : ext L),
    (a <= b)%R -> (a <= fst (uniform L a b w) <= b)%R.

(** The condition under which [draw_start_screen] draws the prompt
    "Press SPACE to Start", for the clock reading [t]:
    [(pygame.time.get_ticks() // 500) % 2 == 0]. *)
Definition start_prompt_shown (t : Z) : bool := ((t / 500) mod 2 =? 0)%Z.

(** The key that the event loop reads in a state other than Playing:
    space on the start screen, escape when paused, R after the game is
    over; every other key is ignored there, but for Q after the game is
    over, which ends the loop. *)
Definition leave_key (s : GameState) : Key :=
  match s with
  | START => K_SPACE
  | PLAYING | PAUSED => K_ESCAPE
  | GAME_OVER => K_r
  end.

(** A position on the screen, its right and bottom edge included: the
    modulo of doubles by 800 can return 800.0 itself. *)
Definition on_screen (p : Vector2) : Prop :=
  (0 <= vx p <= 800)%R /\ (0 <= vy p <= 600)%R.

Section MoreStore.
Variable L : Library.

(** [all_sprites] holds exactly the current player, the asteroids of the
    asteroid group and the bullets of the bullet group. *)
Definition groups_sync (pl : nat) (m : Mem L) : Prop :=
  forall r : Ref,
    In r (all_sprites m) <->
    match r with
    | RPlayer i => i = pl
    | RAsteroid a => In a (asteroids m)
    | RBullet b => In b (bullets m)
    end.

(** [keeps P c]: whenever [c] returns from a memory where [P] holds, [P]
    holds of the memory it leaves. *)
Definition keeps (P : Mem L -> Prop) {A : Type} (c : M L A) : Prop :=
  forall m, P m -> ensures c m (fun _ m' => P m').

(** [finishes lax c m Q]: run from [m], the computation [c] raises no
    exception, and what it returns satisfies [Q]; the loop bound of the
    model may run out only when [lax] is set. *)
Definition finishes (lax : bool) {A : Type} (c : M L A) (m : Mem L)
    (Q : A -> Mem L -> Prop) : Prop :=
  match c m with
  | Val (a, m') => Q a m'
  | Raise _ => False
  | OutOfFuel => lax = true
  end.

(** Memory [m'] holds a session built from new objects only, with ship
    [p], after memory [m]: six objects were created, the ship first; every
    sprite in a group is one of the six; no object that existed in [m] is
    changed; and the ship is as [Player.__init__] builds it at the centre
    of the screen. *)
Definition built_anew (m : Mem L) (p : nat) (m' : Mem L) : Prop :=
  p = next_id m /\
  next_id m' = next_id m + 6 /\
  (forall r, In r (all_sprites m') -> next_id m <= ref_id r < next_id m') /\
  (forall a, In a (asteroids m') -> next_id m < a < next_id m') /\
  (forall i, i <> next_id m -> players m' i = players m i) /\
  (forall i, i < next_id m -> asteroid_objs m' i = asteroid_objs m i) /\
  bullet_objs m' = bullet_objs m /\
  players m' p = Player_init L screen_centre.

(** The position of the sprite that a reference points to. *)
Definition ref_pos (m : Mem L) (r : Ref) : Vector2 :=
  match r with
  | RPlayer i => pos (p_obj (players m i))
  | RAsteroid i => pos (a_obj (asteroid_objs m i))
  | RBullet i => pos (b_obj (bullet_objs m i))
  end.

(** Ship [i] does not rotate by itself. *)
Definition spin_free (i : nat) (m : Mem L) : Prop :=
  rotation_speed (p_obj (players m i)) = 0%R.

(** Bullet [b] overlaps no asteroid of the group. *)
Definition misses (m : Mem L) (b : nat) : bool :=
  match overlapping m b with
  | [] => true
  | _ :: _ => false
  end.

End MoreStore.

Arguments groups_sync {L} pl m.
Arguments keeps {L} P {A} c.
Arguments finishes {L} lax {A} c m Q.
Arguments misses {L} m b.
Arguments spin_free {L} i m.
Arguments ref_pos {L} m r.
Arguments built_anew {L} m p m'.

(** A rock at (50, 50) that drifts to the right by one pixel and turns by
    two degrees per frame. *)
Definition demo_spinner : GameObject :=
  mkGameObject (mkSurface 100 100) (mkSurface 100 100) (mkRect 0 0 100 100)
               (mkVector2 50 50) (mkVector2 1 0) 0%R 2%R.

(** The input of one frame: 16 ms since the last one, a left-arrow key
    press and an event of another type, no key held. *)
Definition demo_input : FrameInput :=
  mkFrameInput (16 / 1000)%R [KEYDOWN K_LEFT; OTHER_EVENT] no_keys.

(** * Properties *)

(** ** Float modulo and wrapping *)

Section WrapFacts.
Local Open Scope R_scope.

Lemma fmod_nonneg_quotient (v w : R) :
  0 < w -> 0 <= v / w -> 0 <= fmod v w < w.
Proof.
  intros Hw Hq. unfold fmod, Ztrunc.
  destruct (Rle_dec 0 (v / w)) as [_|n]; [|contradiction].
  pose proof (Zfloor_bound (v / w)) as [Hlo Hhi].
  assert (Hv : v = v / w * w) by (field; lra).
  split.
  - apply (Rmult_le_compat_r w) in Hlo; lra.
  - apply (Rmult_lt_compat_r w) in Hhi; lra.
Qed.

Lemma fmod_neg_quotient (v w : R) :
  0 < w -> v / w < 0 -> - w < fmod v w <= 0.
Proof.
  intros Hw Hq. unfold fmod, Ztrunc.
  destruct (Rle_dec 0 (v / w)) as [l|_]; [lra|].
  pose proof (Zfloor_bound (- (v / w))) as [Hlo Hhi].
  rewrite opp_IZR.
  assert (Hv : v = v / w * w) by (field; lra).
  split.
  - apply (Rmult_lt_compat_r w) in Hhi; lra.
  - apply (Rmult_le_compat_r w) in Hlo; lra.
Qed.

(** For a positive divisor the modulo returns; over the reals, where no
    sum is rounded, the result lies in [0, w). *)
Lemma float_rem_range (v w : R) :
  0 < w -> exists r, float_rem v w = Val r /\ 0 <= r < w.
Proof.
  intros Hw. unfold float_rem.
  destruct (Req_dec_T w 0) as [e|_]; [lra|].
  destruct (Req_dec_T (fmod v w) 0) as [e|Hm].
  - exists 0. split; [reflexivity|lra].
  - destruct (Rlt_dec w 0) as [l|_]; [lra|].
    destruct (Rle_or_lt 0 (v / w)) as [Hq|Hq].
    + pose proof (fmod_nonneg_quotient v w Hw Hq).
      destruct (Rlt_dec (fmod v w) 0) as [l|_]; [lra|].
      exists (fmod v w). split; [reflexivity|lra].
    + pose proof (fmod_neg_quotient v w Hw Hq).
      destruct (Rlt_dec (fmod v w) 0) as [_|n]; [|lra].
      exists (fmod v w + w). split; [reflexivity|lra].
Qed.

(** Wrapping returns a position on the screen, its right and bottom edge
    included. *)
Lemma wrap_position_returns (p : Vector2) :
  exists q,
    wrap_position p = Val q /\
    0 <= vx q <= 800 /\ 0 <= vy q <= 600.
Proof.
  unfold wrap_position, SCREEN_WIDTH, SCREEN_HEIGHT.
  destruct (float_rem_range (vx p) 800) as [x [Hx Rx]]; [lra|].
  destruct (float_rem_range (vy p) 600) as [y [Hy Ry]]; [lra|].
  exists (mkVector2 x y). rewrite Hx, Hy. simpl.
  split; [reflexivity|]. split; lra.
Qed.

End WrapFacts.

(** ** Speed clamp and totality of [handle_input] *)

Section ShipControl.
Variable L : Library.
Local Open Scope R_scope.

Lemma vlength_nonneg (v : Vector2) : 0 <= vlength v.
Proof. apply sqrt_pos. Qed.

Lemma vlength_vscale (v : Vector2) (k : R) :
  vlength (vscale v k) = Rabs k * vlength v.
Proof.
  unfold vlength, vscale; simpl.
  replace (vx v * k * (vx v * k) + vy v * k * (vy v * k))
    with (Rsqr k * (vx v * vx v + vy v * vy v)) by (unfold Rsqr; ring).
  rewrite sqrt_mult_alt by apply Rle_0_sqr.
  now rewrite sqrt_Rsqr_abs.
Qed.

(** Rescaling a vector longer than epsilon gives exactly the new length. *)
Lemma scale_to_length_length (v : Vector2) (l : R) :
  0 <= l -> VECTOR_EPSILON <= vlength v ->
  exists v', scale_to_length v l = Val v' /\ vlength v' = l.
Proof.
  intros Hl Hv. unfold scale_to_length.
  destruct (Rlt_dec (vlength v) VECTOR_EPSILON) as [c|_]; [lra|].
  eexists; split; [reflexivity|].
  assert (0 < vlength v) by (unfold VECTOR_EPSILON in Hv; lra).
  rewrite vlength_vscale, Rabs_right.
  - field; lra.
  - apply Rle_ge. apply Rmult_le_pos; [lra|]. left. now apply Rinv_0_lt_compat.
Qed.

(** One of the two rotation steps: it returns, and it only sets the angle. *)
Lemma rotation_step (c : bool) (o : GameObject) (x : R) :
  exists a,
    (if c then (a <-- float_rem x 360 ;; Val (set_angle o a))%res else Val o)
    = Val (set_angle o a).
Proof.
  destruct c.
  - destruct (float_rem_range x 360) as [r [Hr _]]; [lra|].
    exists r. now rewrite Hr.
  - exists (angle o). now destruct o.
Qed.

(** The thrust step: it returns, keeps everything but the velocity, and
    leaves a velocity no longer than [ms] when the old one was, provided
    the clamp length [ms] is at least epsilon. *)
Lemma thrust_step (c : bool) (o : GameObject) (th ms : R) :
  VECTOR_EPSILON <= ms ->
  exists v,
    (if c then
       let direction := angle_to_vector (angle o) in
       let o1 := set_velocity o (vadd (velocity o) (vscale direction th)) in
       if Rgt_dec (vlength (velocity o1)) ms
       then (v <-- scale_to_length (velocity o1) ms ;; Val (set_velocity o1 v))%res
       else Val o1
     else Val o) = Val (set_velocity o v)
    /\ (vlength (velocity o) <= ms -> vlength v <= ms).
Proof.
  intros Hms. destruct c; cbv zeta.
  - set (v1 := vadd (velocity o) (vscale (angle_to_vector (angle o)) th)).
    simpl velocity.
    destruct (Rgt_dec (vlength v1) ms) as [Hgt|Hle].
    + destruct (scale_to_length_length v1 ms) as [v' [Hs Hl]].
      * unfold VECTOR_EPSILON in Hms. lra.
      * unfold Rgt in Hgt. lra.
      * exists v'. rewrite Hs. simpl. split; [reflexivity|]. intros _. lra.
    + exists v1. split; [reflexivity|]. intros _. unfold Rgt in Hle. lra.
  - exists (velocity o). split; [now destruct o|]. tauto.
Qed.

(** What a call of [handle_input] does when the clamp length is at least
    pygame's epsilon: it returns; only the ship's game object changes; its
    position is kept; and a velocity no longer than the maximum speed stays
    so. *)
Lemma handle_input_returns (self : Player) (keys : Keys) (dt : R) :
  VECTOR_EPSILON <= max_speed self ->
  exists p',
    handle_input L self keys dt = Val p' /\
    thrust p' = thrust self /\ max_speed p' = max_speed self /\
    last_shot_time p' = last_shot_time self /\
    shot_cooldown p' = shot_cooldown self /\
    pos (p_obj p') = pos (p_obj self) /\
    (vlength (velocity (p_obj self)) <= max_speed self ->
     vlength (velocity (p_obj p')) <= max_speed self).
Proof.
  intros Hms. unfold handle_input. cbv zeta.
  destruct (rotation_step (keys K_LEFT) (p_obj self)
              (angle (p_obj self) + 180 * dt)) as [a1 ->].
  cbn [res_bind].
  destruct (rotation_step (keys K_RIGHT) (set_angle (p_obj self) a1)
              (angle (set_angle (p_obj self) a1) - 180 * dt)) as [a2 ->].
  cbn [res_bind].
  pose proof (thrust_step (keys K_UP) (set_angle (set_angle (p_obj self) a1) a2)
                (thrust self) (max_speed self) Hms) as Ht.
  cbv zeta in Ht. destruct Ht as [v [-> Hv]].
  cbn [res_bind].
  eexists. split; [reflexivity|].
  cbn [thrust max_speed last_shot_time shot_cooldown p_obj set_p_obj pos velocity
       set_rect set_image set_velocity set_angle] in *.
  repeat (split; [reflexivity|]).
  intros Hle. rewrite vlength_vscale, Rabs_right by lra.
  pose proof (vlength_nonneg v). specialize (Hv Hle). lra.
Qed.

(** C9: [handle_input] returns for every ship whose [max_speed] is the 6 of
    the constructor, every set of held keys and every [dt], a ship at rest
    included: the rescaling runs only on a velocity longer than [max_speed],
    so [scale_to_length] never meets a vector shorter than its epsilon and
    never raises, and the float modulo is by the non-zero constant 360. *)
Theorem handle_input_total (self : Player) (keys : Keys) (dt : R) :
  max_speed self = 6 ->
  exists p', handle_input L self keys dt = Val p'.
Proof.
  intros Hms.
  destruct (handle_input_returns self keys dt) as (p' & Hrun & _).
  - rewrite Hms. unfold VECTOR_EPSILON. lra.
  - now exists p'.
Qed.

End ShipControl.

(** ** Reasoning about computations on the memory *)

(** Projections of an updated memory. *)
Ltac mem_simpl :=
  cbn [players asteroid_objs bullet_objs next_id all_sprites asteroids bullets
       world set_players set_asteroid_objs set_bullet_objs set_next_id
       set_all_sprites set_asteroids set_bullets set_world fst snd] in *.

Section Hoare.
Variable L : Library.

Lemma returns_ret {A : Type} (a : A) (m : Mem L) (Q : A -> Mem L -> Prop) :
  Q a m -> returns (ret a) m Q.
Proof. intros H. exists a, m. now split. Qed.

Lemma returns_bind {A B : Type} (c : M L A) (k : A -> M L B) (m : Mem L)
    (Q : B -> Mem L -> Prop) :
  returns c m (fun a m' => returns (k a) m' Q) -> returns (bind c k) m Q.
Proof.
  intros (a & m1 & Hc & b & m2 & Hk & HQ).
  exists b, m2. split; [|exact HQ]. unfold bind. now rewrite Hc.
Qed.

Lemma returns_conseq {A : Type} (c : M L A) (m : Mem L) (Q Q' : A -> Mem L -> Prop) :
  returns c m Q -> (forall a m', Q a m' -> Q' a m') -> returns c m Q'.
Proof. intros (a & m1 & Hc & HQ) Himp. exists a, m1. auto. Qed.

Lemma returns_gets {A : Type} (f : Mem L -> A) (m : Mem L) (Q : A -> Mem L -> Prop) :
  Q (f m) m -> returns (gets f) m Q.
Proof. intros H. exists (f m), m. now split. Qed.

Lemma returns_modify (f : Mem L -> Mem L) (m : Mem L) (Q : unit -> Mem L -> Prop) :
  Q tt (f m) -> returns (modify f) m Q.
Proof. intros H. exists tt, (f m). now split. Qed.

Lemma returns_lift {A : Type} (r : Res A) (a : A) (m : Mem L) (Q : A -> Mem L -> Prop) :
  r = Val a -> Q a m -> returns (lift r) m Q.
Proof. intros -> H. exists a, m. now split. Qed.

(** A computation has one outcome: what [returns] promises holds of it. *)
Lemma returns_inv {A : Type} (c : M L A) (m : Mem L) (Q : A -> Mem L -> Prop)
    (a : A) (m' : Mem L) :
  returns c m Q -> c m = Val (a, m') -> Q a m'.
Proof. intros (a1 & m1 & Hc & HQ) E. rewrite Hc in E. now inversion E; subst. Qed.

Lemma returns_ensures {A : Type} (c : M L A) (m : Mem L) (Q : A -> Mem L -> Prop) :
  returns c m Q -> ensures c m Q.
Proof. intros H a m' E. eapply returns_inv; eassumption. Qed.

Lemma ensures_ret {A : Type} (a : A) (m : Mem L) (Q : A -> Mem L -> Prop) :
  Q a m -> ensures (ret a) m Q.
Proof. intros H a' m' E. now inversion E; subst. Qed.

Lemma ensures_bind {A B : Type} (c : M L A) (k : A -> M L B) (m : Mem L)
    (Q : B -> Mem L -> Prop) :
  ensures c m (fun a m' => ensures (k a) m' Q) -> ensures (bind c k) m Q.
Proof.
  intros H b m2 E. unfold bind in E.
  destruct (c m) as [[a m1]| |] eqn:Hc; try discriminate.
  exact (H a m1 Hc b m2 E).
Qed.

Lemma ensures_conseq {A : Type} (c : M L A) (m : Mem L) (Q Q' : A -> Mem L -> Prop) :
  ensures c m Q -> (forall a m', Q a m' -> Q' a m') -> ensures c m Q'.
Proof. intros H Himp a m' E. apply Himp, H, E. Qed.

Lemma ensures_fold_m {A B : Type} (I : B -> Mem L -> Prop)
    (body : B -> A -> M L B) (xs : list A) :
  (forall x b m, In x xs -> I b m -> ensures (body b x) m I) ->
  forall b m, I b m -> ensures (fold_m L xs body b) m I.
Proof.
  induction xs as [|x xs IH]; intros Hbody b m Hm; simpl.
  - now apply ensures_ret.
  - apply ensures_bind.
    eapply ensures_conseq; [apply Hbody; [now left|exact Hm]|].
    intros b1 m1 H1. simpl. apply IH; [|exact H1].
    intros y b2 m2 Hy. apply Hbody. now right.
Qed.

Lemma ensures_returns {A : Type} (c : M L A) (m : Mem L) (Q Q' : A -> Mem L -> Prop) :
  returns c m Q -> ensures c m Q' -> returns c m (fun a m' => Q a m' /\ Q' a m').
Proof.
  intros (a & m1 & Hc & HQ) H'. exists a, m1. split; [exact Hc|]. split; auto.
Qed.

Lemma returns_and {A : Type} (c : M L A) (m : Mem L) (Q Q' : A -> Mem L -> Prop) :
  returns c m Q -> returns c m Q' -> returns c m (fun a m' => Q a m' /\ Q' a m').
Proof.
  intros (a & m1 & Hc & HQ) H'. exists a, m1. split; [exact Hc|].
  split; [exact HQ|]. eapply returns_inv; eassumption.
Qed.

(** A loop with an invariant. *)
Lemma returns_for_each {A : Type} (I : Mem L -> Prop) (xs : list A)
    (body : A -> M L unit) :
  (forall x m, In x xs -> I m -> returns (body x) m (fun _ m' => I m')) ->
  forall m, I m -> returns (for_each xs body) m (fun _ m' => I m').
Proof.
  induction xs as [|x xs IH]; intros Hbody m Hm; simpl.
  - now apply returns_ret.
  - apply returns_bind.
    eapply returns_conseq; [apply Hbody; [now left|exact Hm]|].
    intros u m1 H1. simpl. apply IH; [|exact H1].
    intros y m2 Hy. apply Hbody. now right.
Qed.

(** A loop that threads a value: the invariant sees the elements already
    processed. *)
Lemma returns_fold_m {A B : Type} (I : list A -> B -> Mem L -> Prop)
    (body : B -> A -> M L B) (xs : list A) :
  forall (done : list A) (b : B) (m : Mem L),
    (forall pre x b m, (exists post, done ++ xs = pre ++ x :: post) ->
       I pre b m ->
       returns (body b x) m (fun b' m' => I (pre ++ [x]) b' m')) ->
    I done b m ->
    returns (fold_m L xs body b) m (fun b' m' => I (done ++ xs) b' m').
Proof.
  induction xs as [|x xs IH]; intros done b m Hbody Hm; simpl.
  - apply returns_ret. now rewrite app_nil_r.
  - apply returns_bind.
    eapply returns_conseq.
    + apply Hbody; [|exact Hm]. now exists xs.
    + intros b1 m1 H1. simpl.
      replace (done ++ x :: xs) with ((done ++ [x]) ++ xs)
        by (now rewrite <- app_assoc).
      apply IH; [|exact H1].
      intros pre y b2 m2 [post Hpost] HI. apply Hbody; [|exact HI].
      exists post. rewrite <- Hpost. now rewrite <- app_assoc.
Qed.

End Hoare.

(** One step through [bind], [gets], [modify] or [ret]. *)
Ltac mstep :=
  first [ apply returns_bind | apply returns_gets | apply returns_modify
        | apply returns_ret ];
  cbv beta.

(** ** Sprite groups *)

Section Groups.
Variable A : Type.
Variable eqb : A -> A -> bool.
Hypothesis eqb_eq : forall a b, eqb a b = true <-> a = b.

Lemma group_add_fresh (x : A) (g : list A) :
  ~ In x g -> group_add eqb x g = g ++ [x].
Proof.
  intros Hx. unfold group_add.
  destruct (existsb (eqb x) g) eqn:E; [|reflexivity].
  apply existsb_exists in E as (y & Hy & Hxy).
  apply eqb_eq in Hxy. subst y. contradiction.
Qed.

Lemma group_add_member (x : A) (g : list A) :
  In x g -> group_add eqb x g = g.
Proof.
  intros Hx. unfold group_add.
  destruct (existsb (eqb x) g) eqn:E; [reflexivity|].
  assert (existsb (eqb x) g = true); [|congruence].
  apply existsb_exists. exists x. split; [exact Hx|]. now apply eqb_eq.
Qed.

Lemma In_group_remove (x y : A) (g : list A) :
  In y (group_remove eqb x g) <-> In y g /\ y <> x.
Proof.
  unfold group_remove. rewrite filter_In. split.
  - intros [Hy Hne]. split; [exact Hy|]. intros ->.
    assert (eqb x x = true) as E by now apply eqb_eq.
    rewrite E in Hne. discriminate.
  - intros [Hy Hne]. split; [exact Hy|].
    destruct (eqb x y) eqn:E; [|reflexivity].
    apply eqb_eq in E. congruence.
Qed.

Lemma NoDup_group_remove (x : A) (g : list A) :
  NoDup g -> NoDup (group_remove eqb x g).
Proof. apply NoDup_filter. Qed.

Lemma group_remove_absent (x : A) (g : list A) :
  ~ In x g -> group_remove eqb x g = g.
Proof.
  intros Hx. unfold group_remove. induction g as [|y g IH]; [reflexivity|].
  simpl. destruct (eqb x y) eqn:E.
  - apply eqb_eq in E. subst y. exfalso. apply Hx. now left.
  - simpl. f_equal. apply IH. intros H. apply Hx. now right.
Qed.

End Groups.

Arguments group_add_fresh {A eqb} eqb_eq x g _.
Arguments group_add_member {A eqb} eqb_eq x g _.
Arguments In_group_remove {A eqb} eqb_eq x y g.
Arguments NoDup_group_remove {A} eqb x g _.
Arguments group_remove_absent {A eqb} eqb_eq x g _.

Lemma ref_eqb_eq (a b : Ref) : ref_eqb a b = true <-> a = b.
Proof.
  destruct a, b; simpl; rewrite ?Nat.eqb_eq; split; intros H;
    try discriminate; try (inversion H; reflexivity); subst; reflexivity.
Qed.

(** ** Creating asteroids and breaking them apart *)

Section Fragmentation.
Variable L : Library.

Lemma upd_same {A : Type} (h : nat -> A) (i : nat) (v : A) : upd h i v i = v.
Proof. unfold upd. now rewrite Nat.eqb_refl. Qed.

Lemma upd_other {A : Type} (h : nat -> A) (i j : nat) (v : A) :
  j <> i -> upd h i v j = h j.
Proof. intros H. unfold upd. now apply Nat.eqb_neq in H as ->. Qed.

Lemma target_size_returns (sz : Z) :
  (1 <= sz <= 3)%Z -> exists t, target_size sz = Val t.
Proof.
  intros H.
  assert (sz = 1 \/ sz = 2 \/ sz = 3)%Z as [->|[->| ->]] by lia;
    eexists; reflexivity.
Qed.

(** [Asteroid(pos, size)] for a size tier 1, 2 or 3: whatever the three
    random draws give, it returns a fresh reference to an asteroid of that
    size at that position, and touches no other object and no group. *)
Lemma Asteroid_new_returns (p : Vector2) (sz : Z) (m : Mem L) :
  (1 <= sz <= 3)%Z ->
  returns (Asteroid_new L p sz) m (fun f m' =>
    f = next_id m /\
    next_id m' = S (next_id m) /\
    size (asteroid_objs m' f) = sz /\
    pos (a_obj (asteroid_objs m' f)) = p /\
    (forall i, i <> next_id m -> asteroid_objs m' i = asteroid_objs m i) /\
    players m' = players m /\
    bullet_objs m' = bullet_objs m /\
    all_sprites m' = all_sprites m /\
    asteroids m' = asteroids m /\
    bullets m' = bullets m).
Proof.
  intros Hsz. destruct (target_size_returns sz Hsz) as [t Ht].
  unfold returns, Asteroid_new, bind, lift, m_uniform, new_asteroid.
  rewrite Ht. simpl.
  destruct (uniform L 0 360 (world m)) as [ang w1]. simpl.
  destruct (uniform L (1 / 2) 2 w1) as [sp w2]. simpl.
  destruct (uniform L (-1) 1 w2) as [spin w3]. simpl.
  eexists; eexists; split; [reflexivity|]. simpl.
  rewrite upd_same. simpl.
  repeat split; try reflexivity.
  intros i Hi. now apply upd_other.
Qed.

(** What [break_apart] does to the memory, for an asteroid of tier 1, 2 or
    3: nothing for tier 1; for the others two fresh asteroids one tier down
    at the parent's position, every object that existed before left as it
    was, and no group touched. *)
Lemma break_apart_returns (m : Mem L) (self : nat) :
  Asteroid_inv (asteroid_objs m self) ->
  returns (break_apart L self) m (fun frs m' =>
    players m' = players m /\ bullet_objs m' = bullet_objs m /\
    all_sprites m' = all_sprites m /\ asteroids m' = asteroids m /\
    bullets m' = bullets m /\
    (forall i, i < next_id m -> asteroid_objs m' i = asteroid_objs m i) /\
    if (size (asteroid_objs m self) <=? 1)%Z
    then frs = [] /\ m' = m
    else frs = [next_id m; S (next_id m)] /\
         next_id m' = S (S (next_id m)) /\
         Forall (fun f =>
                   size (asteroid_objs m' f) = (size (asteroid_objs m self) - 1)%Z /\
                   pos (a_obj (asteroid_objs m' f)) = pos (a_obj (asteroid_objs m self)))
                frs).
Proof.
  intros Hinv. unfold Asteroid_inv in Hinv. unfold break_apart.
  apply returns_bind, returns_gets.
  destruct (size (asteroid_objs m self) <=? 1)%Z eqn:Hle.
  - apply returns_ret. repeat split; reflexivity.
  - apply Z.leb_gt in Hle.
    apply returns_bind, returns_gets. simpl break_apart_loop.
    apply returns_bind, returns_gets. apply returns_bind.
    eapply returns_conseq; [apply Asteroid_new_returns; lia|].
    intros f1 m1 (Hf1 & Hn1 & Hs1 & Hp1 & Ho1 & Hpl1 & Hb1 & Hg1 & Ha1 & Hbu1).
    cbv beta. apply returns_bind, returns_gets. apply returns_bind.
    eapply returns_conseq; [apply Asteroid_new_returns; lia|].
    intros f2 m2 (Hf2 & Hn2 & Hs2 & Hp2 & Ho2 & Hpl2 & Hb2 & Hg2 & Ha2 & Hbu2).
    cbv beta. apply returns_ret. subst f1 f2.
    split; [congruence|]. split; [congruence|]. split; [congruence|].
    split; [congruence|]. split; [congruence|].
    split.
    { intros i Hi. rewrite Ho2, Ho1; [reflexivity|lia|lia]. }
    split; [now rewrite Hn1|]. split; [lia|].
    constructor; [|constructor; [|constructor]].
    + split; rewrite Ho2 by lia; assumption.
    + rewrite Hn1 in *. split; [exact Hs2|]. rewrite Hp2.
      destruct (Nat.eq_dec self (next_id m)) as [->|Hne].
      * exact Hp1.
      * now rewrite Ho1.
Qed.

(** C2: [break_apart] of an asteroid of size at most 1 returns the empty
    list and changes nothing; of an asteroid of a larger tier it returns
    exactly two distinct new asteroids, each one tier smaller and each at the
    position the parent has when the call is made.  The library [L], and with
    it every outcome of the heading, speed and spin draws, is arbitrary. *)
Theorem break_apart_fragmentation_law (m : Mem L) (self : nat) :
  let a := asteroid_objs m self in
  ((size a <= 1)%Z -> break_apart L self m = Val ([], m)) /\
  ((1 < size a)%Z -> Asteroid_inv a ->
   exists f1 f2 m',
     break_apart L self m = Val ([f1; f2], m') /\
     f1 <> f2 /\
     size (asteroid_objs m' f1) = (size a - 1)%Z /\
     size (asteroid_objs m' f2) = (size a - 1)%Z /\
     pos (a_obj (asteroid_objs m' f1)) = pos (a_obj a) /\
     pos (a_obj (asteroid_objs m' f2)) = pos (a_obj a)).
Proof.
  cbv zeta. split.
  - intros Hle. unfold break_apart, bind, gets.
    apply Z.leb_le in Hle. now rewrite Hle.
  - intros Hgt Hinv.
    destruct (break_apart_returns m self Hinv) as (frs & m' & Hrun & H).
    destruct H as (_ & _ & _ & _ & _ & _ & H).
    apply Z.leb_gt in Hgt. rewrite Hgt in H.
    destruct H as (-> & _ & Hall).
    inversion Hall as [|x l [Hs1 Hp1] Htl]; subst.
    inversion Htl as [|x l [Hs2 Hp2] _]; subst.
    exists (next_id m), (S (next_id m)), m'.
    repeat split; try assumption. lia.
Qed.

(** The body of the inner collision loop, for a hit asteroid that exists
    and has a size tier 1, 2 or 3: the score grows by ten times the size the
    asteroid had before the call, the asteroid leaves both groups, its
    fragments (none for tier 1, else two) are appended to both groups, and
    no object that existed before is changed. *)
Lemma hit_asteroid_returns (sc : Z) (a : nat) (m : Mem L) :
  a < next_id m ->
  Asteroid_inv (asteroid_objs m a) ->
  (forall x, In x (asteroids m) -> x < next_id m) ->
  (forall r, In r (all_sprites m) -> ref_id r < next_id m) ->
  returns (hit_asteroid L sc a) m (fun sc' m' =>
    sc' = (sc + 10 * size (asteroid_objs m a))%Z /\
    players m' = players m /\ bullet_objs m' = bullet_objs m /\
    bullets m' = bullets m /\
    (forall i, i < next_id m -> asteroid_objs m' i = asteroid_objs m i) /\
    exists frs,
      frs = (if (size (asteroid_objs m a) <=? 1)%Z then []
             else [next_id m; S (next_id m)]) /\
      next_id m' = next_id m + length frs /\
      asteroids m' = group_remove Nat.eqb a (asteroids m) ++ frs /\
      all_sprites m' =
        group_remove ref_eqb (RAsteroid a) (all_sprites m) ++ map RAsteroid frs /\
      Forall (fun f =>
                size (asteroid_objs m' f) = (size (asteroid_objs m a) - 1)%Z /\
                pos (a_obj (asteroid_objs m' f)) = pos (a_obj (asteroid_objs m a)))
             frs).
Proof.
  intros Ha Hinv Hast Hall. unfold hit_asteroid.
  apply returns_bind.
  eapply returns_conseq; [apply break_apart_returns; exact Hinv|].
  intros frs m1 (Hpl & Hbo & Hal & Has & Hbu & Hfr & Hcase). cbv beta.
  unfold kill_asteroid, all_sprites_add, asteroids_add.
  apply returns_bind, returns_modify.
  destruct (size (asteroid_objs m a) <=? 1)%Z eqn:Hle.
  - destruct Hcase as [-> ->]. simpl for_each. repeat mstep. mem_simpl.
    do 4 (split; [reflexivity|]). split; [auto|].
    exists []. simpl. rewrite !app_nil_r. repeat split; auto.
  - destruct Hcase as (-> & Hn & HF). simpl for_each. repeat mstep.
    mem_simpl.
    assert (Hf1 : ~ In (next_id m) (group_remove Nat.eqb a (asteroids m1))).
    { rewrite (In_group_remove Nat.eqb_eq), Has. intros [H _].
      apply Hast in H. lia. }
    assert (Hr1 : ~ In (RAsteroid (next_id m))
                     (group_remove ref_eqb (RAsteroid a) (all_sprites m1))).
    { rewrite (In_group_remove ref_eqb_eq), Hal. intros [H _].
      apply Hall in H. simpl in H. lia. }
    rewrite (group_add_fresh Nat.eqb_eq _ _ Hf1).
    rewrite (group_add_fresh ref_eqb_eq _ _ Hr1).
    assert (Hf2 : ~ In (S (next_id m))
                     (group_remove Nat.eqb a (asteroids m1) ++ [next_id m])).
    { rewrite in_app_iff, (In_group_remove Nat.eqb_eq), Has.
      intros [[H _]|[H|[]]]; [apply Hast in H|]; lia. }
    assert (Hr2 : ~ In (RAsteroid (S (next_id m)))
                     (group_remove ref_eqb (RAsteroid a) (all_sprites m1)
                      ++ [RAsteroid (next_id m)])).
    { rewrite in_app_iff, (In_group_remove ref_eqb_eq), Hal.
      intros [[H _]|[H|[]]]; [apply Hall in H; simpl in H; lia|].
      inversion H. lia. }
    rewrite (group_add_fresh Nat.eqb_eq _ _ Hf2).
    rewrite (group_add_fresh ref_eqb_eq _ _ Hr2).
    split; [now rewrite Hfr|].
    do 3 (split; [assumption|]). split; [exact Hfr|].
    exists [next_id m; S (next_id m)].
    split; [reflexivity|]. split; [simpl; lia|].
    rewrite Has, Hal, <- !app_assoc. simpl. repeat split; auto.
Qed.

(** The body of the inner collision loop run twice on the same asteroid,
    as it is when two bullets overlap it: both runs return, and the score
    grows by twice ten times the size of the asteroid. *)
Lemma hit_twice_returns (sc : Z) (a : nat) (m : Mem L) :
  a < next_id m ->
  Asteroid_inv (asteroid_objs m a) ->
  (forall x, In x (asteroids m) -> x < next_id m) ->
  (forall r, In r (all_sprites m) -> ref_id r < next_id m) ->
  returns (bind (hit_asteroid L sc a) (fun sc1 => hit_asteroid L sc1 a)) m
    (fun sc' _ => sc' = (sc + 20 * size (asteroid_objs m a))%Z).
Proof.
  intros Ha Hinv Hast Hall. apply returns_bind.
  eapply returns_conseq;
    [apply hit_asteroid_returns; [exact Ha|exact Hinv|exact Hast|exact Hall]|].
  cbv beta.
  intros sc1 m1 (Hsc1 & _ & _ & _ & Hobj & frs & Hfrs & Hn & Has & Hal & _).
  assert (Hnew : forall f, In f frs -> f < next_id m1).
  { intros f Hf. rewrite Hn, Hfrs in *.
    destruct (size (asteroid_objs m a) <=? 1)%Z; [destruct Hf|].
    cbn [length]. destruct Hf as [<-|[<-|[]]]; lia. }
  eapply returns_conseq; [apply hit_asteroid_returns|].
  - lia.
  - rewrite Hobj by exact Ha. exact Hinv.
  - intros x Hx. rewrite Has in Hx. apply in_app_iff in Hx as [Hx|Hx].
    + apply (In_group_remove Nat.eqb_eq) in Hx as [Hx _]. apply Hast in Hx. lia.
    + now apply Hnew.
  - intros r Hr. rewrite Hal in Hr. apply in_app_iff in Hr as [Hr|Hr].
    + apply (In_group_remove ref_eqb_eq) in Hr as [Hr _]. apply Hall in Hr. lia.
    + apply in_map_iff in Hr as (f & <- & Hf). simpl. now apply Hnew.
  - cbv beta. intros sc' m' (Hsc' & _).
    rewrite Hsc', Hsc1, Hobj by exact Ha. lia.
Qed.

(** C10: [break_apart] leaves the parent as it was: after the call the
    parent object is the same (so are its size, position and velocity), and
    so is every other asteroid that existed.  Hence the score computed by the
    collision loop after the parent has left the groups is the old score plus
    ten times the parent's original size. *)
Theorem break_apart_keeps_parent (m : Mem L) (self : nat) :
  self < next_id m ->
  Asteroid_inv (asteroid_objs m self) ->
  (forall x, In x (asteroids m) -> x < next_id m) ->
  (forall r, In r (all_sprites m) -> ref_id r < next_id m) ->
  returns (break_apart L self) m (fun _ m' =>
    asteroid_objs m' self = asteroid_objs m self /\
    size (asteroid_objs m' self) = size (asteroid_objs m self) /\
    pos (a_obj (asteroid_objs m' self)) = pos (a_obj (asteroid_objs m self)) /\
    velocity (a_obj (asteroid_objs m' self)) = velocity (a_obj (asteroid_objs m self)) /\
    forall i, i < next_id m -> asteroid_objs m' i = asteroid_objs m i) /\
  forall sc,
    returns (hit_asteroid L sc self) m (fun sc' m' =>
      sc' = (sc + 10 * size (asteroid_objs m self))%Z /\
      ~ In self (asteroids m') /\
      ~ In (RAsteroid self) (all_sprites m')).
Proof.
  intros Hself Hinv Hast Hall. split.
  - eapply returns_conseq; [apply break_apart_returns; exact Hinv|].
    intros frs m' (_ & _ & _ & _ & _ & Hfr & _). cbv beta.
    rewrite (Hfr self Hself). repeat split; auto.
  - intros sc.
    eapply returns_conseq; [apply hit_asteroid_returns; assumption|].
    intros sc' m' (Hsc & _ & _ & _ & _ & frs & Hfrs & _ & Has & Hal & _).
    cbv beta. split; [exact Hsc|].
    assert (Hfresh : forall f, In f frs -> next_id m <= f).
    { intros f Hf. rewrite Hfrs in Hf.
      destruct (size (asteroid_objs m self) <=? 1)%Z; simpl in Hf;
        [contradiction|]. lia. }
    split.
    + rewrite Has, in_app_iff, (In_group_remove Nat.eqb_eq).
      intros [[_ H]|H]; [congruence|]. apply Hfresh in H. lia.
    + rewrite Hal, in_app_iff, (In_group_remove ref_eqb_eq), in_map_iff.
      intros [[_ H]|(f & E & H)]; [congruence|].
      inversion E; subst. apply Hfresh in H. lia.
Qed.

End Fragmentation.

(** ** Firing *)

Section Firing.
Variable L : Library.

Lemma vector_or_zero (v : Vector2) :
  (if vector_bool v then v else mkVector2 0 0) = v.
Proof.
  unfold vector_bool. destruct v as [x y]; simpl.
  destruct (Req_dec_T x 0) as [->|_]; [|reflexivity].
  destruct (Req_dec_T y 0) as [->|_]; reflexivity.
Qed.

(** The bullet that [shoot] builds from the ship's current state. *)
Lemma shoot_returns (self : nat) (current_time : Z) (m : Mem L) :
  returns (shoot L self current_time) m (fun b m' =>
    let o := p_obj (players m self) in
    let direction := angle_to_vector (angle o) in
    b = next_id m /\
    next_id m' = S (next_id m) /\
    players m' = upd (players m) self (set_last_shot_time (players m self) current_time) /\
    pos (b_obj (bullet_objs m' b)) =
      vadd (pos o) (vscale direction (IZR (r_w (rect o) / 2))) /\
    velocity (b_obj (bullet_objs m' b)) = vadd (vscale direction 10) (velocity o) /\
    (forall i, i <> next_id m -> bullet_objs m' i = bullet_objs m i) /\
    asteroid_objs m' = asteroid_objs m /\
    all_sprites m' = all_sprites m /\ asteroids m' = asteroids m /\
    bullets m' = bullets m).
Proof.
  unfold shoot. mstep. mstep. mstep. mstep. mem_simpl.
  unfold Bullet_new, returns, bind, m_get_ticks, new_bullet. mem_simpl.
  destruct (get_ticks L (world m)) as [t w]. mem_simpl.
  eexists; eexists; split; [reflexivity|]. mem_simpl.
  rewrite !upd_same. cbn [p_obj set_last_shot_time b_obj GameObject_init pos velocity].
  rewrite vector_or_zero.
  repeat split; try reflexivity.
  intros i Hi. now apply upd_other.
Qed.

(** C8: [can_shoot(now)] is true exactly when [now - last_shot_time] is at
    least the cooldown, which is 250 ms for a player built by the
    constructor; [shoot(now)] records [now] as the last shot time and returns
    a new bullet placed at the ship's position plus the heading direction
    times half the ship's rect width ([rect.width // 2]), with velocity the
    heading direction times 10 plus the ship's velocity. *)
Theorem can_shoot_shoot_spec (m : Mem L) (self : nat) (now : Z) :
  let p := players m self in
  let direction := angle_to_vector (angle (p_obj p)) in
  (can_shoot p now = true <-> (now - last_shot_time p >= shot_cooldown p)%Z) /\
  shot_cooldown (Player_init L (pos (p_obj p))) = 250%Z /\
  returns (shoot L self now) m (fun b m' =>
    last_shot_time (players m' self) = now /\
    shot_cooldown (players m' self) = shot_cooldown p /\
    p_obj (players m' self) = p_obj p /\
    pos (b_obj (bullet_objs m' b)) =
      vadd (pos (p_obj p)) (vscale direction (IZR (r_w (rect (p_obj p)) / 2))) /\
    velocity (b_obj (bullet_objs m' b)) =
      vadd (vscale direction 10) (velocity (p_obj p))).
Proof.
  cbv zeta. split; [|split].
  - unfold can_shoot. rewrite Z.geb_le. lia.
  - reflexivity.
  - eapply returns_conseq; [apply shoot_returns|].
    cbv zeta beta. intros b m' (_ & _ & Hp & Hpos & Hvel & _).
    rewrite Hp, upd_same. cbn [last_shot_time shot_cooldown p_obj set_last_shot_time].
    auto.
Qed.

End Firing.

(** ** Updating the sprites *)

Section Updating.
Variable L : Library.
Local Open Scope R_scope.

(** [GameObject.update] returns, keeps the velocity, and leaves the position
    on the screen. *)
Lemma GameObject_update_returns (o : GameObject) :
  exists o',
    GameObject_update L o = Val o' /\
    velocity o' = velocity o /\
    0 <= vx (pos o') <= 800 /\ 0 <= vy (pos o') <= 600.
Proof.
  unfold GameObject_update.
  match goal with
  | |- exists o', res_bind ?c _ = _ /\ _ =>
      assert (Hrot : exists o1, c = Val o1 /\ velocity o1 = velocity o /\ pos o1 = pos o)
  end.
  { destruct (Req_dec_T (rotation_speed o) 0) as [_|_].
    - exists o. auto.
    - destruct (float_rem_range (angle o + rotation_speed o) 360) as [a [Ha _]]; [lra|].
      rewrite Ha. cbn [res_bind]. eexists. split; [reflexivity|]. split; reflexivity. }
  destruct Hrot as (o1 & -> & Hv1 & Hp1). cbn [res_bind]. cbv zeta.
  destruct (wrap_position_returns (pos (set_pos o1 (vadd (pos o1) (velocity o1)))))
    as (q & Hq & Hx & Hy).
  rewrite Hq. cbn [res_bind]. eexists. split; [reflexivity|].
  cbn [velocity pos set_rect set_pos]. auto.
Qed.

Lemma player_static_refl (p : Player) : player_static p p.
Proof. repeat split. Qed.

Lemma update_rel_refl (m : Mem L) : update_rel m m.
Proof. repeat split; auto. Qed.

Lemma update_rel_trans (m1 m2 m3 : Mem L) :
  update_rel m1 m2 -> update_rel m2 m3 -> update_rel m1 m3.
Proof.
  intros (Hn & Ha & Hs & Hb & Hd & Hr & Hp) (Hn' & Ha' & Hs' & Hb' & Hd' & Hr' & Hp').
  unfold update_rel.
  split; [congruence|]. split; [congruence|].
  split; [intros j; now rewrite Hs'|].
  split; [auto|]. split; [auto|]. split; [auto|].
  intros j. destruct (Hp j) as (h1 & h2 & h3 & h4), (Hp' j) as (h1' & h2' & h3' & h4').
  unfold player_static. repeat split; congruence.
Qed.

(** The [update] of one sprite, whatever its class. *)
Lemma sprite_update_returns (r : Ref) (m : Mem L) :
  returns (sprite_update L r) m (fun _ m' => update_rel m m').
Proof.
  destruct r as [i|i|i]; simpl.
  - unfold Player_update. mstep. mstep.
    destruct (GameObject_update_returns (p_obj (players m i))) as (o' & Ho & Hv & _).
    apply returns_bind. eapply returns_lift; [exact Ho|]. mstep.
    unfold update_rel. mem_simpl. repeat split; auto.
    all: unfold upd; destruct (Nat.eqb i0 i) eqn:E; try reflexivity;
      apply Nat.eqb_eq in E; subst; cbn [thrust max_speed shot_cooldown p_obj set_p_obj];
      auto.
  - unfold Asteroid_update. mstep. mstep.
    destruct (GameObject_update_returns (a_obj (asteroid_objs m i))) as (o' & Ho & _).
    apply returns_bind. eapply returns_lift; [exact Ho|]. mstep.
    unfold update_rel. mem_simpl. repeat split; auto.
    intros j. unfold upd. destruct (Nat.eqb j i) eqn:E; [|reflexivity].
    apply Nat.eqb_eq in E. now subst.
  - unfold Bullet_update. mstep. mstep.
    destruct (GameObject_update_returns (b_obj (bullet_objs m i))) as (o' & Ho & _).
    apply returns_bind. eapply returns_lift; [exact Ho|]. mstep. mstep.
    apply returns_bind.
    unfold returns at 1, m_get_ticks. mem_simpl.
    destruct (get_ticks L (world m)) as [t w].
    eexists; eexists; split; [reflexivity|]. cbv beta.
    mstep. mstep. mem_simpl.
    match goal with |- context [if ?c then _ else _] => destruct c end.
    + unfold kill_bullet. mstep. unfold update_rel. mem_simpl.
      repeat split; auto.
      * intros b Hb. now apply (In_group_remove Nat.eqb_eq) in Hb.
      * apply NoDup_group_remove.
      * intros r Hr. now apply (In_group_remove ref_eqb_eq) in Hr.
    + mstep. unfold update_rel. mem_simpl. repeat split; auto.
Qed.

(** [all_sprites.update()]. *)
Lemma all_sprites_update_returns (m : Mem L) :
  returns (all_sprites_update L) m (fun _ m' => update_rel m m').
Proof.
  unfold all_sprites_update. mstep. mstep.
  apply (returns_for_each L (fun m' => update_rel m m')).
  - intros r m1 _ H1.
    eapply returns_conseq; [apply sprite_update_returns|].
    intros u m2 H2. eapply update_rel_trans; eassumption.
  - apply update_rel_refl.
Qed.

(** [player.handle_input] on the stored player: only that object changes. *)
Lemma player_handle_input_returns (p : nat) (keys : Keys) (dt : R) (m : Mem L) :
  VECTOR_EPSILON <= max_speed (players m p) ->
  returns (player_handle_input L p keys dt) m (fun _ m' =>
    exists self',
      handle_input L (players m p) keys dt = Val self' /\
      m' = set_players m (upd (players m) p self')).
Proof.
  intros Hms. unfold player_handle_input. mstep. mstep.
  destruct (handle_input_returns L (players m p) keys dt Hms) as (p' & Hrun & _).
  apply returns_bind. eapply returns_lift; [exact Hrun|]. mstep.
  exists p'. split; [exact Hrun|reflexivity].
Qed.

End Updating.

(** ** The bullet-asteroid collision pass *)

Section Collisions.
Variable L : Library.

Lemma fold_m_app {A B : Type} (xs ys : list A) (body : B -> A -> M L B) :
  forall (b : B) (m : Mem L),
    fold_m L (xs ++ ys) body b m
    = bind (fold_m L xs body b) (fun b' => fold_m L ys body b') m.
Proof.
  induction xs as [|x xs IH]; intros b m; simpl.
  - reflexivity.
  - unfold bind. destruct (body b x m) as [[b1 m1]| |]; try reflexivity.
    rewrite IH. reflexivity.
Qed.

(** The two nested loops over the dictionary visit the hit asteroids in
    the order of the flattened lists. *)
Lemma resolve_hits_flat (hits : list (nat * list nat)) :
  forall (sc : Z) (m : Mem L),
    resolve_hits L hits sc m
    = fold_m L (flat_map snd hits) (hit_asteroid L) sc m.
Proof.
  unfold resolve_hits.
  induction hits as [|h hits IH]; intros sc m; simpl.
  - reflexivity.
  - rewrite fold_m_app. unfold bind.
    destruct (fold_m L (snd h) (hit_asteroid L) sc m) as [[sc1 m1]| |];
      try reflexivity.
    apply IH.
Qed.

Lemma hits_of_pairs (m : Mem L) : flat_map snd (hits_of m) = hit_pairs m.
Proof.
  unfold hits_of, hit_pairs.
  induction (bullets m) as [|b bs IH]; simpl; [reflexivity|].
  rewrite flat_map_app, IH. f_equal.
  destruct (overlapping m b); simpl; [reflexivity|]. now rewrite app_nil_r.
Qed.

(** [groupcollide]: it returns the dictionary [hits_of]; it changes no object
    and not the asteroid group; the bullets that hit something leave their
    group and [all_sprites]. *)
Lemma groupcollide_returns (m : Mem L) :
  returns (groupcollide_bullets_asteroids L) m (fun hits m' =>
    hits = hits_of m /\
    players m' = players m /\ asteroid_objs m' = asteroid_objs m /\
    bullet_objs m' = bullet_objs m /\ next_id m' = next_id m /\
    asteroids m' = asteroids m /\ world m' = world m /\
    (forall b, In b (bullets m') -> In b (bullets m) /\ overlapping m b = []) /\
    (NoDup (bullets m) -> NoDup (bullets m')) /\
    (forall r, In r (all_sprites m') -> In r (all_sprites m))).
Proof.
  unfold groupcollide_bullets_asteroids. mstep. mstep.
  set (f := fun b => match overlapping m b with
                     | [] => []
                     | _ :: _ => [(b, overlapping m b)]
                     end).
  pose (I := fun (done : list nat) (crashed : list (nat * list nat)) (m' : Mem L) =>
    crashed = flat_map f done /\
    players m' = players m /\ asteroid_objs m' = asteroid_objs m /\
    bullet_objs m' = bullet_objs m /\ next_id m' = next_id m /\
    asteroids m' = asteroids m /\ world m' = world m /\
    (forall b, In b (bullets m') ->
       In b (bullets m) /\ (In b done -> overlapping m b = [])) /\
    (NoDup (bullets m) -> NoDup (bullets m')) /\
    (forall r, In r (all_sprites m') -> In r (all_sprites m))).
  eapply returns_conseq.
  - apply (returns_fold_m L I) with (done := []).
    + intros pre b crashed m1 _ (Hc & Hp & Ha & Hb & Hn & Hg & Hw & Hbs & Hnd & Hal).
      mstep. mstep. unfold spritecollide_asteroids. mstep. mstep.
      assert (Ho : filter (fun a => colliderect (rect (b_obj (bullet_objs m1 b)))
                                     (rect (a_obj (asteroid_objs m1 a))))
                          (asteroids m1) = overlapping m b).
      { unfold overlapping, overlaps. now rewrite Hb, Ha, Hg. }
      rewrite Ho.
      destruct (overlapping m b) as [|a0 l] eqn:Eo.
      * mstep. unfold I. rewrite flat_map_app. simpl. unfold f at 2. rewrite Eo.
        simpl. rewrite app_nil_r.
        repeat (split; [assumption|]). split; [|split; assumption].
        intros b' Hb'. destruct (Hbs b' Hb') as [H1 H2]. split; [exact H1|].
        rewrite in_app_iff. intros [H|[<-|[]]]; auto.
      * unfold kill_bullet. mstep. mstep. mstep. unfold I. mem_simpl.
        rewrite flat_map_app. simpl. unfold f at 2. rewrite Eo. simpl.
        split; [now rewrite Hc|]. do 6 (split; [assumption|]).
        split; [|split].
        -- intros b' Hb'. apply (In_group_remove Nat.eqb_eq) in Hb' as [Hb' Hne].
           destruct (Hbs b' Hb') as [H1 H2]. split; [exact H1|].
           rewrite in_app_iff. intros [H|[<-|[]]]; [auto|congruence].
        -- intros H. apply NoDup_group_remove. auto.
        -- intros r Hr. apply (In_group_remove ref_eqb_eq) in Hr as [Hr _]. auto.
    + unfold I. simpl. repeat split; auto. intros [].
  - cbv beta. simpl app. unfold I.
    intros hits m' (Hc & Hp & Ha & Hb & Hn & Hg & Hw & Hbs & Hnd & Hal).
    repeat (split; [assumption|]). split; [|split; assumption].
    intros b Hb'. destruct (Hbs b Hb') as [H1 H2]. split; [exact H1|].
    apply H2. exact H1.
Qed.

Lemma sum_sizes_app (m : Mem L) (l1 l2 : list nat) :
  sum_sizes m (l1 ++ l2) = (sum_sizes m l1 + sum_sizes m l2)%Z.
Proof.
  unfold sum_sizes, sumZ. induction l1 as [|a l1 IH]; simpl; [reflexivity|].
  rewrite IH. lia.
Qed.

Lemma group_remove_filter_done (x : nat) (done l : list nat) :
  group_remove Nat.eqb x (filter (fun y => negb (existsb (Nat.eqb y) done)) l)
  = filter (fun y => negb (existsb (Nat.eqb y) (done ++ [x]))) l.
Proof.
  unfold group_remove. induction l as [|y l IH]; simpl; [reflexivity|].
  rewrite existsb_app. simpl. rewrite orb_false_r.
  destruct (existsb (Nat.eqb y) done); simpl; [exact IH|].
  rewrite (Nat.eqb_sym x y). destruct (Nat.eqb y x); simpl; [exact IH|].
  f_equal. exact IH.
Qed.

(** The loop over the hit asteroids, from a memory that satisfies the
    invariant of the asteroid group: the score grows by ten times the size
    of each entry of the list, an asteroid of the list leaves the group, and
    for each entry of size above 1 two fragments one tier down join it. *)
Lemma hit_loop_returns (pairs : list nat) (sc0 : Z) (m : Mem L) :
  (forall a, In a pairs -> In a (asteroids m)) ->
  (forall a, In a (asteroids m) -> a < next_id m /\ Asteroid_inv (asteroid_objs m a)) ->
  (forall r, In r (all_sprites m) -> ref_id r < next_id m) ->
  returns (fold_m L pairs (hit_asteroid L) sc0) m (fun sc m' =>
    sc = (sc0 + 10 * sum_sizes m pairs)%Z /\
    players m' = players m /\ bullet_objs m' = bullet_objs m /\
    bullets m' = bullets m /\
    (forall i, i < next_id m -> asteroid_objs m' i = asteroid_objs m i) /\
    next_id m <= next_id m' /\
    (forall r, In r (all_sprites m') -> ref_id r < next_id m') /\
    exists frs,
      asteroids m' =
        filter (fun x => negb (existsb (Nat.eqb x) pairs)) (asteroids m) ++ frs /\
      NoDup frs /\
      (forall f, In f frs ->
         next_id m <= f < next_id m' /\ Asteroid_inv (asteroid_objs m' f)) /\
      map (fun f => size (asteroid_objs m' f)) frs = fragment_sizes m pairs).
Proof.
  intros Hpairs Hast Hall.
  pose (I := fun (done : list nat) (sc : Z) (m' : Mem L) =>
    sc = (sc0 + 10 * sum_sizes m done)%Z /\
    players m' = players m /\ bullet_objs m' = bullet_objs m /\
    bullets m' = bullets m /\
    (forall i, i < next_id m -> asteroid_objs m' i = asteroid_objs m i) /\
    next_id m <= next_id m' /\
    (forall r, In r (all_sprites m') -> ref_id r < next_id m') /\
    exists frs,
      asteroids m' =
        filter (fun x => negb (existsb (Nat.eqb x) done)) (asteroids m) ++ frs /\
      NoDup frs /\
      (forall f, In f frs ->
         next_id m <= f < next_id m' /\ Asteroid_inv (asteroid_objs m' f)) /\
      map (fun f => size (asteroid_objs m' f)) frs = fragment_sizes m done).
  change (returns (fold_m L pairs (hit_asteroid L) sc0) m
            (fun sc m' => I ([] ++ pairs) sc m')).
  apply (returns_fold_m L I).
  - intros pre x sc m1 [post Hpost]
           (Hsc & Hpl & Hbo & Hbu & Hfr & Hn & Hal1 & frs & Has & Hnd & Hfrs & Hsz).
    simpl in Hpost.
    assert (Hx : In x (asteroids m)).
    { apply Hpairs. rewrite Hpost. apply in_elt. }
    destruct (Hast x Hx) as [Hxn Hxi].
    assert (Hast1 : forall y, In y (asteroids m1) -> y < next_id m1).
    { intros y Hy. rewrite Has, in_app_iff, filter_In in Hy.
      destruct Hy as [[Hy _]|Hy].
      - apply Hast in Hy. lia.
      - apply Hfrs in Hy. lia. }
    eapply returns_conseq.
    + apply hit_asteroid_returns; [lia| |exact Hast1|exact Hal1].
      rewrite (Hfr x Hxn). exact Hxi.
    + cbv beta. rewrite (Hfr x Hxn).
      intros sc' m2 (Hsc' & Hpl' & Hbo' & Hbu' & Hfr' & frs' & Hfrs' & Hn' & Has' & Hal' & HF').
      assert (Hfresh' : forall f, In f frs' -> next_id m1 <= f < next_id m2).
      { intros f Hf. rewrite Hfrs' in Hf. rewrite Hn', Hfrs'.
        destruct (size (asteroid_objs m x) <=? 1)%Z; simpl in *; [contradiction|].
        lia. }
      assert (Hnd' : NoDup frs').
      { rewrite Hfrs'. destruct (size (asteroid_objs m x) <=? 1)%Z; [constructor|].
        constructor; [simpl; lia|]. constructor; [simpl; tauto|constructor]. }
      unfold I.
      split.
      { assert (Hone : sum_sizes m [x] = size (asteroid_objs m x))
          by (unfold sum_sizes, sumZ; simpl; lia).
        rewrite Hsc', Hsc, sum_sizes_app, Hone. lia. }
      split; [congruence|]. split; [congruence|]. split; [congruence|].
      split. { intros i Hi. rewrite Hfr' by lia. now apply Hfr. }
      split; [lia|].
      split.
      { intros r Hr. rewrite Hal', in_app_iff, in_map_iff in Hr.
        destruct Hr as [Hr|(f & <- & Hf)].
        - apply (In_group_remove ref_eqb_eq) in Hr as [Hr _].
          apply Hal1 in Hr. lia.
        - simpl. apply Hfresh' in Hf. lia. }
      exists (frs ++ frs').
      split.
      { rewrite Has', Has. unfold group_remove at 1. rewrite filter_app.
        fold (group_remove Nat.eqb x
                (filter (fun y => negb (existsb (Nat.eqb y) pre)) (asteroids m))).
        fold (group_remove Nat.eqb x frs).
        rewrite group_remove_filter_done.
        rewrite (group_remove_absent Nat.eqb_eq x frs).
        - now rewrite app_assoc.
        - intros Hin. apply Hfrs in Hin. lia. }
      split.
      { apply NoDup_app; [exact Hnd|exact Hnd'|].
        intros f Hf Hf'. apply Hfrs in Hf. apply Hfresh' in Hf'. lia. }
      split.
      { intros f Hf. rewrite in_app_iff in Hf. destruct Hf as [Hf|Hf].
        - destruct (Hfrs f Hf) as [Hb Hi]. split; [lia|].
          rewrite Hfr' by lia. exact Hi.
        - split; [apply Hfresh' in Hf; lia|].
          rewrite Forall_forall in HF'. destruct (HF' f Hf) as [Hs _].
          unfold Asteroid_inv in *. rewrite Hs.
          rewrite Hfrs' in Hf.
          destruct (size (asteroid_objs m x) <=? 1)%Z eqn:E; [contradiction|].
          apply Z.leb_gt in E. lia. }
      rewrite map_app. unfold fragment_sizes. rewrite flat_map_app.
      fold (fragment_sizes m pre). rewrite <- Hsz. f_equal.
      * apply map_ext_in. intros f Hf. rewrite Hfr'; [reflexivity|].
        apply Hfrs in Hf. lia.
      * simpl. rewrite app_nil_r. rewrite Forall_forall in HF'.
        rewrite Hfrs' in *.
        destruct (size (asteroid_objs m x) <=? 1)%Z; [reflexivity|].
        simpl. rewrite (proj1 (HF' (next_id m1) (or_introl eq_refl))).
        rewrite (proj1 (HF' (S (next_id m1)) (or_intror (or_introl eq_refl)))).
        reflexivity.
  - unfold I. simpl.
    split; [unfold sum_sizes, sumZ; simpl; lia|].
    do 3 (split; [reflexivity|]). split; [auto|]. split; [lia|].
    split; [exact Hall|].
    exists []. rewrite app_nil_r. split.
    + symmetry. apply forallb_filter_id. apply forallb_forall. reflexivity.
    + split; [constructor|]. split; [intros f []|]. reflexivity.
Qed.

Lemma hit_pairs_in_group (m : Mem L) (a : nat) :
  In a (hit_pairs m) -> In a (asteroids m).
Proof.
  unfold hit_pairs. rewrite in_flat_map. intros (b & _ & Ha).
  unfold overlapping in Ha. now apply filter_In in Ha.
Qed.

(** The whole collision pass of a frame, from a memory that satisfies the
    invariant: it returns; the score grows by ten times the size of the hit
    asteroid for every overlapping (bullet, asteroid) pair; the hit
    asteroids leave the group and the fragments join it; the invariant
    holds again. *)
Lemma bullet_collisions_returns (sc : Z) (m : Mem L) :
  Mem_inv m ->
  returns (bullet_collisions L sc) m (fun sc' m' =>
    sc' = (sc + 10 * sum_sizes m (hit_pairs m))%Z /\
    Mem_inv m' /\
    players m' = players m /\ bullet_objs m' = bullet_objs m /\
    (forall i, i < next_id m -> asteroid_objs m' i = asteroid_objs m i) /\
    next_id m <= next_id m' /\
    (forall b, In b (bullets m') -> In b (bullets m) /\ overlapping m b = []) /\
    exists frs,
      asteroids m' =
        filter (fun x => negb (existsb (Nat.eqb x) (hit_pairs m))) (asteroids m) ++ frs /\
      NoDup frs /\
      (forall f, In f frs -> next_id m <= f < next_id m') /\
      map (fun f => size (asteroid_objs m' f)) frs = fragment_sizes m (hit_pairs m)).
Proof.
  intros (Hnda & Hndb & Hast & Hbul & Hall). unfold bullet_collisions.
  apply returns_bind.
  eapply returns_conseq; [apply groupcollide_returns|].
  intros hits m1 (-> & Hp1 & Ha1 & Hb1 & Hn1 & Hg1 & Hw1 & Hbs1 & Hnd1 & Hal1).
  cbv beta.
  assert (Hloop := hit_loop_returns (hit_pairs m) sc m1).
  destruct Hloop as (sc' & m' & Hrun & Hpost).
  { intros a Ha. rewrite Hg1. now apply hit_pairs_in_group. }
  { intros a Ha. rewrite Hg1 in Ha. rewrite Hn1, Ha1. now apply Hast. }
  { intros r Hr. rewrite Hn1. apply Hall, Hal1, Hr. }
  exists sc', m'. split.
  { rewrite resolve_hits_flat, hits_of_pairs. exact Hrun. }
  destruct Hpost as (Hsc & Hpl & Hbo & Hbu & Hfr & Hn & Hal & frs & Has & Hndf & Hfrs & Hsz).
  assert (Hss : forall l, sum_sizes m1 l = sum_sizes m l).
  { intros l. unfold sum_sizes. now rewrite Ha1. }
  assert (Hfs : forall l, fragment_sizes m1 l = fragment_sizes m l).
  { intros l. unfold fragment_sizes. now rewrite Ha1. }
  rewrite Hss in Hsc. rewrite Hfs in Hsz. rewrite Hg1 in Has. rewrite Hn1 in *.
  split; [exact Hsc|].
  split.
  { unfold Mem_inv. split; [|split; [|split; [|split]]].
    - rewrite Has. apply NoDup_app.
      + now apply NoDup_filter.
      + exact Hndf.
      + intros a Ha Hf. apply filter_In in Ha as [Ha _].
        apply Hast in Ha. apply Hfrs in Hf. lia.
    - rewrite Hbu. auto.
    - intros a Ha. rewrite Has, in_app_iff in Ha. destruct Ha as [Ha|Ha].
      + apply filter_In in Ha as [Ha _]. destruct (Hast a Ha) as [Hlt Hi].
        split; [lia|]. rewrite Hfr by exact Hlt. now rewrite Ha1.
      + destruct (Hfrs a Ha) as [Hb Hi]. split; [lia|exact Hi].
    - intros b Hb. rewrite Hbu in Hb. apply Hbs1 in Hb as [Hb _].
      apply Hbul in Hb. lia.
    - exact Hal. }
  split; [congruence|]. split; [congruence|].
  split. { intros i Hi. rewrite Hfr by exact Hi. now rewrite Ha1. }
  split; [exact Hn|].
  split. { intros b Hb. rewrite Hbu in Hb. now apply Hbs1. }
  exists frs. split; [exact Has|]. split; [exact Hndf|].
  split; [|exact Hsz]. intros f Hf. now apply Hfrs.
Qed.

End Collisions.

(** ** Starting a new game *)

Section NewGame.
Variable L : Library.
Local Open Scope R_scope.

Lemma centre_is_half_screen :
  mkVector2 (IZR SCREEN_WIDTH / 2) (IZR SCREEN_HEIGHT / 2) = screen_centre.
Proof. unfold screen_centre, SCREEN_WIDTH, SCREEN_HEIGHT. f_equal; lra. Qed.

(** The rejection loop only reads the random generator, and what it returns
    is farther than [min_dist] from the player. *)
Lemma spawn_position_ensures (fuel : nat) (p : nat) (d : R) :
  forall m : Mem L,
    ensures (spawn_position L fuel p d) m (fun ps m' =>
      distance_to ps (pos (p_obj (players m p))) > d /\
      m' = set_world m (world m')).
Proof.
  induction fuel as [|fuel IH]; intros m ps m' E; simpl in E.
  - discriminate.
  - unfold bind, m_randrange, gets in E. mem_simpl.
    destruct (randrange L SCREEN_WIDTH (world m)) as [x w1]. mem_simpl.
    destruct (randrange L SCREEN_HEIGHT w1) as [y w2]. mem_simpl.
    match type of E with
    | (if ?c then _ else _) _ = _ => destruct c as [Hd|Hd]
    end.
    + inversion E; subst. split; [exact Hd|reflexivity].
    + apply IH in E. mem_simpl. destruct E as [E1 E2]. split; [exact E1|].
      rewrite E2 at 1. reflexivity.
Qed.

(** The loop that spawns [n] asteroids: it appends [n] new asteroids of
    size 3, each farther than 200 from the player, to both groups and
    changes nothing else. *)
Lemma spawn_asteroids_ensures (fuel n p : nat) :
  forall m : Mem L,
    (forall a, In a (asteroids m) -> (a < next_id m)%nat) ->
    (forall r, In r (all_sprites m) -> (ref_id r < next_id m)%nat) ->
    ensures (spawn_asteroids L fuel n p) m (fun _ m' =>
      players m' = players m /\ bullets m' = bullets m /\
      bullet_objs m' = bullet_objs m /\
      next_id m' = (next_id m + n)%nat /\
      (forall i, (i < next_id m)%nat -> asteroid_objs m' i = asteroid_objs m i) /\
      exists new,
        asteroids m' = asteroids m ++ new /\
        all_sprites m' = all_sprites m ++ map RAsteroid new /\
        length new = n /\ NoDup new /\
        forall a, In a new ->
          (next_id m <= a < next_id m')%nat /\
          size (asteroid_objs m' a) = 3%Z /\
          distance_to (pos (a_obj (asteroid_objs m' a))) (pos (p_obj (players m p))) > 200).
Proof.
  induction n as [|n IH]; intros m Hast Hall; simpl.
  - apply ensures_ret. do 3 (split; [reflexivity|]).
    split; [lia|]. split; [auto|].
    exists []. rewrite !app_nil_r. do 3 (split; [reflexivity|]).
    split; [constructor|]. intros a [].
  - cbv zeta. apply ensures_bind.
    eapply ensures_conseq; [apply spawn_position_ensures|].
    intros ps m1 [Hfar Hm1]. cbv beta.
    assert (Hg1 : players m1 = players m /\ asteroids m1 = asteroids m /\
                  all_sprites m1 = all_sprites m /\ bullets m1 = bullets m /\
                  bullet_objs m1 = bullet_objs m /\ next_id m1 = next_id m /\
                  asteroid_objs m1 = asteroid_objs m).
    { rewrite Hm1. repeat split. }
    destruct Hg1 as (Hp1 & Ha1 & Hs1 & Hb1 & Hbo1 & Hn1 & Hao1).
    apply ensures_bind. apply returns_ensures.
    eapply returns_conseq; [apply Asteroid_new_returns; lia|].
    intros f m2 (Hf & Hn2 & Hsz2 & Hpos2 & Hfr2 & Hp2 & Hbo2 & Hs2 & Ha2 & Hb2).
    cbv beta. unfold all_sprites_add, asteroids_add.
    apply ensures_bind, returns_ensures, returns_modify.
    apply ensures_bind, returns_ensures, returns_modify.
    match goal with |- ensures _ ?m3 _ => set (m3' := m3) end.
    assert (Hfa : ~ In f (asteroids m2)).
    { rewrite Ha2, Ha1. intros H. apply Hast in H. lia. }
    assert (Hfs : ~ In (RAsteroid f) (all_sprites m2)).
    { rewrite Hs2, Hs1. intros H. apply Hall in H. simpl in H. lia. }
    assert (Hm3 : asteroids m3' = asteroids m ++ [f] /\
                  all_sprites m3' = all_sprites m ++ [RAsteroid f] /\
                  next_id m3' = S (next_id m) /\ players m3' = players m /\
                  bullets m3' = bullets m /\ bullet_objs m3' = bullet_objs m /\
                  asteroid_objs m3' = asteroid_objs m2).
    { subst m3'. mem_simpl.
      rewrite (group_add_fresh Nat.eqb_eq _ _ Hfa).
      rewrite (group_add_fresh ref_eqb_eq _ _ Hfs).
      repeat split; congruence. }
    destruct Hm3 as (Ha3 & Hs3 & Hn3 & Hp3 & Hb3 & Hbo3 & Hao3).
    eapply ensures_conseq.
    + apply IH.
      * intros a Ha. rewrite Ha3, in_app_iff in Ha. rewrite Hn3.
        destruct Ha as [Ha|[<-|[]]]; [apply Hast in Ha|]; lia.
      * intros r Hr. rewrite Hs3, in_app_iff in Hr. rewrite Hn3.
        destruct Hr as [Hr|[<-|[]]]; [apply Hall in Hr|simpl]; lia.
    + cbv beta.
      intros u m4 (Hp4 & Hb4 & Hbo4 & Hn4 & Hfr4 & new & Ha4 & Hs4 & Hlen & Hnd & Hnew).
      split; [congruence|]. split; [congruence|]. split; [congruence|].
      split; [lia|].
      split.
      { intros i Hi. rewrite Hfr4 by lia. rewrite Hao3, Hfr2 by lia. now rewrite Hao1. }
      exists (f :: new).
      split. { rewrite Ha4, Ha3, <- app_assoc. reflexivity. }
      split. { rewrite Hs4, Hs3, <- app_assoc. reflexivity. }
      split; [simpl; lia|].
      split.
      { constructor; [|exact Hnd]. intros H. apply Hnew in H. lia. }
      intros a [<-|Ha].
      * split; [lia|]. rewrite Hfr4 by lia. rewrite Hao3.
        split; [exact Hsz2|]. rewrite Hpos2. exact Hfar.
      * destruct (Hnew a Ha) as (Hb & Hs & Hd). split; [lia|].
        split; [exact Hs|]. rewrite <- Hp3. exact Hd.
Qed.

(** [reset_game], whenever it returns: the result is the reference of a new
    player and the score 0, and the memory holds a fresh session that
    satisfies the invariant.  No assumption is made on the memory before. *)
Lemma reset_game_ensures (fuel : nat) (m : Mem L) (st : GameState) (rn : bool) :
  ensures (reset_game L fuel) m (fun ps m' =>
    fst ps = next_id m /\
    fresh_session (mkGame (fst ps) (snd ps) st rn) m' /\
    Mem_inv m' /\
    players m' (fst ps) = Player_init L screen_centre /\
    (forall i, i <> next_id m -> players m' i = players m i)).
Proof.
  unfold reset_game.
  do 3 (apply ensures_bind, returns_ensures, returns_modify).
  apply ensures_bind, returns_ensures. unfold new_player, returns. mem_simpl.
  eexists; eexists; split; [reflexivity|]. cbv beta.
  unfold all_sprites_add.
  apply ensures_bind, returns_ensures, returns_modify. mem_simpl.
  apply ensures_bind.
  eapply ensures_conseq.
  - apply spawn_asteroids_ensures; mem_simpl.
    + intros a [].
    + intros r [<-|[]]. simpl. lia.
  - cbv beta. mem_simpl.
    intros u m' (Hp & Hb & Hbo & Hn & Hfr & new & Ha & Hs & Hlen & Hnd & Hnew).
    apply ensures_ret. cbn [fst snd].
    simpl app in Ha, Hs. rewrite centre_is_half_screen in *.
    assert (Hpl : players m' (next_id m) = Player_init L screen_centre).
    { rewrite Hp. apply upd_same. }
    split; [reflexivity|]. split; [|split; [|split; [exact Hpl|]]].
    + unfold fresh_session. cbn [score player].
      split; [reflexivity|]. split; [now rewrite Hs, Ha|].
      rewrite Hpl. split; [reflexivity|]. split; [reflexivity|].
      split; [now rewrite Ha|]. split; [now rewrite Ha|].
      split; [|exact Hb].
      intros a Hin. rewrite Ha in Hin. destruct (Hnew a Hin) as (_ & Hsz & Hd).
      split; [exact Hsz|]. rewrite upd_same in Hd. exact Hd.
    + unfold Mem_inv. rewrite Ha, Hb, Hs.
      split; [exact Hnd|]. split; [constructor|].
      split; [|split].
      * intros a Hin. destruct (Hnew a Hin) as (Hbd & Hsz & _).
        split; [lia|]. unfold Asteroid_inv. rewrite Hsz. lia.
      * intros b [].
      * intros r [<-|Hr]; [simpl; lia|].
        apply in_map_iff in Hr as (a & <- & Hin).
        simpl. apply Hnew in Hin. lia.
    + intros i Hi. rewrite Hp. now apply upd_other.
Qed.

(** When the random generator is fair to the rejection loop, the spawning
    loop returns. *)
Lemma spawn_asteroids_returns (fuel n p : nat) :
  spawn_fair L fuel p ->
  forall m : Mem L,
    pos (p_obj (players m p)) = screen_centre ->
    returns (spawn_asteroids L fuel n p) m (fun _ _ => True).
Proof.
  intros Hfair. induction n as [|n IH]; intros m Hc; simpl.
  - now apply returns_ret.
  - cbv zeta. apply returns_bind.
    eapply returns_conseq.
    + apply ensures_returns; [apply Hfair; exact Hc|apply spawn_position_ensures].
    + cbv beta. intros ps m1 (_ & _ & Hm1).
      apply returns_bind.
      eapply returns_conseq; [apply Asteroid_new_returns; lia|].
      intros f m2 (_ & _ & _ & _ & _ & Hp2 & _). cbv beta.
      unfold all_sprites_add, asteroids_add. mstep. mstep. mstep. mstep.
      apply IH. mem_simpl. rewrite Hp2, Hm1. exact Hc.
Qed.

Lemma reset_game_returns (fuel : nat) (m : Mem L) :
  spawn_fair L fuel (next_id m) ->
  returns (reset_game L fuel) m (fun _ _ => True).
Proof.
  intros Hfair. unfold reset_game. do 6 mstep. apply returns_bind.
  unfold new_player, returns at 1. mem_simpl.
  eexists; eexists; split; [reflexivity|]. cbv beta.
  unfold all_sprites_add. mstep. mstep. mstep.
  eapply returns_conseq.
  - apply spawn_asteroids_returns; [exact Hfair|].
    mem_simpl. rewrite upd_same, centre_is_half_screen. reflexivity.
  - cbv beta. intros u m' _. now apply returns_ret.
Qed.

End NewGame.

(** ** Frames *)

Section Frames.
Variable L : Library.

Lemma Mem_inv_update_rel (m m' : Mem L) :
  Mem_inv m -> update_rel m m' -> Mem_inv m'.
Proof.
  intros (Hnda & Hndb & Hast & Hbul & Hall) (Hn & Ha & Hs & Hb & Hd & Hr & _).
  unfold Mem_inv. rewrite Ha, Hn.
  split; [exact Hnda|]. split; [auto|]. split; [|split].
  - intros a Hin. destruct (Hast a Hin) as [Hlt Hi]. split; [exact Hlt|].
    unfold Asteroid_inv in *. now rewrite Hs.
  - intros b Hin. auto.
  - intros r Hin. auto.
Qed.

Lemma Mem_inv_set_world (m : Mem L) (w : ext L) : Mem_inv m -> Mem_inv (set_world m w).
Proof. intros H. exact H. Qed.

Lemma Mem_inv_set_players (m : Mem L) (h : nat -> Player) :
  Mem_inv m -> Mem_inv (set_players m h).
Proof. intros H. exact H. Qed.

Lemma sum_sizes_nonneg (m : Mem L) (l : list nat) :
  (forall a, In a l -> (0 <= size (asteroid_objs m a))%Z) ->
  (0 <= sum_sizes m l)%Z.
Proof.
  unfold sum_sizes, sumZ. induction l as [|a l IH]; intros H; simpl; [lia|].
  assert (0 <= size (asteroid_objs m a))%Z by (apply H; now left).
  assert (0 <= fold_right Z.add 0 (map (fun a0 => size (asteroid_objs m a0)) l))%Z.
  { apply IH. intros b Hb. apply H. now right. }
  lia.
Qed.

Lemma vlength_zero : vlength (mkVector2 0 0) = 0%R.
Proof.
  unfold vlength. simpl. replace (0 * 0 + 0 * 0)%R with 0%R by ring. apply sqrt_0.
Qed.

Lemma Player_init_inv (v : Vector2) :
  Player_inv (Player_init L v) /\
  velocity (p_obj (Player_init L v)) = mkVector2 0 0 /\
  pos (p_obj (Player_init L v)) = v.
Proof. repeat split. Qed.

Lemma m_get_ticks_returns (m : Mem L) :
  returns (m_get_ticks L) m (fun _ m' => m' = set_world m (world m')).
Proof.
  unfold returns, m_get_ticks. destruct (get_ticks L (world m)) as [t w].
  eexists; eexists; split; reflexivity.
Qed.

(** The three statements that fire a bullet: a new bullet joins [bullets]
    and [all_sprites]; of the player only the time of the last shot
    changes; the invariant is kept. *)
Lemma fire_returns (g : Game) (now : Z) (m : Mem L) :
  frame_inv g m ->
  returns (bind (shoot L (player g) now) (fun bullet =>
             bind (all_sprites_add L (RBullet bullet)) (fun _ =>
               bind (bullets_add L bullet) (fun _ => ret g)))) m
    (fun g' m' =>
       g' = g /\ frame_inv g m' /\
       bullets m' = bullets m ++ [next_id m] /\
       asteroids m' = asteroids m /\
       players m' = upd (players m) (player g)
                        (set_last_shot_time (players m (player g)) now)).
Proof.
  intros ((Hnda & Hndb & Hast & Hbul & Hall) & Hpi & Hv & Hsc).
  apply returns_bind.
  eapply returns_conseq; [apply shoot_returns|].
  cbv beta zeta.
  intros b m1 (-> & Hn1 & Hp1 & _ & _ & Hbo1 & Hao1 & Hs1 & Ha1 & Hb1).
  unfold all_sprites_add, bullets_add. do 5 mstep. mem_simpl.
  assert (Hfb : ~ In (next_id m) (bullets m1)).
  { rewrite Hb1. intros H. apply Hbul in H. lia. }
  assert (Hfs : ~ In (RBullet (next_id m)) (all_sprites m1)).
  { rewrite Hs1. intros H. apply Hall in H. simpl in H. lia. }
  rewrite (group_add_fresh Nat.eqb_eq _ _ Hfb).
  rewrite (group_add_fresh ref_eqb_eq _ _ Hfs).
  split; [reflexivity|]. split; [|split; [now rewrite Hb1|split; assumption]].
  unfold frame_inv, Mem_inv. mem_simpl. rewrite Ha1, Hb1, Hs1, Hn1, Hao1, Hp1.
  rewrite upd_same.
  split; [|split; [exact Hpi|split; [exact Hv|exact Hsc]]].
  split; [exact Hnda|]. split.
  { apply NoDup_app; [exact Hndb|repeat constructor; intros []|].
    intros b Hb [<-|[]]. apply Hbul in Hb. lia. }
  split; [|split].
  - intros a Hin. destruct (Hast a Hin). split; [lia|assumption].
  - intros b Hin. apply in_app_iff in Hin as [Hin|[<-|[]]]; [apply Hbul in Hin|]; lia.
  - intros r Hin. apply in_app_iff in Hin as [Hin|[<-|[]]];
      [apply Hall in Hin|simpl]; lia.
Qed.

(** An event outside GameOver: the handler returns; the state moves as
    the design lists; score, player and asteroids stay; and the memory
    stays as it is unless the event is the fire key in Playing. *)
Lemma handle_event_live (fuel : nat) (g : Game) (e : Event) (m : Mem L) :
  frame_inv g m ->
  state g <> GAME_OVER ->
  returns (handle_event L fuel g e) m (fun g' m' =>
    frame_inv g' m' /\
    state g' = spec_transition (state g) e /\
    state g' <> GAME_OVER /\
    running g' = (running g && negb (spec_exits (state g) e))%bool /\
    score g' = score g /\ player g' = player g /\
    asteroids m' = asteroids m /\
    ((state g = PLAYING /\ e = KEYDOWN K_SPACE) \/ m' = m)).
Proof.
  intros Hinv Hs.
  assert (Hstay : forall g', player g' = player g -> score g' = score g ->
                             frame_inv g' m).
  { intros g' Hp Hsc. unfold frame_inv in *. now rewrite Hp, Hsc. }
  assert (Hfin : forall g',
    player g' = player g -> score g' = score g ->
    state g' = spec_transition (state g) e ->
    state g' <> GAME_OVER ->
    running g' = (running g && negb (spec_exits (state g) e))%bool ->
    returns (ret g') m (fun g' m' =>
      frame_inv g' m' /\
      state g' = spec_transition (state g) e /\
      state g' <> GAME_OVER /\
      running g' = (running g && negb (spec_exits (state g) e))%bool /\
      score g' = score g /\ player g' = player g /\
      asteroids m' = asteroids m /\
      ((state g = PLAYING /\ e = KEYDOWN K_SPACE) \/ m' = m))).
  { intros g' Hp Hsc Hst Hne Hr. mstep. split; [now apply Hstay|].
    repeat split; auto. }
  destruct e as [|key|]; simpl.
  - apply Hfin; auto; cbn [state running set_running];
      destruct (state g); simpl; auto using andb_false_r.
  - destruct (state g) eqn:E; [| | |congruence].
    + destruct key; simpl; apply Hfin; auto; cbn [state running set_state];
        rewrite ?E; simpl; auto using andb_true_r; discriminate.
    + destruct key; simpl;
        try (apply Hfin; auto; cbn [state running set_state];
             rewrite ?E; simpl; auto using andb_true_r; discriminate).
      apply returns_bind.
      eapply returns_conseq; [apply m_get_ticks_returns|].
      intros now m1 Hm1. cbv beta. mstep. mstep.
      destruct (can_shoot (players m1 (player g)) now).
      * eapply returns_conseq.
        -- apply fire_returns. rewrite Hm1. exact Hinv.
        -- cbv beta. intros g' m2 (-> & Hi2 & _ & Ha2 & _).
           rewrite E. simpl. split; [exact Hi2|].
           rewrite andb_true_r.
           repeat split; auto; try discriminate.
           rewrite Ha2, Hm1. reflexivity.
      * mstep. rewrite E. simpl. rewrite andb_true_r.
        split; [rewrite Hm1; exact Hinv|].
        repeat split; auto; try discriminate. rewrite Hm1. reflexivity.
    + destruct key; simpl; apply Hfin; auto; cbn [state running set_state];
        rewrite ?E; simpl; auto using andb_true_r; discriminate.
  - apply Hfin; auto; destruct (state g); simpl; auto using andb_true_r.
Qed.

(** An event in GameOver: [R] runs [reset_game] and enters Playing with
    what it returns; [Q] and the window-close request clear [running];
    everything else changes nothing. *)
Lemma handle_event_game_over (fuel : nat) (g : Game) (e : Event) (m : Mem L) :
  state g = GAME_OVER ->
  ensures (handle_event L fuel g e) m (fun g' m' =>
    state g' = spec_transition (state g) e /\
    running g' = (running g && negb (spec_exits (state g) e))%bool /\
    (e = KEYDOWN K_r ->
       reset_game L fuel m = Val ((player g', score g'), m') /\
       fresh_session g' m' /\ frame_inv g' m') /\
    (e <> KEYDOWN K_r -> m' = m /\ player g' = player g /\ score g' = score g)).
Proof.
  intros Hs g' m' E. rewrite Hs.
  destruct e as [|key|]; simpl in E; rewrite ?Hs in E.
  - inversion E; subst. simpl. rewrite andb_false_r.
    repeat split; auto; discriminate.
  - destruct key; simpl in E;
      try (inversion E; subst; simpl; rewrite ?andb_true_r, ?andb_false_r;
           repeat split; auto; discriminate).
    unfold bind, ret in E.
    destruct (reset_game L fuel m) as [[ps m1]| |] eqn:R; try discriminate.
    inversion E; subst. simpl. rewrite andb_true_r.
    split; [reflexivity|]. split; [reflexivity|].
    split; [|intros H; congruence]. intros _.
    destruct (reset_game_ensures L fuel m PLAYING (running g) ps m' R)
      as (Hfst & Hfresh & Hinv & Hpl & _).
    split; [now destruct ps|]. split; [exact Hfresh|].
    unfold frame_inv. cbn [player score]. rewrite Hpl.
    split; [exact Hinv|]. split; [apply Player_init_inv|].
    split.
    + replace (velocity (p_obj (Player_init L screen_centre))) with (mkVector2 0 0)
        by reflexivity.
      rewrite vlength_zero. lra.
    + destruct Hfresh as (Hsc & _). cbn [score] in Hsc. lia.
  - inversion E; subst. simpl. rewrite andb_true_r.
    repeat split; auto; discriminate.
Qed.

(** Every event keeps the invariant of the game. *)
Lemma handle_event_ensures (fuel : nat) (g : Game) (e : Event) (m : Mem L) :
  frame_inv g m ->
  ensures (handle_event L fuel g e) m (fun g' m' => frame_inv g' m').
Proof.
  intros Hinv.
  destruct (state g) eqn:Hs.
  1-3: apply returns_ensures;
       (eapply returns_conseq;
        [apply handle_event_live; [exact Hinv|rewrite Hs; discriminate]
        |cbv beta; intros g' m' H; apply H]).
  eapply ensures_conseq; [apply handle_event_game_over; exact Hs|].
  cbv beta. intros g' m' (_ & _ & Hr & Hn).
  destruct e as [|key|]; try (destruct Hn as (-> & Hp & Hsc); [discriminate|];
    unfold frame_inv in *; now rewrite Hp, Hsc).
  destruct key; try (destruct Hn as (-> & Hp & Hsc); [discriminate|];
    unfold frame_inv in *; now rewrite Hp, Hsc).
  now apply Hr.
Qed.

(** Moving the sprites: the ship reads the keys and every sprite is
    updated.  It returns and keeps the invariant of the game. *)
Lemma move_sprites_returns (inp : FrameInput) (g : Game) (m : Mem L) :
  frame_inv g m ->
  returns (move_sprites L inp g) m (fun _ m1 => frame_inv g m1).
Proof.
  intros (Hmem & Hpi & Hv & Hsc). unfold move_sprites.
  assert (Hms : (VECTOR_EPSILON <= max_speed (players m (player g)))%R).
  { destruct Hpi as (_ & -> & _). unfold VECTOR_EPSILON. lra. }
  apply returns_bind.
  eapply returns_conseq; [apply player_handle_input_returns; exact Hms|].
  cbv beta. intros u m0 (self' & Hrun & ->).
  eapply returns_conseq; [apply all_sprites_update_returns|].
  cbv beta. intros u' m1 Hrel.
  destruct (handle_input_returns L (players m (player g)) (f_keys inp) (f_dt inp) Hms)
    as (p' & Hrun' & Hth & Hmx & _ & Hcd & _ & Hvel).
  rewrite Hrun in Hrun'. inversion Hrun'; subst p'.
  unfold frame_inv. split; [|split; [|split; [|exact Hsc]]].
  - eapply Mem_inv_update_rel; [|exact Hrel]. exact Hmem.
  - destruct Hrel as (_ & _ & _ & _ & _ & _ & Hst).
    destruct (Hst (player g)) as (H1 & H2 & H3 & _). mem_simpl.
    rewrite upd_same in H1, H2, H3.
    destruct Hpi as (P1 & P2 & P3). unfold Player_inv. repeat split; congruence.
  - destruct Hrel as (_ & _ & _ & _ & _ & _ & Hst).
    destruct (Hst (player g)) as (_ & _ & _ & H4). mem_simpl.
    rewrite upd_same in H4. rewrite H4.
    destruct Hpi as (_ & P2 & _). rewrite P2 in *. auto.
Qed.

(** The update block of a frame, from a state that satisfies the
    invariant: it returns; the score becomes the old score plus ten times
    the size of the hit asteroid for every overlapping (bullet, asteroid)
    pair found after the sprites moved; the state becomes GameOver exactly
    when the ship's rect then overlaps the rect of an asteroid of the group,
    and otherwise stays. *)
Lemma update_logic_returns (inp : FrameInput) (g : Game) (m : Mem L) :
  frame_inv g m ->
  returns (update_logic L inp g) m (fun g' m' =>
    frame_inv g' m' /\
    player g' = player g /\ running g' = running g /\
    (score g <= score g')%Z /\
    (exists m1,
       move_sprites L inp g m = Val (tt, m1) /\
       bullet_collisions L (score g) m1 = Val (score g', m') /\
       score g' = (score g + 10 * sum_sizes m1 (hit_pairs m1))%Z) /\
    state g' =
      if existsb (fun a => colliderect (rect (p_obj (players m' (player g))))
                                       (rect (a_obj (asteroid_objs m' a))))
                 (asteroids m')
      then GAME_OVER else state g).
Proof.
  intros Hinv. unfold update_logic.
  destruct (move_sprites_returns inp g m Hinv) as ([] & m1 & Hmove & Hinv1).
  apply returns_bind. exists tt, m1. split; [exact Hmove|]. cbv beta.
  destruct Hinv1 as (Hmem1 & Hpi1 & Hv1 & Hsc1).
  destruct (bullet_collisions_returns L (score g) m1 Hmem1)
    as (sc' & m' & Hcol & Hsc' & Hmem' & Hpl' & _).
  apply returns_bind. exists sc', m'. split; [exact Hcol|]. cbv beta zeta.
  unfold spritecollideany_asteroids. mstep. mstep.
  assert (Hnn : (0 <= sum_sizes m1 (hit_pairs m1))%Z).
  { apply sum_sizes_nonneg. intros a Ha. apply hit_pairs_in_group in Ha.
    destruct Hmem1 as (_ & _ & Hast & _). apply Hast in Ha as [_ Hi].
    unfold Asteroid_inv in Hi. lia. }
  assert (Hfi : forall st, frame_inv (mkGame (player g) sc' st (running g)) m').
  { intros st. unfold frame_inv. cbn [player score]. rewrite Hpl'.
    split; [exact Hmem'|]. split; [exact Hpi1|]. split; [exact Hv1|]. lia. }
  cbn [player set_score].
  destruct (existsb (fun a => colliderect (rect (p_obj (players m' (player g))))
                                           (rect (a_obj (asteroid_objs m' a))))
                    (asteroids m')) eqn:Ec;
    mstep; cbn [player score state running set_state set_score]; rewrite Ec;
    (split; [apply Hfi|]); (split; [reflexivity|]); (split; [reflexivity|]);
    (split; [lia|]); (split; [|reflexivity]);
    exists m1; repeat split; assumption.
Qed.

(** A frame that starts outside GameOver returns, keeps the invariant and
    the player, and does not lower the score. *)
Lemma frame_live_returns (fuel : nat) (inp : FrameInput) (g : Game) (m : Mem L) :
  frame_inv g m ->
  state g <> GAME_OVER ->
  returns (frame L fuel inp g) m (fun g' m' =>
    frame_inv g' m' /\ (score g <= score g')%Z /\ player g' = player g).
Proof.
  intros Hinv Hs. unfold frame. apply returns_bind.
  pose (I := fun (done : list Event) (g1 : Game) (m1 : Mem L) =>
    frame_inv g1 m1 /\ state g1 <> GAME_OVER /\
    score g1 = score g /\ player g1 = player g).
  eapply returns_conseq.
  - apply (returns_fold_m L I) with (done := []).
    + intros pre e g1 m1 _ (Hi1 & Hs1 & Hsc1 & Hp1).
      eapply returns_conseq; [apply handle_event_live; assumption|].
      cbv beta. intros g2 m2 (Hi2 & _ & Hs2 & _ & Hsc2 & Hp2 & _).
      unfold I. split; [exact Hi2|]. split; [exact Hs2|]. split; congruence.
    + unfold I. split; [exact Hinv|]. split; [exact Hs|]. split; reflexivity.
  - cbv beta. unfold I. intros g1 m1 (Hi1 & Hs1 & Hsc1 & Hp1).
    destruct (state g1) eqn:E.
    2: { eapply returns_conseq; [apply update_logic_returns; exact Hi1|].
         cbv beta. intros g2 m2 (Hi2 & Hp2 & _ & Hle & _).
         split; [exact Hi2|]. split; [lia|congruence]. }
    all: mstep; split; [exact Hi1|]; split; [lia|congruence].
Qed.

(** Every frame keeps the invariant of the game. *)
Lemma frame_ensures (fuel : nat) (inp : FrameInput) (g : Game) (m : Mem L) :
  frame_inv g m ->
  ensures (frame L fuel inp g) m (fun g' m' => frame_inv g' m').
Proof.
  intros Hinv. unfold frame. apply ensures_bind.
  eapply ensures_conseq.
  - apply (ensures_fold_m L (fun g1 m1 => frame_inv g1 m1)); [|exact Hinv].
    intros e g1 m1 _ Hi1. now apply handle_event_ensures.
  - cbv beta. intros g1 m1 Hi1.
    destruct (state g1).
    2: { apply returns_ensures.
         eapply returns_conseq; [apply update_logic_returns; exact Hi1|].
         cbv beta. intros g2 m2 H. apply H. }
    all: now apply ensures_ret.
Qed.

Lemma main_loop_ensures (fuel : nat) (inputs : list FrameInput) :
  forall (g : Game) (m : Mem L),
    frame_inv g m ->
    ensures (main_loop L fuel inputs g) m (fun g' m' => frame_inv g' m').
Proof.
  induction inputs as [|inp rest IH]; intros g m Hinv; simpl.
  - destruct (running g); now apply ensures_ret.
  - destruct (running g); [|now apply ensures_ret].
    apply ensures_bind.
    eapply ensures_conseq; [apply frame_ensures; exact Hinv|].
    cbv beta. intros g1 m1 Hi1. now apply IH.
Qed.

(** The start of [main]: a fresh session in state Start. *)
Lemma startup_ensures (fuel : nat) (m : Mem L) :
  ensures (startup L fuel) m (fun g m' =>
    frame_inv g m' /\ fresh_session g m' /\ state g = START /\ running g = true).
Proof.
  unfold startup.
  do 3 (apply ensures_bind, returns_ensures, returns_modify).
  apply ensures_bind.
  eapply ensures_conseq; [apply (reset_game_ensures L fuel _ START true)|].
  cbv beta. intros ps m' (_ & Hfresh & Hinv & Hpl & _).
  apply ensures_ret.
  split; [|split; [exact Hfresh|split; reflexivity]].
  unfold frame_inv. cbn [player score]. rewrite Hpl.
  split; [exact Hinv|]. split; [apply Player_init_inv|].
  split.
  - replace (velocity (p_obj (Player_init L screen_centre))) with (mkVector2 0 0)
      by reflexivity.
    rewrite vlength_zero. lra.
  - destruct Hfresh as (Hsc & _). cbn [score] in Hsc. lia.
Qed.

End Frames.

(** ** Counting hits per asteroid *)

Section PairCounting.
Variable ov : nat -> nat -> bool.   (* does bullet b overlap asteroid a *)
Variable sz : nat -> Z.
Variable l : list nat.              (* the asteroid group *)

Lemma sumZ_cons (x : Z) (xs : list Z) : sumZ (x :: xs) = (x + sumZ xs)%Z.
Proof. reflexivity. Qed.

Lemma sumZ_app (xs ys : list Z) : sumZ (xs ++ ys) = (sumZ xs + sumZ ys)%Z.
Proof.
  induction xs as [|x xs IH]; [reflexivity|].
  simpl app. rewrite !sumZ_cons, IH. lia.
Qed.

Lemma sum_filter (b : nat) (xs : list nat) :
  sumZ (map sz (filter (ov b) xs))
  = sumZ (map (fun a => (sz a * (if ov b a then 1 else 0))%Z) xs).
Proof.
  induction xs as [|a xs IH]; [reflexivity|].
  simpl filter. destruct (ov b a) eqn:E; simpl map; rewrite ?sumZ_cons, ?E, IH; lia.
Qed.

Lemma sum_pairs (bs : list nat) :
  sumZ (map sz (flat_map (fun b => filter (ov b) l) bs))
  = sumZ (map (fun a => (sz a * Z.of_nat (length (filter (fun b => ov b a) bs)))%Z) l).
Proof.
  induction bs as [|b bs IH]; simpl flat_map.
  - induction l as [|a xs IHl]; [reflexivity|].
    simpl map in *. rewrite sumZ_cons, <- IHl. simpl. lia.
  - rewrite map_app, sumZ_app, IH, sum_filter. clear IH.
    induction l as [|a xs IHl]; [reflexivity|].
    cbn [map]. rewrite !sumZ_cons, <- IHl. cbn [filter].
    destruct (ov b a) eqn:E; cbn [length]; lia.
Qed.

Lemma count_filter_nodup (b a : nat) (xs : list nat) :
  NoDup xs -> In a xs ->
  count_occ Nat.eq_dec (filter (ov b) xs) a = if ov b a then 1 else 0.
Proof.
  intros Hnd. induction Hnd as [|x xs Hx Hnd IH]; intros Hin; [contradiction|].
  simpl. destruct Hin as [->|Hin].
  - assert (Hz : count_occ Nat.eq_dec (filter (ov b) xs) a = 0).
    { apply count_occ_not_In. intros H. apply filter_In in H as [H _]. contradiction. }
    destruct (ov b a); simpl.
    + destruct (Nat.eq_dec a a); [lia|congruence].
    + exact Hz.
  - assert (x <> a) by (intros ->; contradiction).
    destruct (ov b x); simpl.
    + destruct (Nat.eq_dec x a); [congruence|]. now apply IH.
    + now apply IH.
Qed.

Lemma count_pairs (bs : list nat) (a : nat) :
  NoDup l -> In a l ->
  count_occ Nat.eq_dec (flat_map (fun b => filter (ov b) l) bs) a
  = length (filter (fun b => ov b a) bs).
Proof.
  intros Hnd Hin. induction bs as [|b bs IH]; simpl; [reflexivity|].
  rewrite count_occ_app, IH, (count_filter_nodup b a l Hnd Hin).
  destruct (ov b a); reflexivity.
Qed.

Lemma existsb_pairs (bs : list nat) (a : nat) :
  NoDup l -> In a l ->
  existsb (Nat.eqb a) (flat_map (fun b => filter (ov b) l) bs)
  = negb (Nat.eqb (length (filter (fun b => ov b a) bs)) 0).
Proof.
  intros Hnd Hin. rewrite <- (count_pairs bs a Hnd Hin).
  destruct (existsb (Nat.eqb a) (flat_map (fun b => filter (ov b) l) bs)) eqn:E.
  - apply existsb_exists in E as (x & Hx & Hax). apply Nat.eqb_eq in Hax. subst x.
    apply (count_occ_In Nat.eq_dec) in Hx.
    destruct (count_occ Nat.eq_dec _ a); [lia|reflexivity].
  - destruct (count_occ Nat.eq_dec _ a) eqn:C; [reflexivity|].
    assert (Hx : In a (flat_map (fun b => filter (ov b) l) bs)).
    { apply (count_occ_In Nat.eq_dec). lia. }
    assert (existsb (Nat.eqb a) (flat_map (fun b => filter (ov b) l) bs) = true).
    { apply existsb_exists. exists a. split; [exact Hx|apply Nat.eqb_refl]. }
    congruence.
Qed.

End PairCounting.

(** ** The collision pass, per overlapping pair *)

Section PerPair.
Variable L : Library.

Lemma ten_sum_sizes (m : Mem L) (l : list nat) :
  (10 * sum_sizes m l)%Z = sumZ (map (fun a => (10 * size (asteroid_objs m a))%Z) l).
Proof.
  unfold sum_sizes. induction l as [|a l IH]; [reflexivity|].
  cbn [map]. rewrite !sumZ_cons, <- IH. lia.
Qed.

Lemma pair_score_hit_pairs (m : Mem L) :
  (10 * sum_sizes m (hit_pairs m))%Z = pair_score m.
Proof.
  rewrite ten_sum_sizes. unfold hit_pairs, pair_score, bullets_over.
  exact (sum_pairs (overlaps m) (fun a => (10 * size (asteroid_objs m a))%Z)
                   (asteroids m) (bullets m)).
Qed.

Lemma count_hit_pairs (m : Mem L) (a : nat) :
  NoDup (asteroids m) -> In a (asteroids m) ->
  count_occ Nat.eq_dec (hit_pairs m) a = bullets_over m a.
Proof.
  intros Hnd Hin.
  exact (count_pairs (overlaps m) (asteroids m) (bullets m) a Hnd Hin).
Qed.

Lemma survivors_not_hit (m : Mem L) :
  NoDup (asteroids m) ->
  filter (fun x => negb (existsb (Nat.eqb x) (hit_pairs m))) (asteroids m)
  = filter (fun a => Nat.eqb (bullets_over m a) 0) (asteroids m).
Proof.
  intros Hnd. apply filter_ext_in. intros a Hin.
  change (existsb (Nat.eqb a) (hit_pairs m))
    with (existsb (Nat.eqb a)
            (flat_map (fun b => filter (overlaps m b) (asteroids m)) (bullets m))).
  rewrite (existsb_pairs (overlaps m) (asteroids m) (bullets m) a Hnd Hin).
  apply negb_involutive.
Qed.

(** When no asteroid is overlapped by two bullets, the overlapping pairs
    are worth ten times the size of each hit asteroid. *)
Lemma pair_score_single (m : Mem L) :
  (forall a, In a (asteroids m) -> bullets_over m a <= 1) ->
  pair_score m = (10 * sum_sizes m (hit_asteroids m))%Z.
Proof.
  unfold pair_score, hit_asteroids, sum_sizes.
  induction (asteroids m) as [|a l IH]; intros H; [reflexivity|].
  cbn [map filter]. rewrite sumZ_cons, IH by (intros x Hx; apply H; now right).
  assert (Ha : bullets_over m a <= 1) by (apply H; now left).
  destruct (bullets_over m a) as [|[|n]] eqn:E; [| |lia].
  - cbn [Nat.eqb negb]. lia.
  - cbn [Nat.eqb negb map]. rewrite sumZ_cons. lia.
Qed.

(** The asteroids that a pass destroys are the asteroids that at least one
    bullet overlaps, when the group after the pass is what the unhit
    asteroids and new objects make up. *)
Lemma destroyed_hit_asteroids (m m' : Mem L) (frs : list nat) :
  (forall a, In a (asteroids m) -> a < next_id m) ->
  asteroids m' =
    filter (fun a => Nat.eqb (bullets_over m a) 0) (asteroids m) ++ frs ->
  (forall f, In f frs -> next_id m <= f) ->
  destroyed m m' = hit_asteroids m.
Proof.
  intros Hlt Has Hfrs. unfold destroyed, hit_asteroids.
  apply filter_ext_in. intros a Ha. f_equal.
  rewrite Has, existsb_app.
  assert (Hf : existsb (Nat.eqb a) frs = false).
  { destruct (existsb (Nat.eqb a) frs) eqn:E; [|reflexivity].
    apply existsb_exists in E as (f & Hf & Heq).
    apply Nat.eqb_eq in Heq. subst f.
    apply Hfrs in Hf. apply Hlt in Ha. lia. }
  rewrite Hf, orb_false_r.
  destruct (Nat.eqb (bullets_over m a) 0) eqn:E.
  - apply existsb_exists. exists a. split; [|apply Nat.eqb_refl].
    apply filter_In. split; assumption.
  - destruct (existsb (Nat.eqb a)
               (filter (fun x => Nat.eqb (bullets_over m x) 0) (asteroids m)))
      eqn:E2; [|reflexivity].
    apply existsb_exists in E2 as (x & Hx & Heq).
    apply Nat.eqb_eq in Heq. subst x.
    apply filter_In in Hx as [_ Hx]. congruence.
Qed.

(** The score of a collision pass: the old score plus what the overlapping
    pairs are worth, which is not negative; the pass destroys the asteroids
    that at least one bullet overlaps. *)
Lemma bullet_collisions_score (sc : Z) (m : Mem L) :
  Mem_inv m ->
  returns (bullet_collisions L sc) m (fun sc' m' =>
    sc' = (sc + pair_score m)%Z /\ (sc <= sc')%Z /\
    destroyed m m' = hit_asteroids m).
Proof.
  intros Hinv. pose proof Hinv as (Hnd & _ & Hast & _).
  eapply returns_conseq; [apply bullet_collisions_returns; exact Hinv|].
  cbv beta.
  intros sc' m' (Hsc & _ & _ & _ & _ & _ & _ & frs & Has & _ & Hfrs & _).
  assert (Hnn : (0 <= sum_sizes m (hit_pairs m))%Z).
  { apply sum_sizes_nonneg. intros a Ha. apply hit_pairs_in_group in Ha.
    apply Hast in Ha as [_ Hi]. unfold Asteroid_inv in Hi. lia. }
  split; [rewrite Hsc, pair_score_hit_pairs; reflexivity|].
  split; [lia|].
  rewrite survivors_not_hit in Has by exact Hnd.
  apply (destroyed_hit_asteroids m m' frs).
  - intros a Ha. now apply Hast.
  - exact Has.
  - intros f Hf. apply Hfrs in Hf. lia.
Qed.

(** C1, as the code has it: a collision pass registers one fragmenting hit
    for each overlapping (bullet, asteroid) pair.  From a memory that
    satisfies the invariant the pass returns, and with [k a] the number of
    bullets of the group whose rect overlaps the rect of asteroid [a]:
    the score grows by [10 * size a * k a] summed over the asteroids of the
    group; [break_apart] runs on [a] exactly [k a] times ([a] occurs [k a]
    times in the list of hits); the asteroids with [k a = 0] stay and all
    others leave the group; and the new members of the group are the
    fragments, two of size [size a - 1] for each of the [k a] hits of an
    asteroid of size above 1.  So an asteroid that exactly one bullet
    overlaps is fragmented once and scored once; when no asteroid is
    overlapped by two bullets the list of hits has no repetition. *)
Theorem collision_pass_per_pair (sc : Z) (m : Mem L) :
  Mem_inv m ->
  returns (bullet_collisions L sc) m (fun sc' m' =>
    sc' = (sc + pair_score m)%Z /\
    (forall a, In a (asteroids m) ->
       count_occ Nat.eq_dec (hit_pairs m) a = bullets_over m a) /\
    ((forall a, In a (asteroids m) -> bullets_over m a <= 1) ->
       NoDup (hit_pairs m)) /\
    exists frs,
      asteroids m' =
        filter (fun a => Nat.eqb (bullets_over m a) 0) (asteroids m) ++ frs /\
      NoDup frs /\
      (forall f, In f frs -> next_id m <= f) /\
      map (fun f => size (asteroid_objs m' f)) frs = fragment_sizes m (hit_pairs m)).
Proof.
  intros Hinv. pose proof Hinv as (Hnd & _).
  eapply returns_conseq; [apply bullet_collisions_returns; exact Hinv|].
  cbv beta.
  intros sc' m' (Hsc & _ & _ & _ & _ & _ & _ & frs & Has & Hndf & Hfrs & Hsz).
  split; [rewrite Hsc, pair_score_hit_pairs; reflexivity|].
  split; [intros a Ha; now apply count_hit_pairs|].
  split.
  { intros Hone. apply (NoDup_count_occ Nat.eq_dec). intros a.
    destruct (in_dec Nat.eq_dec a (hit_pairs m)) as [Hin|Hout].
    - assert (Ha : In a (asteroids m)) by now apply hit_pairs_in_group.
      rewrite (count_hit_pairs m a Hnd Ha). now apply Hone.
    - apply (count_occ_not_In Nat.eq_dec) in Hout. lia. }
  exists frs. rewrite <- survivors_not_hit by exact Hnd.
  split; [exact Has|]. split; [exact Hndf|]. split; [|exact Hsz].
  intros f Hf. apply Hfrs in Hf. lia.
Qed.

End PerPair.

(** ** The stated properties of the game loop *)

Section GameLoop.
Variable L : Library.

(** C3: one call of [handle_input] keeps a ship that is no faster than its
    maximum speed of 6 no faster than that, whatever keys are held and
    whatever [dt] is; hence every frame keeps the invariant of the game, of
    which the bound is a part, and after any sequence of frames that [main]
    runs from its start, where the ship is created at rest, the speed of the
    current ship is at most 6. *)
Theorem speed_clamp_invariant :
  (forall (self : Player) (keys : Keys) (dt : R),
     Player_inv self ->
     (vlength (velocity (p_obj self)) <= max_speed self)%R ->
     (0 <= dt)%R ->
     exists p',
       handle_input L self keys dt = Val p' /\
       Player_inv p' /\ max_speed p' = 6%R /\
       (vlength (velocity (p_obj p')) <= max_speed p')%R) /\
  (forall (fuel : nat) (inp : FrameInput) (g : Game) (m : Mem L),
     frame_inv g m ->
     ensures (frame L fuel inp g) m (fun g' m' =>
       (vlength (velocity (p_obj (players m' (player g')))) <= 6)%R)) /\
  (forall (fuel : nat) (inputs : list FrameInput) (m : Mem L),
     ensures (main L fuel inputs) m (fun g m' =>
       (vlength (velocity (p_obj (players m' (player g)))) <= 6)%R)).
Proof.
  split; [|split].
  - intros self keys dt Hinv Hv _.
    assert (Hms : (VECTOR_EPSILON <= max_speed self)%R).
    { destruct Hinv as (_ & -> & _). unfold VECTOR_EPSILON. lra. }
    destruct (handle_input_returns L self keys dt Hms)
      as (p' & Hrun & Hth & Hmx & _ & Hcd & _ & Hvel).
    exists p'. split; [exact Hrun|].
    destruct Hinv as (I1 & I2 & I3).
    split; [unfold Player_inv; repeat split; congruence|].
    split; [congruence|]. rewrite Hmx. now apply Hvel.
  - intros fuel inp g m Hinv.
    eapply ensures_conseq; [apply frame_ensures; exact Hinv|].
    cbv beta. intros g' m' H. apply H.
  - intros fuel inputs m. unfold main. apply ensures_bind.
    eapply ensures_conseq; [apply startup_ensures|].
    cbv beta. intros g m1 (Hinv & _).
    eapply ensures_conseq; [apply main_loop_ensures; exact Hinv|].
    cbv beta. intros g' m' H. apply H.
Qed.

(** C7: whenever [reset_game] returns, it returns score 0 and leaves a fresh
    session: one ship, at the centre (400, 300) of the screen and at rest;
    five asteroids, each of size 3 and farther than 200 from the ship; no
    bullet.  It does return when the random generator is fair to the
    rejection loop.  The restart from GameOver enters Playing with such a
    session, and the start of [main] enters Start with one. *)
Theorem reset_gives_fresh_session (fuel : nat) (m : Mem L) :
  ensures (reset_game L fuel) m (fun ps m' =>
    snd ps = 0%Z /\ fresh_session (mkGame (fst ps) (snd ps) PLAYING true) m') /\
  (spawn_fair L fuel (next_id m) ->
   returns (reset_game L fuel) m (fun ps m' =>
     snd ps = 0%Z /\ fresh_session (mkGame (fst ps) (snd ps) PLAYING true) m')) /\
  (forall g : Game,
     state g = GAME_OVER ->
     ensures (handle_event L fuel g (KEYDOWN K_r)) m (fun g' m' =>
       state g' = PLAYING /\ fresh_session g' m')) /\
  ensures (startup L fuel) m (fun g m' => state g = START /\ fresh_session g m').
Proof.
  assert (Hens : ensures (reset_game L fuel) m (fun ps m' =>
    snd ps = 0%Z /\ fresh_session (mkGame (fst ps) (snd ps) PLAYING true) m')).
  { eapply ensures_conseq; [apply (reset_game_ensures L fuel m PLAYING true)|].
    cbv beta. intros ps m' (_ & Hfresh & _). split; [|exact Hfresh].
    destruct Hfresh as (Hsc & _). exact Hsc. }
  split; [exact Hens|]. split; [|split].
  - intros Hfair.
    eapply returns_conseq.
    + apply ensures_returns; [apply reset_game_returns; exact Hfair|exact Hens].
    + cbv beta. intros ps m' (_ & H). exact H.
  - intros g Hs.
    eapply ensures_conseq; [apply handle_event_game_over; exact Hs|].
    cbv beta. intros g' m' (Hst & _ & Hr & _).
    destruct (Hr eq_refl) as (_ & Hfresh & _).
    split; [|exact Hfresh]. rewrite Hst, Hs. reflexivity.
  - eapply ensures_conseq; [apply startup_ensures|].
    cbv beta. intros g m' (_ & Hfresh & Hst & _). split; assumption.
Qed.

(** While Paused an event never touches the memory, and only escape
    changes the state. *)
Lemma handle_event_paused (fuel : nat) (g : Game) (e : Event) (m : Mem L) :
  state g = PAUSED ->
  exists g',
    handle_event L fuel g e m = Val (g', m) /\
    player g' = player g /\ score g' = score g /\
    state g' = spec_transition PAUSED e /\
    (e = KEYDOWN K_SPACE -> g' = g).
Proof.
  intros Hs. destruct e as [|key|]; simpl; rewrite ?Hs.
  - eexists. split; [reflexivity|]. repeat split; auto; try discriminate.
  - destruct key; simpl; eexists; (split; [reflexivity|]);
      repeat split; auto; try discriminate.
  - exists g. repeat split; auto; try discriminate.
Qed.

(** A Paused frame without the pause key: nothing in memory changes. *)
Lemma paused_events (fuel : nat) (m : Mem L) (events : list Event) :
  forall g : Game,
    state g = PAUSED ->
    ~ In (KEYDOWN K_ESCAPE) events ->
    exists g',
      fold_m L events (handle_event L fuel) g m = Val (g', m) /\
      state g' = PAUSED /\ score g' = score g /\ player g' = player g.
Proof.
  induction events as [|e events IH]; intros g Hs Hno; simpl.
  - exists g. repeat split; auto.
  - destruct (handle_event_paused fuel g e m Hs) as (g1 & Hrun & Hp & Hsc & Hst & _).
    assert (Hs1 : state g1 = PAUSED).
    { rewrite Hst. destruct e as [|key|]; try reflexivity.
      destruct key; try reflexivity. exfalso. apply Hno. now left. }
    destruct (IH g1 Hs1) as (g' & Hrun' & Hs' & Hsc' & Hp').
    { intros H. apply Hno. now right. }
    exists g'. unfold bind. rewrite Hrun. split; [exact Hrun'|].
    repeat split; congruence.
Qed.

(** Outside GameOver the same events end the loop in every state. *)
Lemma spec_exits_live (s s' : GameState) (e : Event) :
  s <> GAME_OVER -> s' <> GAME_OVER -> spec_exits s e = spec_exits s' e.
Proof.
  intros H H'. destruct e as [|k|]; [|destruct k|];
    destruct s, s'; try reflexivity; congruence.
Qed.

(** The events of a frame that starts outside GameOver: the loop over them
    returns; the state stays outside GameOver; score, player and asteroid
    group stay; [running] is cleared exactly when a window-close request is
    among the events; and from Playing, without the pause key, the state is
    still Playing after the events. *)
Lemma live_events (fuel : nat) (g : Game) (m : Mem L) (events : list Event) :
  frame_inv g m -> state g <> GAME_OVER ->
  returns (fold_m L events (handle_event L fuel) g) m (fun g1 m1 =>
    frame_inv g1 m1 /\ state g1 <> GAME_OVER /\
    score g1 = score g /\ player g1 = player g /\
    asteroids m1 = asteroids m /\
    running g1 = (running g && negb (existsb (spec_exits (state g)) events))%bool /\
    (state g = PLAYING -> ~ In (KEYDOWN K_ESCAPE) events -> state g1 = PLAYING)).
Proof.
  intros Hinv Hs.
  pose (I := fun (done : list Event) (g1 : Game) (m1 : Mem L) =>
    frame_inv g1 m1 /\ state g1 <> GAME_OVER /\
    score g1 = score g /\ player g1 = player g /\
    asteroids m1 = asteroids m /\
    running g1 = (running g && negb (existsb (spec_exits (state g)) done))%bool /\
    (state g = PLAYING -> ~ In (KEYDOWN K_ESCAPE) done -> state g1 = PLAYING)).
  change (returns (fold_m L events (handle_event L fuel) g) m
            (fun g1 m1 => I ([] ++ events) g1 m1)).
  apply (returns_fold_m L I).
  - intros pre e g1 m1 _ (Hi1 & Hs1 & Hsc1 & Hp1 & Ha1 & Hr1 & Hst1).
    eapply returns_conseq; [apply handle_event_live; assumption|].
    cbv beta. intros g2 m2 (Hi2 & Hst2 & Hs2 & Hr2 & Hsc2 & Hp2 & Ha2 & _).
    unfold I. split; [exact Hi2|]. split; [exact Hs2|].
    split; [congruence|]. split; [congruence|]. split; [congruence|].
    split.
    + rewrite Hr2, Hr1, existsb_app. cbn [existsb].
      rewrite (spec_exits_live (state g1) (state g) e Hs1 Hs).
      destruct (running g), (existsb (spec_exits (state g)) pre),
        (spec_exits (state g) e); reflexivity.
    + intros Hp Hno. rewrite Hst2, Hst1.
      * destruct e as [|k|]; try reflexivity.
        destruct k; try reflexivity.
        exfalso. apply Hno, in_or_app. right. now left.
      * exact Hp.
      * intros Hin. apply Hno, in_or_app. now left.
  - unfold I. split; [exact Hinv|]. split; [exact Hs|].
    split; [reflexivity|]. split; [reflexivity|]. split; [reflexivity|].
    split; [cbn [existsb negb]; now rewrite andb_true_r|].
    intros Hp _. exact Hp.
Qed.

(** An event other than [R] in GameOver: the handler returns, leaves the
    memory and the state alone, and clears [running] on [Q] and on the
    window-close request. *)
Lemma handle_event_game_over_idle (fuel : nat) (g : Game) (e : Event) (m : Mem L) :
  state g = GAME_OVER -> e <> KEYDOWN K_r ->
  exists g',
    handle_event L fuel g e m = Val (g', m) /\
    state g' = GAME_OVER /\
    running g' = (running g && negb (spec_exits GAME_OVER e))%bool /\
    score g' = score g /\ player g' = player g.
Proof.
  intros Hs He. destruct e as [|key|]; simpl; rewrite ?Hs.
  - eexists. split; [reflexivity|]. cbn [state running score player set_running].
    rewrite andb_false_r. repeat split; auto.
  - destruct key; try congruence; simpl; eexists; (split; [reflexivity|]);
      cbn [state running score player set_running];
      rewrite ?andb_true_r, ?andb_false_r; repeat split; auto.
  - exists g. rewrite andb_true_r. repeat split; auto.
Qed.

(** The events of a GameOver frame without [R]. *)
Lemma game_over_events (fuel : nat) (m : Mem L) (events : list Event) :
  forall g : Game,
    state g = GAME_OVER ->
    ~ In (KEYDOWN K_r) events ->
    exists g',
      fold_m L events (handle_event L fuel) g m = Val (g', m) /\
      state g' = GAME_OVER /\
      running g' = (running g && negb (existsb (spec_exits GAME_OVER) events))%bool /\
      score g' = score g /\ player g' = player g.
Proof.
  induction events as [|e events IH]; intros g Hs Hno; cbn [fold_m existsb].
  - exists g. cbn [negb]. rewrite andb_true_r. repeat split; auto.
  - destruct (handle_event_game_over_idle fuel g e m Hs)
      as (g1 & Hrun & Hs1 & Hr1 & Hsc1 & Hp1).
    { intros ->. apply Hno. now left. }
    destruct (IH g1 Hs1) as (g' & Hrun' & Hs' & Hr' & Hsc' & Hp').
    { intros H. apply Hno. now right. }
    exists g'. unfold bind. rewrite Hrun. split; [exact Hrun'|].
    split; [exact Hs'|]. split; [|split; congruence].
    rewrite Hr', Hr1.
    destruct (running g), (spec_exits GAME_OVER e),
      (existsb (spec_exits GAME_OVER) events); reflexivity.
Qed.

(** The restart from GameOver, when the random generator is fair to the
    rejection loop of [reset_game]: the handler returns, in Playing, with a
    fresh session. *)
Lemma restart_returns (fuel : nat) (g : Game) (m : Mem L) :
  state g = GAME_OVER -> spawn_fair L fuel (next_id m) ->
  returns (handle_event L fuel g (KEYDOWN K_r)) m (fun g' m' =>
    state g' = PLAYING /\ running g' = running g /\
    fresh_session g' m' /\ frame_inv g' m').
Proof.
  intros Hs Hfair.
  assert (Hret : returns (handle_event L fuel g (KEYDOWN K_r)) m (fun _ _ => True)).
  { simpl. rewrite Hs. simpl. apply returns_bind.
    eapply returns_conseq; [apply reset_game_returns; exact Hfair|].
    cbv beta. intros ps m' _. now apply returns_ret. }
  eapply returns_conseq.
  - apply ensures_returns; [exact Hret|apply handle_event_game_over; exact Hs].
  - cbv beta. intros g' m' (_ & Hst & Hr & Hreset & _).
    destruct (Hreset eq_refl) as (_ & Hf & Hi).
    rewrite Hs in Hst, Hr. cbn [spec_transition spec_exits negb] in Hst, Hr.
    rewrite andb_true_r in Hr.
    split; [exact Hst|]. split; [exact Hr|]. split; assumption.
Qed.

(** A frame that starts outside GameOver: after the events, the update
    block runs exactly when the state is Playing. *)
Lemma frame_live_steps (fuel : nat) (inp : FrameInput) (g : Game) (m : Mem L) :
  frame_inv g m -> state g <> GAME_OVER ->
  returns (frame L fuel inp g) m (fun g' m' =>
    exists g1 m1,
      fold_m L (f_events inp) (handle_event L fuel) g m = Val (g1, m1) /\
      running g' =
        (running g && negb (existsb (spec_exits (state g)) (f_events inp)))%bool /\
      (state g = PLAYING -> ~ In (KEYDOWN K_ESCAPE) (f_events inp) ->
       state g1 = PLAYING) /\
      (state g1 = PLAYING ->
         update_logic L inp g1 m1 = Val (g', m') /\
         (state g' = GAME_OVER \/ state g' = PLAYING) /\
         (state g' = GAME_OVER <->
          existsb (fun a => colliderect (rect (p_obj (players m' (player g'))))
                                        (rect (a_obj (asteroid_objs m' a))))
                  (asteroids m') = true)) /\
      (state g1 <> PLAYING -> g' = g1 /\ m' = m1)).
Proof.
  intros Hinv Hs.
  destruct (live_events fuel g m (f_events inp) Hinv Hs)
    as (g1 & m1 & Hev & Hi1 & Hs1 & _ & _ & _ & Hr1 & Hst1).
  destruct (state g1) eqn:E.
  2: { destruct (update_logic_returns L inp g1 m1 Hi1)
         as (g' & m' & Hup & _ & Hp & Hr & _ & _ & Hst).
       exists g', m'. split.
       { unfold frame, bind. rewrite Hev, E. exact Hup. }
       exists g1, m1. split; [exact Hev|]. split; [congruence|].
       split; [rewrite E; exact Hst1|]. split; [|intros H; congruence].
       intros _. split; [exact Hup|]. rewrite Hp, Hst, E.
       destruct (existsb _ (asteroids m')).
       - split; [now left|]. split; reflexivity.
       - split; [now right|]. split; discriminate. }
  all: exists g1, m1; (split; [unfold frame, bind; rewrite Hev, E; reflexivity|]);
       exists g1, m1; (split; [exact Hev|]); (split; [exact Hr1|]);
       (split; [rewrite E; exact Hst1|]);
       (split; [intros H; rewrite E in H; discriminate|]);
       intros _; split; reflexivity.
Qed.

(** C5: the game-flow state moves only as the design lists, and the loop
    produces these moves.  Handling an event sets the state to
    [spec_transition] of the old state and the event (Start to Playing on
    space, Playing and Paused toggled by escape, GameOver to Playing on R,
    no change otherwise) and clears [running] exactly on [spec_exits]
    (window close in any state, Q in GameOver); in GameOver, R runs
    [reset_game] and every other event leaves the memory alone.  While
    Paused no event changes the memory, so the fire key yields no bullet and
    no state change, and a Paused frame without the pause key changes
    nothing at all: the update block, which holds every entity update and
    collision check, runs only when the state after the events is Playing.
    The update block changes the state to GameOver exactly when the ship's
    rect overlaps that of an asteroid of the group, and leaves it Playing
    otherwise.  Once [running] is cleared the loop ends.

    Of the loop itself: a frame whose state after the events is Playing is
    the update block run on what the events left.  A frame that starts
    outside GameOver returns; the update block runs exactly when the state
    after the events is Playing, which it is for a Playing frame without the
    pause key, and then the frame ends in GameOver exactly when the ship's
    rect overlaps that of an asteroid of the group and in Playing otherwise;
    such a frame clears [running] exactly when a window-close request is
    among its events.  In GameOver every event but R is handled without an
    exception, keeps the state and the memory, and clears [running] on Q and
    on window close; so does a GameOver frame without R.  R in GameOver
    returns, in Playing with a fresh session, when the random generator is
    fair to the rejection loop of [reset_game].  The loop runs the frames
    one after the other while [running] holds, and a frame that handles a
    window-close request, or Q in GameOver, is the last one. *)
Theorem state_machine_closure :
  (forall (fuel : nat) (g : Game) (e : Event) (m : Mem L),
     frame_inv g m -> state g <> GAME_OVER ->
     returns (handle_event L fuel g e) m (fun g' _ =>
       state g' = spec_transition (state g) e /\
       running g' = (running g && negb (spec_exits (state g) e))%bool)) /\
  (forall (fuel : nat) (g : Game) (e : Event) (m : Mem L),
     state g = GAME_OVER ->
     ensures (handle_event L fuel g e) m (fun g' m' =>
       state g' = spec_transition (state g) e /\
       running g' = (running g && negb (spec_exits (state g) e))%bool /\
       (e = KEYDOWN K_r -> reset_game L fuel m = Val ((player g', score g'), m')) /\
       (e <> KEYDOWN K_r -> m' = m))) /\
  (forall (fuel : nat) (g : Game) (e : Event) (m : Mem L),
     state g = PAUSED ->
     exists g',
       handle_event L fuel g e m = Val (g', m) /\
       (e = KEYDOWN K_SPACE -> g' = g)) /\
  (forall (fuel : nat) (inp : FrameInput) (g : Game) (m : Mem L),
     state g = PAUSED -> ~ In (KEYDOWN K_ESCAPE) (f_events inp) ->
     exists g',
       frame L fuel inp g m = Val (g', m) /\
       state g' = PAUSED /\ score g' = score g /\ player g' = player g) /\
  (forall (fuel : nat) (inp : FrameInput) (g g1 : Game) (m m1 : Mem L),
     fold_m L (f_events inp) (handle_event L fuel) g m = Val (g1, m1) ->
     state g1 <> PLAYING ->
     frame L fuel inp g m = Val (g1, m1)) /\
  (forall (inp : FrameInput) (g : Game) (m : Mem L),
     frame_inv g m -> state g = PLAYING ->
     returns (update_logic L inp g) m (fun g' m' =>
       running g' = running g /\
       (state g' = GAME_OVER \/ state g' = PLAYING) /\
       (state g' = GAME_OVER <->
        existsb (fun a => colliderect (rect (p_obj (players m' (player g))))
                                      (rect (a_obj (asteroid_objs m' a))))
                (asteroids m') = true))) /\
  (forall (fuel : nat) (inputs : list FrameInput) (g : Game) (m : Mem L),
     running g = false -> main_loop L fuel inputs g m = Val (g, m)) /\
  (forall (fuel : nat) (inp : FrameInput) (g g1 : Game) (m m1 : Mem L),
     fold_m L (f_events inp) (handle_event L fuel) g m = Val (g1, m1) ->
     state g1 = PLAYING ->
     frame L fuel inp g m = update_logic L inp g1 m1) /\
  (forall (fuel : nat) (inp : FrameInput) (g : Game) (m : Mem L),
     frame_inv g m -> state g <> GAME_OVER ->
     returns (frame L fuel inp g) m (fun g' m' =>
       exists g1 m1,
         fold_m L (f_events inp) (handle_event L fuel) g m = Val (g1, m1) /\
         running g' =
           (running g && negb (existsb (spec_exits (state g)) (f_events inp)))%bool /\
         (state g = PLAYING -> ~ In (KEYDOWN K_ESCAPE) (f_events inp) ->
          state g1 = PLAYING) /\
         (state g1 = PLAYING ->
            update_logic L inp g1 m1 = Val (g', m') /\
            (state g' = GAME_OVER \/ state g' = PLAYING) /\
            (state g' = GAME_OVER <->
             existsb (fun a => colliderect (rect (p_obj (players m' (player g'))))
                                           (rect (a_obj (asteroid_objs m' a))))
                     (asteroids m') = true)) /\
         (state g1 <> PLAYING -> g' = g1 /\ m' = m1))) /\
  (forall (fuel : nat) (g : Game) (e : Event) (m : Mem L),
     state g = GAME_OVER -> e <> KEYDOWN K_r ->
     exists g',
       handle_event L fuel g e m = Val (g', m) /\
       state g' = GAME_OVER /\
       running g' = (running g && negb (spec_exits GAME_OVER e))%bool) /\
  (forall (fuel : nat) (g : Game) (m : Mem L),
     state g = GAME_OVER -> spawn_fair L fuel (next_id m) ->
     returns (handle_event L fuel g (KEYDOWN K_r)) m (fun g' m' =>
       state g' = PLAYING /\ running g' = running g /\ fresh_session g' m')) /\
  (forall (fuel : nat) (inp : FrameInput) (g : Game) (m : Mem L),
     state g = GAME_OVER -> ~ In (KEYDOWN K_r) (f_events inp) ->
     exists g',
       frame L fuel inp g m = Val (g', m) /\
       state g' = GAME_OVER /\
       running g' =
         (running g && negb (existsb (spec_exits GAME_OVER) (f_events inp)))%bool) /\
  (forall (fuel : nat) (inp : FrameInput) (rest : list FrameInput)
          (g g1 : Game) (m m1 : Mem L),
     running g = true ->
     frame L fuel inp g m = Val (g1, m1) ->
     main_loop L fuel (inp :: rest) g m = main_loop L fuel rest g1 m1) /\
  (forall (fuel : nat) (g : Game) (m : Mem L),
     main_loop L fuel [] g m = Val (g, m)) /\
  (forall (fuel : nat) (inp : FrameInput) (rest : list FrameInput)
          (g : Game) (m : Mem L),
     frame_inv g m -> state g <> GAME_OVER -> running g = true ->
     In QUIT (f_events inp) ->
     returns (frame L fuel inp g) m (fun g' m' =>
       running g' = false /\
       main_loop L fuel (inp :: rest) g m = Val (g', m'))) /\
  (forall (fuel : nat) (inp : FrameInput) (rest : list FrameInput)
          (g : Game) (m : Mem L),
     state g = GAME_OVER -> running g = true ->
     ~ In (KEYDOWN K_r) (f_events inp) ->
     In QUIT (f_events inp) \/ In (KEYDOWN K_q) (f_events inp) ->
     exists g',
       main_loop L fuel (inp :: rest) g m = Val (g', m) /\
       running g' = false /\ state g' = GAME_OVER).
Proof.
  assert (Hstop : forall (fuel : nat) (inputs : list FrameInput) (g : Game)
                         (m : Mem L),
            running g = false -> main_loop L fuel inputs g m = Val (g, m)).
  { intros fuel inputs g m Hr. destruct inputs; simpl; rewrite Hr; reflexivity. }
  assert (Hover : forall (fuel : nat) (inp : FrameInput) (g : Game) (m : Mem L),
     state g = GAME_OVER -> ~ In (KEYDOWN K_r) (f_events inp) ->
     exists g',
       frame L fuel inp g m = Val (g', m) /\
       state g' = GAME_OVER /\
       running g' =
         (running g && negb (existsb (spec_exits GAME_OVER) (f_events inp)))%bool).
  { intros fuel inp g m Hs Hno.
    destruct (game_over_events fuel m (f_events inp) g Hs Hno)
      as (g' & Hrun & Hs' & Hr' & _).
    exists g'. unfold frame, bind. rewrite Hrun, Hs'.
    split; [reflexivity|]. split; [reflexivity|exact Hr']. }
  split; [|split; [|split; [|split; [|split; [|split; [|split]]]]]].
  - intros fuel g e m Hinv Hs.
    eapply returns_conseq; [apply handle_event_live; assumption|].
    cbv beta. intros g' m' (_ & Hst & _ & Hr & _). split; assumption.
  - intros fuel g e m Hs.
    eapply ensures_conseq; [apply handle_event_game_over; exact Hs|].
    cbv beta. intros g' m' (Hst & Hr & Hreset & Hother).
    split; [exact Hst|]. split; [exact Hr|]. split.
    + intros He. now destruct (Hreset He).
    + intros He. now destruct (Hother He).
  - intros fuel g e m Hs.
    destruct (handle_event_paused fuel g e m Hs) as (g' & Hrun & _ & _ & _ & Hsp).
    exists g'. split; assumption.
  - intros fuel inp g m Hs Hno.
    destruct (paused_events fuel m (f_events inp) g Hs Hno)
      as (g' & Hrun & Hs' & Hsc & Hp).
    exists g'. unfold frame, bind. rewrite Hrun, Hs'.
    split; [reflexivity|]. repeat split; assumption.
  - intros fuel inp g g1 m m1 Hrun Hs.
    unfold frame, bind. rewrite Hrun.
    destruct (state g1); try reflexivity. congruence.
  - intros inp g m Hinv Hs.
    eapply returns_conseq; [apply update_logic_returns; exact Hinv|].
    cbv beta. intros g' m' (_ & _ & Hr & _ & _ & Hst).
    split; [exact Hr|]. rewrite Hst, Hs.
    destruct (existsb _ (asteroids m')).
    + split; [now left|]. split; reflexivity.
    + split; [now right|]. split; discriminate.
  - exact Hstop.
  - split; [|split; [|split; [|split; [|split; [|split; [|split; [|split]]]]]]].
    + intros fuel inp g g1 m m1 Hrun Hs.
      unfold frame, bind. rewrite Hrun, Hs. reflexivity.
    + intros fuel inp g m Hinv Hs. now apply frame_live_steps.
    + intros fuel g e m Hs He.
      destruct (handle_event_game_over_idle fuel g e m Hs He)
        as (g' & Hrun & Hs' & Hr' & _).
      exists g'. repeat split; assumption.
    + intros fuel g m Hs Hfair.
      eapply returns_conseq; [apply restart_returns; eassumption|].
      cbv beta. intros g' m' (H1 & H2 & H3 & _).
      split; [exact H1|]. split; assumption.
    + exact Hover.
    + intros fuel inp rest g g1 m m1 Hr Hrun.
      simpl. rewrite Hr. unfold bind. rewrite Hrun. reflexivity.
    + intros fuel g m. simpl. destruct (running g); reflexivity.
    + intros fuel inp rest g m Hinv Hs Hr Hq.
      destruct (frame_live_steps fuel inp g m Hinv Hs)
        as (g' & m' & Hrun & g1 & m1 & _ & Hr' & _).
      assert (Hoff : running g' = false).
      { rewrite Hr', Hr. cbn [andb].
        assert (Hex : existsb (spec_exits (state g)) (f_events inp) = true).
        { apply existsb_exists. exists QUIT. split; [exact Hq|].
          destruct (state g); reflexivity. }
        rewrite Hex. reflexivity. }
      exists g', m'. split; [exact Hrun|]. split; [exact Hoff|].
      simpl. rewrite Hr. unfold bind. rewrite Hrun. now apply Hstop.
    + intros fuel inp rest g m Hs Hr Hno Hq.
      destruct (Hover fuel inp g m Hs Hno) as (g' & Hrun & Hs' & Hr').
      assert (Hoff : running g' = false).
      { rewrite Hr', Hr. cbn [andb].
        assert (Hex : existsb (spec_exits GAME_OVER) (f_events inp) = true).
        { apply existsb_exists. destruct Hq as [Hq|Hq].
          - exists QUIT. split; [exact Hq|reflexivity].
          - exists (KEYDOWN K_q). split; [exact Hq|reflexivity]. }
        rewrite Hex. reflexivity. }
      exists g'. split; [|split; assumption].
      simpl. rewrite Hr. unfold bind. rewrite Hrun. now apply Hstop.
Qed.

(** The score across a frame that starts outside GameOver: the events
    leave it alone, and the update block, which runs when the state after
    the events is Playing, adds what the overlapping (bullet, asteroid)
    pairs found after the sprites moved are worth. *)
Lemma frame_score (fuel : nat) (inp : FrameInput) (g : Game) (m : Mem L) :
  frame_inv g m -> state g <> GAME_OVER ->
  returns (frame L fuel inp g) m (fun g' m' =>
    (0 <= score g <= score g')%Z /\ frame_inv g' m' /\
    exists g1 m1,
      fold_m L (f_events inp) (handle_event L fuel) g m = Val (g1, m1) /\
      score g1 = score g /\
      (state g1 <> PLAYING -> score g' = score g) /\
      (state g1 = PLAYING ->
       exists m2,
         move_sprites L inp g1 m1 = Val (tt, m2) /\
         score g' = (score g + pair_score m2)%Z)).
Proof.
  intros Hinv Hs. pose proof Hinv as (_ & _ & _ & H0).
  destruct (live_events fuel g m (f_events inp) Hinv Hs)
    as (g1 & m1 & Hev & Hi1 & _ & Hsc1 & _).
  destruct (state g1) eqn:E.
  2: { destruct (update_logic_returns L inp g1 m1 Hi1)
         as (g' & m' & Hup & Hi' & _ & _ & Hle & (m2 & Hmove & _ & Hsc) & _).
       exists g', m'. split.
       { unfold frame, bind. rewrite Hev, E. exact Hup. }
       split; [lia|]. split; [exact Hi'|].
       exists g1, m1. split; [exact Hev|]. split; [exact Hsc1|].
       split; [intros H; congruence|]. intros _.
       exists m2. split; [exact Hmove|].
       rewrite Hsc, pair_score_hit_pairs, Hsc1. reflexivity. }
  all: exists g1, m1; (split; [unfold frame, bind; rewrite Hev, E; reflexivity|]);
       (split; [lia|]); (split; [exact Hi1|]);
       exists g1, m1; (split; [exact Hev|]); (split; [exact Hsc1|]);
       (split; [intros _; exact Hsc1|]);
       intros H; rewrite E in H; discriminate.
Qed.

(** C6, as the code has it: the score grows by ten times the size of the
    hit asteroid for every overlapping (bullet, asteroid) pair, not for
    every asteroid destroyed.  A frame that starts outside GameOver returns
    and leaves a score that is not negative and not below the score before;
    its events leave the score alone, and when the state after the events
    is Playing the new score is the old score plus [10 * size a * k a]
    summed over the asteroids [a] of the group, where [k a] is the number of
    bullets whose rect overlaps that of [a] after the sprites moved;
    otherwise the score stays.  The update block and the collision pass add
    exactly this sum, and the pass destroys exactly the asteroids with
    [k a > 0].  One run of the loop body on an asteroid of size [s] adds
    [10 * s], which is 30 for size 3, and two runs on the same asteroid,
    as happen when two bullets overlap it, add [20 * s].  When no asteroid
    is overlapped by two bullets, the pass adds ten times the size of each
    asteroid it destroys.  No event handled outside GameOver changes the
    score, and after any sequence of frames that [main] runs from its start
    the score is not negative. *)
Theorem score_ten_per_overlapping_pair :
  (forall (fuel : nat) (inp : FrameInput) (g : Game) (m : Mem L),
     frame_inv g m -> state g <> GAME_OVER ->
     returns (frame L fuel inp g) m (fun g' m' =>
       (0 <= score g <= score g')%Z /\ frame_inv g' m' /\
       exists g1 m1,
         fold_m L (f_events inp) (handle_event L fuel) g m = Val (g1, m1) /\
         score g1 = score g /\
         (state g1 <> PLAYING -> score g' = score g) /\
         (state g1 = PLAYING ->
          exists m2,
            move_sprites L inp g1 m1 = Val (tt, m2) /\
            score g' = (score g + pair_score m2)%Z))) /\
  (forall (inp : FrameInput) (g : Game) (m : Mem L),
     frame_inv g m ->
     returns (update_logic L inp g) m (fun g' m' =>
       exists m1,
         move_sprites L inp g m = Val (tt, m1) /\
         bullet_collisions L (score g) m1 = Val (score g', m') /\
         score g' = (score g + pair_score m1)%Z)) /\
  (forall (sc : Z) (m : Mem L),
     Mem_inv m ->
     returns (bullet_collisions L sc) m (fun sc' m' =>
       sc' = (sc + pair_score m)%Z /\ (sc <= sc')%Z /\
       destroyed m m' = hit_asteroids m)) /\
  (forall (sc : Z) (m : Mem L),
     Mem_inv m ->
     (forall a, In a (asteroids m) -> bullets_over m a <= 1) ->
     ten_per_destroyed L sc m) /\
  (forall (sc : Z) (a : nat) (m : Mem L),
     Mem_inv m -> a < next_id m -> Asteroid_inv (asteroid_objs m a) ->
     returns (hit_asteroid L sc a) m (fun sc' _ =>
       sc' = (sc + 10 * size (asteroid_objs m a))%Z /\
       (size (asteroid_objs m a) = 3%Z -> sc' = (sc + 30)%Z))) /\
  (forall (sc : Z) (a : nat) (m : Mem L),
     Mem_inv m -> a < next_id m -> Asteroid_inv (asteroid_objs m a) ->
     returns (bind (hit_asteroid L sc a) (fun sc1 => hit_asteroid L sc1 a)) m
       (fun sc' _ => sc' = (sc + 20 * size (asteroid_objs m a))%Z)) /\
  (forall (fuel : nat) (g : Game) (e : Event) (m : Mem L),
     frame_inv g m -> state g <> GAME_OVER ->
     returns (handle_event L fuel g e) m (fun g' _ => score g' = score g)) /\
  (forall (fuel : nat) (inputs : list FrameInput) (m : Mem L),
     ensures (main L fuel inputs) m (fun g _ => (0 <= score g)%Z)).
Proof.
  split; [|split; [|split; [|split; [|split; [|split; [|split]]]]]].
  - intros fuel inp g m Hinv Hs. now apply frame_score.
  - intros inp g m Hinv.
    eapply returns_conseq; [apply update_logic_returns; exact Hinv|].
    cbv beta. intros g' m' (_ & _ & _ & _ & (m1 & Hmove & Hcol & Hsc) & _).
    exists m1. split; [exact Hmove|]. split; [exact Hcol|].
    rewrite Hsc, pair_score_hit_pairs. reflexivity.
  - intros sc m Hinv. now apply bullet_collisions_score.
  - intros sc m Hinv Hone.
    destruct (bullet_collisions_score L sc m Hinv)
      as (sc' & m' & Hrun & Hsc & _ & Hd).
    exists sc', m'. split; [exact Hrun|].
    rewrite Hd, Hsc, (pair_score_single L m Hone). reflexivity.
  - intros sc a m (_ & _ & Hast & _ & Hall) Ha Hi.
    eapply returns_conseq.
    + apply hit_asteroid_returns; [exact Ha|exact Hi| |exact Hall].
      intros x Hx. now apply Hast.
    + cbv beta. intros sc' m' (Hsc & _). split; [exact Hsc|].
      intros H3. rewrite Hsc, H3. reflexivity.
  - intros sc a m (_ & _ & Hast & _ & Hall) Ha Hi.
    apply hit_twice_returns; [exact Ha|exact Hi| |exact Hall].
    intros x Hx. now apply Hast.
  - intros fuel g e m Hinv Hs.
    eapply returns_conseq; [apply handle_event_live; assumption|].
    cbv beta. intros g' m' (_ & _ & _ & _ & Hsc & _). exact Hsc.
  - intros fuel inputs m. unfold main. apply ensures_bind.
    eapply ensures_conseq; [apply startup_ensures|].
    cbv beta. intros g m1 (Hinv & _).
    eapply ensures_conseq; [apply main_loop_ensures; exact Hinv|].
    cbv beta. intros g' m' H. apply H.
Qed.

End GameLoop.

(** ** Wrapping, exactly and on doubles *)

(** *** IEEE rounding, as far as the modulo needs it

    The modulo of Python adds the divisor to a negative remainder, and this
    sum is rounded.  The lemmas below follow the specification of binary64
    arithmetic that Rocq's primitive floats are axiomatised by
    ([SpecFloat], [FloatAxioms]): rounding a number that is representable
    is exact, and rounding is monotone against a representable bound. *)

Module Doubles.
Import PrimFloat SpecFloat FloatOps FloatAxioms FloatLemmas.
Local Open Scope Z_scope.

(** A positive number of [d] binary digits lies between [2^(d-1)] and [2^d]. *)
Lemma digits2_bounds (p : positive) :
  2 ^ (Zpos (digits2_pos p) - 1) <= Zpos p < 2 ^ Zpos (digits2_pos p).
Proof.
  induction p as [p IH|p IH|]; cbn [digits2_pos].
  - rewrite Pos2Z.inj_succ.
    replace (Z.succ (Zpos (digits2_pos p)) - 1) with (Z.succ (Zpos (digits2_pos p) - 1)) by lia.
    rewrite !Z.pow_succ_r by lia. lia.
  - rewrite Pos2Z.inj_succ.
    replace (Z.succ (Zpos (digits2_pos p)) - 1) with (Z.succ (Zpos (digits2_pos p) - 1)) by lia.
    rewrite !Z.pow_succ_r by lia. lia.
  - simpl. lia.
Qed.

(** These bounds determine the number of digits. *)
Lemma digits2_unique (p : positive) (k : Z) :
  2 ^ (k - 1) <= Zpos p < 2 ^ k -> Zpos (digits2_pos p) = k.
Proof.
  intros [Hl Hu]. pose proof (digits2_bounds p) as [Dl Du].
  set (d := Zpos (digits2_pos p)) in *.
  assert (0 < d) by (unfold d; lia).
  destruct (Z.lt_trichotomy d k) as [H1|[H1|H1]]; [|exact H1|].
  - assert (2 ^ d <= 2 ^ (k - 1)) by (apply Z.pow_le_mono_r; lia). lia.
  - destruct (Z_lt_le_dec k 0) as [Hk|Hk].
    + rewrite (Z.pow_neg_r 2 k Hk) in Hu. lia.
    + assert (2 ^ k <= 2 ^ (d - 1)) by (apply Z.pow_le_mono_r; lia). lia.
Qed.

(** Appending [d] zero bits multiplies by [2^d]. *)
Lemma iter_xO (m d : positive) : Zpos (Pos.iter xO m d) = Zpos m * 2 ^ Zpos d.
Proof.
  change (Pos.iter xO m d) with (shift_pos d m).
  rewrite shift_pos_correct. unfold Z.pow. lia.
Qed.

(** The iterator of the IEEE specification is plain iteration. *)
Lemma iter_pos_nat {A : Type} (f : A -> A) (p : positive) :
  forall x, iter_pos f p x = Nat.iter (Pos.to_nat p) f x.
Proof.
  induction p as [p IH|p IH|]; intros x; cbn [iter_pos].
  - rewrite !IH, Pos2Nat.inj_xI, <- Nat.iter_add.
    replace (S (2 * Pos.to_nat p)) with (S (Pos.to_nat p + Pos.to_nat p))%nat by lia.
    rewrite <- Nat.iter_succ_r. reflexivity.
  - rewrite !IH, Pos2Nat.inj_xO, <- Nat.iter_add. f_equal. lia.
  - reflexivity.
Qed.

(** One more right shift. *)
Lemma shifted_step (z : Z) (k : nat) (mrs : shr_record) :
  0 <= z -> Binary64.shifted z k mrs -> Binary64.shifted z (S k) (shr_1 mrs).
Proof.
  intros Hz [Hm Hrs]. destruct mrs as [m r s]. cbn [shr_m shr_r shr_s] in *.
  assert (Hp : 0 < 2 ^ Z.of_nat k) by (apply Z.pow_pos_nonneg; lia).
  assert (Hm0 : 0 <= m) by (rewrite Hm; apply Z.div_pos; lia).
  assert (Hq : z / 2 ^ Z.of_nat (S k) = m / 2).
  { rewrite Nat2Z.inj_succ, Z.pow_succ_r by lia.
    rewrite (Z.mul_comm 2), <- Z.div_div by lia. now rewrite Hm. }
  assert (Hr : z mod 2 ^ Z.of_nat (S k) = z mod 2 ^ Z.of_nat k + 2 ^ Z.of_nat k * (m mod 2)).
  { rewrite Nat2Z.inj_succ, Z.pow_succ_r by lia.
    rewrite (Z.mul_comm 2), Z.rem_mul_r by lia. now rewrite Hm. }
  assert (Hb1 : 0 <= z mod 2 ^ Z.of_nat k) by (apply Z.mod_pos_bound; lia).
  assert (Hb2 : 0 <= m mod 2 < 2) by (apply Z.mod_pos_bound; lia).
  unfold Binary64.shifted. rewrite Hq, Hr.
  assert (Hiff : forall (m' : Z) (r' : bool),
            m' = m / 2 -> (r' = false <-> m mod 2 = 0) ->
            shr_m (Build_shr_record m' r' (r || s)) = m / 2 /\
            (r' || (r || s) = false <->
             z mod 2 ^ Z.of_nat k + 2 ^ Z.of_nat k * (m mod 2) = 0)).
  { intros m' r' -> Hr'. split; [reflexivity|].
    rewrite orb_false_iff, Hr', Hrs. split.
    - intros [-> ->]. lia.
    - intros H. assert (2 ^ Z.of_nat k * (m mod 2) >= 0) by nia. 
      split; [|lia]. destruct (Z.eq_dec (m mod 2) 0); [assumption|]. nia. }
  destruct m as [|[p|p|]|p]; cbn [shr_1]; try lia.
  - apply Hiff; [reflexivity|]. split; reflexivity.
  - apply Hiff.
    + rewrite Pos2Z.inj_xI. Z.to_euclidean_division_equations. lia.
    + split; [discriminate|]. rewrite Pos2Z.inj_xI.
      Z.to_euclidean_division_equations. lia.
  - apply Hiff.
    + rewrite Pos2Z.inj_xO. Z.to_euclidean_division_equations. lia.
    + split; [|reflexivity]. intros _. rewrite Pos2Z.inj_xO.
      Z.to_euclidean_division_equations. lia.
  - apply Hiff; [reflexivity|]. split; [discriminate|].
    Z.to_euclidean_division_equations. lia.
Qed.

(** [k] right shifts of an exact mantissa. *)
Lemma shifted_iter (z : Z) (k : nat) :
  0 <= z -> Binary64.shifted z k (Nat.iter k shr_1 (Build_shr_record z false false)).
Proof.
  intros Hz. induction k as [|k IH].
  - simpl. split; cbn [shr_m shr_r shr_s].
    + now rewrite Z.div_1_r.
    + rewrite Z.mod_1_r. split; reflexivity.
  - cbn [Nat.iter]. now apply shifted_step.
Qed.

(** Shifting right by [n] bits and rounding to nearest yields the quotient
    or the next integer, and the quotient itself when the division is
    exact. *)
Lemma shr_round (z : Z) (n : positive) :
  0 <= z ->
  let mrs := iter_pos shr_1 n (Build_shr_record z false false) in
  let m2 := round_nearest_even (shr_m mrs) (loc_of_shr_record mrs) in
  z / 2 ^ Zpos n <= m2 <= z / 2 ^ Zpos n + 1 /\
  (z mod 2 ^ Zpos n = 0 -> m2 = z / 2 ^ Zpos n).
Proof.
  intros Hz mrs m2. subst m2 mrs. rewrite iter_pos_nat.
  destruct (shifted_iter z (Pos.to_nat n) Hz) as [Hm Hrs].
  rewrite positive_nat_Z in Hm, Hrs.
  destruct (Nat.iter (Pos.to_nat n) shr_1 (Build_shr_record z false false))
    as [m r s]. cbn [shr_m shr_r shr_s] in *. subst m.
  destruct r, s; cbn [loc_of_shr_record round_nearest_even].
  - split; [lia|]. intros H. apply Hrs in H. discriminate.
  - split; [destruct (Z.even _); lia|]. intros H. apply Hrs in H. discriminate.
  - split; [lia|]. intros H. apply Hrs in H. discriminate.
  - split; [lia|]. reflexivity.
Qed.

(** The exponent of the double format for a number of [x] leading bits. *)
Lemma fexp_eq (x : Z) : fexp prec emax x = Z.max (x - 53) (-1074).
Proof. reflexivity. Qed.

(** A mantissa that fits its exponent is kept. *)
Lemma finalize_fits (s : bool) (m : positive) (f : Z) :
  fexp prec emax (Zpos (digits2_pos m) + f) = f ->
  Binary64.finalize s (Zpos m) f =
  if f <=? emax - prec then S754_finite s m f else S754_infinity s.
Proof.
  intros Hf. unfold Binary64.finalize, shr_fexp. cbn [Zdigits2].
  rewrite Hf, Z.sub_diag. reflexivity.
Qed.

(** A mantissa that carried into the 54th bit is shifted once more. *)
Lemma finalize_carry (s : bool) (f : Z) :
  -1075 <= f ->
  Binary64.finalize s (2 ^ 53) f =
  if f + 1 <=? emax - prec then S754_finite s (Z.to_pos (2 ^ 52)) (f + 1)
  else S754_infinity s.
Proof.
  intros Hf. unfold Binary64.finalize, shr_fexp.
  change (Zdigits2 (2 ^ 53)) with 54.
  rewrite fexp_eq.
  replace (Z.max (54 + f - 53) (-1074) - f) with 1 by lia.
  reflexivity.
Qed.

(** Rounding a mantissa that needs no right shift is exact. *)
Lemma binary_round_exact_left (s : bool) (p : positive) (e f : Z) :
  f = fexp prec emax (Zpos (digits2_pos p) + e) ->
  f <= e ->
  binary_round prec emax s p e =
  if f <=? emax - prec
  then S754_finite s (Z.to_pos (Zpos p * 2 ^ (e - f))) f
  else S754_infinity s.
Proof.
  intros Hf Hle. unfold binary_round. rewrite <- Hf.
  assert (Hal : exists mz,
            shl_align p e f = (mz, f) /\ Zpos mz = Zpos p * 2 ^ (e - f)).
  { unfold shl_align. destruct (f - e) as [|d|d] eqn:Ed; try lia.
    - exists p. assert (He : e = f) by lia. rewrite He at 1.
      split; [reflexivity|]. replace (e - f) with 0 by lia. lia.
    - exists (Pos.iter xO p d). split; [reflexivity|].
      rewrite iter_xO. f_equal. f_equal. lia. }
  destruct Hal as (mz & -> & Hmz).
  assert (Hd : Zpos (digits2_pos mz) = Zpos (digits2_pos p) + (e - f)).
  { apply digits2_unique. rewrite Hmz.
    pose proof (digits2_bounds p) as [Dl Du].
    replace (Zpos (digits2_pos p) + (e - f) - 1)
      with ((Zpos (digits2_pos p) - 1) + (e - f)) by lia.
    rewrite !Z.pow_add_r by lia.
    assert (0 < 2 ^ (e - f)) by (apply Z.pow_pos_nonneg; lia). nia. }
  unfold binary_round_aux, shr_fexp. cbn [Zdigits2].
  rewrite Hd.
  replace (Zpos (digits2_pos p) + (e - f) + f) with (Zpos (digits2_pos p) + e) by lia.
  rewrite <- Hf, Z.sub_diag. cbn [shr shr_record_of_loc shr_m loc_of_shr_record
                                   round_nearest_even Zdigits2].
  rewrite Hd.
  replace (Zpos (digits2_pos p) + (e - f) + f) with (Zpos (digits2_pos p) + e) by lia.
  rewrite <- Hf, Z.sub_diag. cbn [shr shr_m shr_record_of_loc].
  rewrite <- Hmz, Pos2Z.id. reflexivity.
Qed.

(** Rounding a mantissa that is shifted right by [n] bits. *)
Lemma binary_round_right (s : bool) (p : positive) (e f : Z) :
  f = fexp prec emax (Zpos (digits2_pos p) + e) ->
  e < f ->
  exists m2,
    Zpos p / 2 ^ (f - e) <= m2 <= Zpos p / 2 ^ (f - e) + 1 /\
    (Zpos p mod 2 ^ (f - e) = 0 -> m2 = Zpos p / 2 ^ (f - e)) /\
    binary_round prec emax s p e = Binary64.finalize s m2 f.
Proof.
  intros Hf Hlt. unfold binary_round. rewrite <- Hf.
  assert (Hal : shl_align p e f = (p, e)).
  { unfold shl_align. destruct (f - e) eqn:Ed; try lia; reflexivity. }
  rewrite Hal. unfold binary_round_aux, shr_fexp at 1. cbn [Zdigits2]. rewrite <- Hf.
  destruct (f - e) as [|n|n] eqn:En; try lia.
  cbn [shr shr_record_of_loc].
  destruct (shr_round (Zpos p) n ltac:(lia)) as [Hb Hex]. cbv zeta in Hb, Hex.
  eexists. split; [exact Hb|]. split; [exact Hex|].
  replace (e + Zpos n) with f by lia. reflexivity.
Qed.


(** A mantissa of at most 53 bits over an exponent that is not below the
    least one is a double: building it with [SF2Prim] gives the canonical
    form of the same number. *)
Lemma SF2Prim_finite (s : bool) (r : positive) (e f : Z) :
  Zpos (digits2_pos r) <= 53 -> -1074 <= e ->
  Zpos (digits2_pos r) + e <= 1024 ->
  f = fexp prec emax (Zpos (digits2_pos r) + e) ->
  f <= e /\
  Prim2SF (SF2Prim (S754_finite s r e))
  = S754_finite s (Z.to_pos (Zpos r * 2 ^ (e - f))) f.
Proof.
  intros Hd He Hmax Hf. rewrite fexp_eq in Hf.
  set (d := Zpos (digits2_pos r)) in *.
  assert (Hd1 : 1 <= d) by (unfold d; lia).
  pose proof (digits2_bounds r) as [Dl Du]. fold d in Dl, Du.
  split; [lia|].
  cbn [SF2Prim].
  set (pm := of_uint63 (Uint63Axioms.of_Z (Zpos r))).
  set (m1 := Z.to_pos (Zpos r * 2 ^ (53 - d))).
  assert (Hm1 : Zpos m1 = Zpos r * 2 ^ (53 - d)).
  { unfold m1. apply Z2Pos.id.
    assert (0 < 2 ^ (53 - d)) by (apply Z.pow_pos_nonneg; lia). nia. }
  assert (Hpm : Prim2SF pm = S754_finite false m1 (d - 53)).
  { unfold pm. rewrite of_uint63_spec, Uint63.of_Z_spec.
    rewrite Z.mod_small.
    2:{ split; [lia|]. apply Z.lt_le_trans with (2 ^ d); [exact Du|].
        change Uint63.wB with (2 ^ 63). apply Z.pow_le_mono_r; lia. }
    cbn [binary_normalize].
    rewrite (binary_round_exact_left false r 0 (d - 53)).
    - replace (d - 53 <=? emax - prec) with true
        by (symmetry; apply Z.leb_le; unfold emax, prec; lia).
      replace (0 - (d - 53)) with (53 - d) by lia. reflexivity.
    - rewrite fexp_eq. fold d. lia.
    - lia. }
  assert (Hdm1 : Zpos (digits2_pos m1) = 53).
  { apply digits2_unique. rewrite Hm1.
    assert (E1 : 2 ^ (53 - 1) = 2 ^ (d - 1) * 2 ^ (53 - d))
      by (rewrite <- Z.pow_add_r by lia; f_equal; lia).
    assert (E2 : 2 ^ 53 = 2 ^ d * 2 ^ (53 - d))
      by (rewrite <- Z.pow_add_r by lia; f_equal; lia).
    assert (0 < 2 ^ (53 - d)) by (apply Z.pow_pos_nonneg; lia).
    rewrite E1, E2. split.
    - apply Z.mul_le_mono_nonneg_r; lia.
    - apply Z.mul_lt_mono_pos_r; lia. }
  assert (Hld : Prim2SF (Z.ldexp pm e)
                = S754_finite false (Z.to_pos (Zpos r * 2 ^ (e - f))) f).
  { rewrite Z_ldexp_spec, Hpm. cbn [SFldexp].
    assert (Hf2 : f = fexp prec emax (Zpos (digits2_pos m1) + (d - 53 + e))).
    { rewrite Hdm1, fexp_eq. lia. }
    assert (Hfle : (f <=? emax - prec) = true)
      by (apply Z.leb_le; unfold emax, prec; lia).
    destruct (Z_le_gt_dec f (d - 53 + e)) as [Hc|Hc].
    - rewrite (binary_round_exact_left false m1 (d - 53 + e) f Hf2 Hc), Hfle.
      f_equal. f_equal. rewrite Hm1, <- Z.mul_assoc, <- Z.pow_add_r by lia.
      f_equal. f_equal. lia.
    - destruct (binary_round_right false m1 (d - 53 + e) f Hf2 ltac:(lia))
        as (m2 & _ & Hex & ->).
      set (n := f - (d - 53 + e)) in *.
      assert (Hn : 0 < n <= 53 - d) by (unfold n; lia).
      assert (Hsplit : Zpos m1 = Zpos r * 2 ^ (e - f) * 2 ^ n).
      { rewrite Hm1, <- Z.mul_assoc, <- Z.pow_add_r by lia.
        f_equal. f_equal. unfold n. lia. }
      assert (Hpn : 0 < 2 ^ n) by (apply Z.pow_pos_nonneg; lia).
      assert (Hpe : 0 < 2 ^ (e - f)) by (apply Z.pow_pos_nonneg; lia).
      assert (Hm2 : m2 = Zpos r * 2 ^ (e - f)).
      { rewrite Hex.
        - rewrite Hsplit. apply Z.div_mul. lia.
        - rewrite Hsplit. apply Z.mod_mul. lia. }
      assert (Hpos : 0 < m2) by (rewrite Hm2; nia).
      destruct m2 as [|q|q]; try lia.
      rewrite finalize_fits, Hfle.
      + f_equal. rewrite <- Hm2. reflexivity.
      + assert (Hdq : Zpos (digits2_pos q) = d + (e - f)).
        { apply digits2_unique. rewrite Hm2.
          replace (d + (e - f) - 1) with ((d - 1) + (e - f)) by lia.
          rewrite !Z.pow_add_r by lia. nia. }
        rewrite Hdq, fexp_eq. lia. }
  destruct s.
  - rewrite opp_spec, Hld. reflexivity.
  - exact Hld.
Qed.

(** Rounding is monotone against a double: a positive number below the
    double [N * 2^E] rounds to a double that is not above it. *)
Lemma binary_round_below (z : positive) (e : Z) (N : positive) (E : Z) :
  -1074 <= e <= E -> E <= 971 ->
  2 ^ 52 <= Zpos N < 2 ^ 53 ->
  Zpos z < Zpos N * 2 ^ (E - e) ->
  exists m' e',
    binary_round prec emax false z e = S754_finite false m' e' /\
    (e' < E \/ (e' = E /\ Zpos m' <= Zpos N)).
Proof.
  intros He HE HN Hz.
  set (d := Zpos (digits2_pos z)).
  pose proof (digits2_bounds z) as [Dl Du]. fold d in Dl, Du.
  assert (Hd1 : 1 <= d) by (unfold d; lia).
  assert (HpE : 0 < 2 ^ (E - e)) by (apply Z.pow_pos_nonneg; lia).
  assert (HdE : d + e - 53 <= E).
  { assert (Hlt : 2 ^ (d - 1) < 2 ^ (53 + (E - e))).
    { rewrite Z.pow_add_r by lia. nia. }
    apply Z.pow_lt_mono_r_iff in Hlt; lia. }
  set (f := fexp prec emax (d + e)).
  assert (Hf : f = Z.max (d + e - 53) (-1074)) by apply fexp_eq.
  assert (Hfle : forall x, x <= 971 -> (x <=? emax - prec) = true)
    by (intros x Hx; apply Z.leb_le; unfold emax, prec; lia).
  destruct (Z_le_gt_dec f e) as [Hc|Hc].
  - rewrite (binary_round_exact_left false z e f eq_refl Hc), Hfle by lia.
    eexists; eexists; split; [reflexivity|].
    assert (Hpf : 0 < 2 ^ (e - f)) by (apply Z.pow_pos_nonneg; lia).
    destruct (Z_lt_le_dec f E) as [Hl|Hg]; [now left|right].
    assert (e = E) by lia. assert (f = E) by lia.
    split; [assumption|].
    rewrite Z2Pos.id by nia.
    replace (e - f) with 0 by lia. replace (E - e) with 0 in Hz by lia.
    simpl in *. lia.
  - assert (Hfd : f = d + e - 53) by lia.
    set (n := f - e) in *.
    assert (Hn : 0 < n) by (unfold n; lia).
    assert (Hpn : 0 < 2 ^ n) by (apply Z.pow_pos_nonneg; lia).
    destruct (binary_round_right false z e f eq_refl ltac:(lia))
      as (m2 & Hb & _ & ->). fold n in Hb.
    assert (Hq : 2 ^ 52 <= Zpos z / 2 ^ n < 2 ^ 53).
    { assert (E1 : 2 ^ (d - 1) = 2 ^ 52 * 2 ^ n)
        by (rewrite <- Z.pow_add_r by lia; f_equal; unfold n; lia).
      assert (E2 : 2 ^ d = 2 ^ 53 * 2 ^ n)
        by (rewrite <- Z.pow_add_r by lia; f_equal; unfold n; lia).
      split.
      - apply Z.div_le_lower_bound; lia.
      - apply Z.div_lt_upper_bound; lia. }
    assert (HqN : f = E -> Zpos z / 2 ^ n < Zpos N).
    { intros HfE. apply Z.div_lt_upper_bound; [lia|].
      replace n with (E - e) by (unfold n; lia). lia. }
    destruct (Z.eq_dec m2 (2 ^ 53)) as [Hcarry|Hno].
    + subst m2. rewrite finalize_carry by lia.
      assert (f < E) by (destruct (Z.eq_dec f E) as [HfE|]; [apply HqN in HfE|]; lia).
      rewrite Hfle by lia.
      eexists; eexists; split; [reflexivity|].
      destruct (Z_lt_le_dec (f + 1) E) as [Hl|Hg]; [now left|right].
      split; [lia|]. change (Zpos (Z.to_pos (2 ^ 52))) with (2 ^ 52). lia.
    + assert (Hm2 : 2 ^ 52 <= m2 < 2 ^ 53) by lia.
      destruct m2 as [|q|q]; try lia.
      assert (Hdq : Zpos (digits2_pos q) = 53) by (apply digits2_unique; exact Hm2).
      rewrite finalize_fits by (rewrite Hdq, fexp_eq; lia).
      rewrite Hfle by lia.
      eexists; eexists; split; [reflexivity|].
      destruct (Z_lt_le_dec f E) as [Hl|Hg]; [now left|right].
      assert (HfE : f = E) by lia. split; [exact HfE|].
      apply HqN in HfE. lia.
Qed.

(** *** The modulo of doubles by a positive divisor between 512 and 1024 *)

Lemma finite_cases (x : float) :
  Binary64.is_finite x = true ->
  (exists s, Prim2SF x = S754_zero s) \/
  (exists s m e, Prim2SF x = S754_finite s m e).
Proof.
  unfold Binary64.is_finite. rewrite ltb_spec, abs_spec.
  change (Prim2SF infinity) with (S754_infinity false).
  destruct (Prim2SF x) as [s|s| |s m e]; cbn; intros H; try discriminate.
  - left. now exists s.
  - right. now exists s, m, e.
Qed.

(** The mantissa of a double has at most 53 bits, its exponent is between
    -1074 and 971. *)
Lemma finite_valid (x : float) (s : bool) (m : positive) (e : Z) :
  Prim2SF x = S754_finite s m e ->
  Zpos (digits2_pos m) <= 53 /\ -1074 <= e <= 971.
Proof.
  intros H. pose proof (Prim2SF_valid x) as V. rewrite H in V.
  unfold SpecFloat.valid_binary, bounded, canonical_mantissa in V.
  apply andb_true_iff in V as [V1 V2].
  apply Z.eqb_eq in V1. apply Z.leb_le in V2.
  rewrite fexp_eq in V1. unfold emax, prec in V2. lia.
Qed.

Section Divisor.
Variable W : float.
Variable N : positive.
Hypothesis HW : Prim2SF W = S754_finite false N (-43).
Hypothesis HN : 2 ^ 52 <= Zpos N < 2 ^ 53.

(** The divisor is not zero, and it is positive. *)
Lemma divisor_not_zero : PrimFloat.eqb W zero = false.
Proof. rewrite eqb_spec, HW. reflexivity. Qed.

Lemma divisor_positive : ltb W zero = false.
Proof. rewrite ltb_spec, HW. reflexivity. Qed.

Lemma zero_below_divisor : leb zero W = true /\ ltb zero W = true.
Proof. rewrite leb_spec, ltb_spec, HW. split; reflexivity. Qed.

(** A positive double below the divisor, by exponent and mantissa. *)
Lemma below_divisor (x : float) (m : positive) (e : Z) :
  Prim2SF x = S754_finite false m e ->
  e <= -43 -> Zpos m < Zpos N * 2 ^ (-43 - e) ->
  leb zero x = true /\ ltb x W = true.
Proof.
  intros Hx He Hm. rewrite leb_spec, ltb_spec, Hx, HW.
  split; [reflexivity|].
  unfold SFltb, SFcompare.
  destruct (Z.compare_spec e (-43)) as [E|E|E]; try reflexivity; [|lia].
  subst e. change (-43 - -43) with 0 in Hm.
  change (Pos.compare_cont Eq m N) with (Pos.compare m N).
  replace (Pos.compare m N) with Lt; [reflexivity|].
  symmetry. apply Pos.compare_lt_iff. lia.
Qed.

(** A positive double that is not above the divisor. *)
Lemma not_above_divisor (x : float) (m : positive) (e : Z) :
  Prim2SF x = S754_finite false m e ->
  e < -43 \/ (e = -43 /\ Zpos m <= Zpos N) ->
  leb zero x = true /\ leb x W = true.
Proof.
  intros Hx He. rewrite !leb_spec, Hx, HW.
  split; [reflexivity|].
  unfold SFleb, SFcompare.
  destruct (Z.compare_spec e (-43)) as [E|E|E]; try reflexivity; [|lia].
  destruct He as [He|[_ Hm]]; [lia|].
  change (Pos.compare_cont Eq m N) with (Pos.compare m N).
  destruct (Pos.compare_spec m N) as [C|C|C]; try reflexivity. lia.
Qed.

(** The modulo of a finite, non-zero double. *)
Lemma float_rem_finite (v : float) (s : bool) (mx : positive) (ex : Z) :
  Prim2SF v = S754_finite s mx ex ->
  exists r,
    Binary64.float_rem v W = Val r /\
    leb zero r = true /\ leb r W = true /\
    (s = false -> ltb r W = true).
Proof.
  intros Hv. destruct (finite_valid v s mx ex Hv) as [Hdx Hex].
  pose proof (digits2_bounds mx) as [_ Dux].
  assert (Hmx : Zpos mx < 2 ^ 53).
  { apply Z.lt_le_trans with (1 := Dux). apply Z.pow_le_mono_r; lia. }
  unfold Binary64.float_rem. rewrite divisor_not_zero, divisor_positive.
  cbv zeta.
  set (e := Z.min ex (-43)).
  set (D := Zpos N * 2 ^ (-43 - e)).
  assert (Hfmod : Binary64.fmod v W =
            match (Zpos mx * 2 ^ (ex - e)) mod D with
            | Zpos p => SF2Prim (S754_finite s p e)
            | _ => if s then neg_zero else zero
            end).
  { unfold Binary64.fmod. rewrite Hv, HW. reflexivity. }
  assert (HD : 0 < D).
  { unfold D. assert (0 < 2 ^ (-43 - e)) by (apply Z.pow_pos_nonneg; lia). nia. }
  pose proof (Z.mod_pos_bound (Zpos mx * 2 ^ (ex - e)) D HD) as Hr.
  rewrite Hfmod.
  destruct ((Zpos mx * 2 ^ (ex - e)) mod D) as [|p|p] eqn:Er; [| |lia].
  - (* the remainder is zero *)
    exists zero.
    replace (PrimFloat.eqb (if s then neg_zero else zero) zero) with true
      by (destruct s; reflexivity).
    destruct zero_below_divisor as [Z1 Z2].
    split; [reflexivity|]. split; [reflexivity|]. split; [exact Z1|].
    intros _. exact Z2.
  - (* a non-zero remainder [p * 2^e] *)
    assert (Hp53 : Zpos p < 2 ^ 53).
    { destruct (Z_le_gt_dec ex (-43)) as [Hc|Hc].
      - assert (He : e = ex) by (unfold e; lia).
        assert (Zpos p <= Zpos mx * 2 ^ (ex - e)).
        { rewrite <- Er. apply Z.mod_le; [|lia].
          assert (0 < 2 ^ (ex - e)) by (apply Z.pow_pos_nonneg; lia). nia. }
        rewrite He, Z.sub_diag in H. simpl in H. lia.
      - assert (He : e = -43) by (unfold e; lia).
        unfold D in Hr. rewrite He in Hr. change (-43 - -43) with 0 in Hr.
        simpl in Hr. lia. }
    set (d := Zpos (digits2_pos p)).
    pose proof (digits2_bounds p) as [Dl Du]. fold d in Dl, Du.
    assert (Hd1 : 1 <= d) by (unfold d; lia).
    assert (Hd : d <= 53).
    { assert (Hlt : 2 ^ (d - 1) < 2 ^ 53) by lia.
      apply Z.pow_lt_mono_r_iff in Hlt; lia. }
    assert (He43 : -1074 <= e <= -43) by (unfold e; lia).
    assert (Hde : d + e <= 10).
    { assert (Hlt : 2 ^ (d - 1) < 2 ^ (53 + (-43 - e))).
      { rewrite Z.pow_add_r by lia.
        assert (0 < 2 ^ (-43 - e)) by (apply Z.pow_pos_nonneg; lia).
        unfold D in Hr. nia. }
      apply Z.pow_lt_mono_r_iff in Hlt; lia. }
    set (f := fexp prec emax (d + e)).
    assert (Hf : f = Z.max (d + e - 53) (-1074)) by apply fexp_eq.
    destruct (SF2Prim_finite s p e f ltac:(fold d; lia) ltac:(lia)
                ltac:(fold d; lia) eq_refl) as [Hfe Hm].
    set (p' := Z.to_pos (Zpos p * 2 ^ (e - f))) in *.
    assert (Hpf : 0 < 2 ^ (e - f)) by (apply Z.pow_pos_nonneg; lia).
    assert (Hp' : Zpos p' = Zpos p * 2 ^ (e - f)) by (unfold p'; apply Z2Pos.id; nia).
    assert (Hbelow : Zpos p' < Zpos N * 2 ^ (-43 - f)).
    { rewrite Hp'. replace (-43 - f) with ((-43 - e) + (e - f)) by lia.
      rewrite Z.pow_add_r, Z.mul_assoc by lia.
      apply Z.mul_lt_mono_pos_r; [lia|]. unfold D in Hr. lia. }
    set (m := SF2Prim (S754_finite s p e)) in *.
    assert (Hnz : PrimFloat.eqb m zero = false).
    { rewrite eqb_spec, Hm. destruct s; reflexivity. }
    assert (Hsign : ltb m zero = s).
    { rewrite ltb_spec, Hm. destruct s; reflexivity. }
    rewrite Hnz, Hsign.
    destruct s; cbn [Bool.eqb].
    + (* negative remainder: the divisor is added, and the sum is rounded *)
      exists (m + W)%float. split; [reflexivity|].
      assert (Hadd : exists m' e',
                Prim2SF (m + W)%float = S754_finite false m' e' /\
                (e' < -43 \/ (e' = -43 /\ Zpos m' <= Zpos N))).
      { rewrite add_spec, Hm, HW. unfold SF64add, SFadd.
        replace (Z.min f (-43)) with f by lia.
        assert (Ha1 : fst (shl_align p' f f) = p').
        { unfold shl_align. rewrite Z.sub_diag. reflexivity. }
        assert (Ha2 : Zpos (fst (shl_align N (-43) f)) = Zpos N * 2 ^ (-43 - f)).
        { unfold shl_align. destruct (f - -43) as [|q|q] eqn:Eq; try lia.
          - replace (-43 - f) with 0 by lia. cbn [fst]. lia.
          - cbn [fst]. rewrite iter_xO. f_equal. f_equal. lia. }
        rewrite Ha1. cbn [cond_Zopp].
        set (z := fst (shl_align N (-43) f)) in *.
        destruct (- Zpos p' + Zpos z) as [|zz|zz] eqn:Ez; try lia.
        cbn [binary_normalize].
        apply (binary_round_below zz f N (-43)); lia. }
      destruct Hadd as (m' & e' & Hsum & Hle).
      destruct (not_above_divisor _ _ _ Hsum Hle) as [L1 L2].
      split; [exact L1|]. split; [exact L2|]. discriminate.
    + (* positive remainder: it is the result *)
      exists m. split; [reflexivity|].
      destruct (below_divisor m p' f Hm ltac:(lia) Hbelow) as [L1 L2].
      split; [exact L1|]. split; [|intros _; exact L2].
      rewrite leb_spec. rewrite ltb_spec in L2.
      unfold SFleb. unfold SFltb in L2.
      destruct (SFcompare (Prim2SF m) (Prim2SF W)) as [[| |]|]; try discriminate.
      reflexivity.
Qed.

(** The modulo of any finite double lies between 0 and the divisor. *)
Lemma float_rem_closed_range (v : float) :
  Binary64.is_finite v = true ->
  exists r,
    Binary64.float_rem v W = Val r /\
    leb zero r = true /\ leb r W = true /\
    (leb zero v = true -> ltb r W = true).
Proof.
  intros Hfin.
  destruct (finite_cases v Hfin) as [[s Hv]|(s & mx & ex & Hv)].
  - exists zero. destruct zero_below_divisor as [Z1 Z2].
    unfold Binary64.float_rem. rewrite divisor_not_zero, divisor_positive.
    cbv zeta.
    assert (Hfmod : Binary64.fmod v W = v).
    { unfold Binary64.fmod. rewrite Hv, HW. reflexivity. }
    rewrite Hfmod.
    replace (PrimFloat.eqb v zero) with true
      by (rewrite eqb_spec, Hv; destruct s; reflexivity).
    split; [reflexivity|]. split; [reflexivity|]. split; [exact Z1|].
    intros _. exact Z2.
  - destruct (float_rem_finite v s mx ex Hv) as (r & Hr & L1 & L2 & L3).
    exists r. split; [exact Hr|]. split; [exact L1|]. split; [exact L2|].
    intros Hpos. apply L3.
    rewrite leb_spec, Hv in Hpos. destruct s; [discriminate|reflexivity].
Qed.

(** Inside the half-open range the modulo changes nothing: it returns its
    argument, or +0.0 for -0.0. *)
Lemma float_rem_inside (v : float) :
  leb zero v = true -> ltb v W = true ->
  exists r,
    Binary64.float_rem v W = Val r /\ PrimFloat.eqb r v = true /\
    leb zero r = true /\ ltb r W = true.
Proof.
  intros Hlo0 Hhi0. pose proof Hlo0 as Hlo. pose proof Hhi0 as Hhi.
  rewrite leb_spec in Hlo. rewrite ltb_spec, HW in Hhi.
  unfold Binary64.float_rem. rewrite divisor_not_zero, divisor_positive.
  cbv zeta.
  destruct (Prim2SF v) as [s|s| |s mx ex] eqn:Hv; try discriminate.
  - exists zero.
    assert (Hfmod : Binary64.fmod v W = v).
    { unfold Binary64.fmod. rewrite Hv, HW. reflexivity. }
    rewrite Hfmod.
    replace (PrimFloat.eqb v zero) with true
      by (rewrite eqb_spec, Hv; destruct s; reflexivity).
    split; [reflexivity|].
    split; [rewrite eqb_spec, Hv; destruct s; reflexivity|].
    split; [reflexivity|]. apply zero_below_divisor.
  - destruct s; discriminate.
  - destruct s; [discriminate|].
    destruct (finite_valid v false mx ex Hv) as [Hdx Hex].
    pose proof (digits2_bounds mx) as [_ Dux].
    assert (Hmx : Zpos mx < 2 ^ 53).
    { apply Z.lt_le_trans with (1 := Dux). apply Z.pow_le_mono_r; lia. }
    assert (Hcmp : ex < -43 \/ (ex = -43 /\ Zpos mx < Zpos N)).
    { unfold SFltb, SFcompare in Hhi.
      destruct (Z.compare_spec ex (-43)) as [E|E|E]; try discriminate.
      - right. split; [exact E|].
        change (Pos.compare_cont Eq mx N) with (Pos.compare mx N) in Hhi.
        destruct (Pos.compare_spec mx N) as [C|C|C]; try discriminate. lia.
      - now left. }
    assert (He : Z.min ex (-43) = ex) by lia.
    assert (Hsmall : Zpos mx < Zpos N * 2 ^ (-43 - ex)).
    { destruct Hcmp as [Hc|[Hc Hm]].
      - assert (2 ^ 1 <= 2 ^ (-43 - ex)) by (apply Z.pow_le_mono_r; lia).
        change (2 ^ 1) with 2 in H. nia.
      - rewrite Hc. change (-43 - -43) with 0. simpl. lia. }
    assert (Hfmod : Binary64.fmod v W = v).
    { unfold Binary64.fmod. rewrite Hv, HW. cbv zeta. rewrite He, Z.sub_diag.
      change (2 ^ 0) with 1. rewrite Z.mul_1_r, Z.mod_small by lia.
      rewrite <- Hv. apply SF2Prim_Prim2SF. }
    rewrite Hfmod.
    replace (PrimFloat.eqb v zero) with false
      by (rewrite eqb_spec, Hv; reflexivity).
    replace (ltb v zero) with false by (rewrite ltb_spec, Hv; reflexivity).
    cbn [Bool.eqb]. exists v. split; [reflexivity|].
    split; [|split; assumption].
    rewrite eqb_spec, Hv. unfold SFeqb, SFcompare.
    rewrite Z.compare_refl.
    change (Pos.compare_cont Eq mx mx) with (Pos.compare mx mx).
    now rewrite Pos.compare_refl.
Qed.

End Divisor.

(** The two divisors of [wrap_position]: 800 = 7036874417766400 * 2^-43 and
    600 = 5277655813324800 * 2^-43. *)
Lemma divisor_800 :
  Prim2SF 800%float = S754_finite false 7036874417766400 (-43).
Proof. reflexivity. Qed.

Lemma divisor_600 :
  Prim2SF 600%float = S754_finite false 5277655813324800 (-43).
Proof. reflexivity. Qed.

(** [wrap_position] never raises, whatever the doubles are. *)
Lemma wrap_position_total (p : float * float) :
  exists q, Binary64.wrap_position p = Val q.
Proof.
  unfold Binary64.wrap_position, Binary64.float_rem.
  change (PrimFloat.eqb 800 zero) with false.
  change (PrimFloat.eqb 600 zero) with false.
  cbv zeta.
  destruct (PrimFloat.eqb (Binary64.fmod (fst p) 800) zero);
    [|destruct (Bool.eqb _ _)];
    (destruct (PrimFloat.eqb (Binary64.fmod (snd p) 600) zero);
       [|destruct (Bool.eqb _ _)]);
    cbn [res_bind]; eexists; reflexivity.
Qed.

(** [wrap_position] of a position with finite coordinates. *)
Lemma wrap_position_finite (p : float * float) :
  Binary64.finite p = true ->
  exists q,
    Binary64.wrap_position p = Val q /\
    Binary64.within q = true /\
    (Binary64.nonneg p = true -> Binary64.inside q = true).
Proof.
  unfold Binary64.finite. intros Hfin.
  apply andb_true_iff in Hfin as [Hx Hy].
  assert (H800 : 2 ^ 52 <= 7036874417766400 < 2 ^ 53) by (split; [discriminate | reflexivity]).
  assert (H600 : 2 ^ 52 <= 5277655813324800 < 2 ^ 53) by (split; [discriminate | reflexivity]).
  destruct (float_rem_closed_range 800 _ divisor_800 H800 (fst p) Hx)
    as (x & Rx & X1 & X2 & X3).
  destruct (float_rem_closed_range 600 _ divisor_600 H600 (snd p) Hy)
    as (y & Ry & Y1 & Y2 & Y3).
  exists (x, y). unfold Binary64.wrap_position. rewrite Rx, Ry.
  split; [reflexivity|].
  unfold Binary64.within, Binary64.inside, Binary64.nonneg. cbn [fst snd].
  change 0%float with zero. rewrite X1, X2, Y1, Y2.
  split; [reflexivity|].
  intros Hnn. apply andb_true_iff in Hnn as [Nx Ny].
  rewrite (X3 Nx), (Y3 Ny). reflexivity.
Qed.

(** [wrap_position] of a position inside the screen. *)
Lemma wrap_position_inside (p : float * float) :
  Binary64.inside p = true ->
  exists q,
    Binary64.wrap_position p = Val q /\
    Binary64.same q p = true /\ Binary64.inside q = true.
Proof.
  unfold Binary64.inside. intros Hin.
  apply andb_true_iff in Hin as [Hin Hy2].
  apply andb_true_iff in Hin as [Hin Hy1].
  apply andb_true_iff in Hin as [Hx1 Hx2].
  assert (H800 : 2 ^ 52 <= 7036874417766400 < 2 ^ 53) by (split; [discriminate | reflexivity]).
  assert (H600 : 2 ^ 52 <= 5277655813324800 < 2 ^ 53) by (split; [discriminate | reflexivity]).
  destruct (float_rem_inside 800 _ divisor_800 H800 (fst p) Hx1 Hx2)
    as (x & Rx & X1 & X2 & X3).
  destruct (float_rem_inside 600 _ divisor_600 H600 (snd p) Hy1 Hy2)
    as (y & Ry & Y1 & Y2 & Y3).
  exists (x, y). unfold Binary64.wrap_position. rewrite Rx, Ry.
  split; [reflexivity|].
  unfold Binary64.same. cbn [fst snd]. change 0%float with zero.
  rewrite X1, X2, X3, Y1, Y2, Y3. split; reflexivity.
Qed.

End Doubles.




(** ** The statements at concrete inputs *)

Lemma double_hit_mem_inv : Mem_inv double_hit_mem.
Proof.
  unfold Mem_inv, double_hit_mem. mem_simpl.
  split; [repeat constructor; simpl; tauto|].
  split; [repeat constructor; simpl; intuition lia|].
  split; [|split].
  - intros a [<-|[]]. split; [lia|]. unfold Asteroid_inv. simpl. lia.
  - intros b [<-|[<-|[]]]; lia.
  - intros r [<-|[<-|[<-|[<-|[]]]]]; simpl; lia.
Qed.

Lemma demo_spawn_fair (p : nat) : spawn_fair demo_library 1 p.
Proof.
  intros m Hpos. unfold spawn_position.
  apply returns_bind. unfold returns at 1, m_randrange. simpl.
  eexists; eexists; split; [reflexivity|]. cbv beta.
  apply returns_bind. unfold returns at 1, m_randrange. simpl.
  eexists; eexists; split; [reflexivity|]. cbv beta.
  apply returns_bind, returns_gets. mem_simpl. rewrite Hpos.
  destruct (Rgt_dec (distance_to (mkVector2 0 0) screen_centre) 200) as [_|Hn].
  - now apply returns_ret.
  - exfalso. apply Hn. unfold distance_to, screen_centre. simpl.
    replace ((0 - 400) * (0 - 400) + (0 - 300) * (0 - 300))%R
      with (500 * 500)%R by ring.
    rewrite sqrt_square by lra. lra.
Qed.

(** C1 at a concrete memory: two bullets over one large asteroid give two
    hits, 60 points and four fragments. *)
Lemma collision_pass_per_pair_witness :
  returns (bullet_collisions demo_library 0) double_hit_mem (fun sc' m' =>
    sc' = 60%Z /\ length (asteroids m') = 4).
Proof.
  eapply returns_conseq.
  - apply (collision_pass_per_pair demo_library 0 double_hit_mem).
    exact double_hit_mem_inv.
  - cbv beta. intros sc' m' (Hsc & _ & _ & frs & Has & _ & _ & Hsz).
    split; [rewrite Hsc; reflexivity|].
    rewrite Has, length_app.
    rewrite <- (length_map (fun f => size (asteroid_objs m' f)) frs), Hsz.
    reflexivity.
Defined.

(** C1 as stated fails at that memory: the asteroid is overlapped by two
    bullets in one frame; the pass returns 60 points, not 30, and leaves
    four fragments, not two. *)
Lemma double_hit_counterexample :
  (exists m',
     bullet_collisions demo_library 0 double_hit_mem = Val (60%Z, m') /\
     length (asteroids m') = 4) /\
  ~ one_hit_per_asteroid demo_library 0 double_hit_mem.
Proof.
  destruct (bullet_collisions_returns demo_library 0 double_hit_mem double_hit_mem_inv)
    as (sc' & m' & Hrun & Hsc & _ & _ & _ & _ & _ & _ & frs & Has & _ & _ & Hsz).
  assert (Hlen : length (asteroids m') = 4).
  { rewrite Has, length_app.
    rewrite <- (length_map (fun f => size (asteroid_objs m' f)) frs), Hsz.
    reflexivity. }
  assert (H60 : sc' = 60%Z) by (rewrite Hsc; reflexivity).
  subst sc'. split.
  - exists m'. split; assumption.
  - intros (sc2 & m2 & Hrun2 & Hsc2 & Hlen2).
    rewrite Hrun in Hrun2. injection Hrun2 as E1 E2.
    rewrite <- E1 in Hsc2. vm_compute in Hsc2. discriminate.
Qed.

(** C2 at the large asteroid of the concrete memory. *)
Lemma break_apart_fragmentation_law_witness :
  exists f1 f2 m',
    break_apart demo_library 1 double_hit_mem = Val ([f1; f2], m') /\
    size (asteroid_objs m' f1) = 2%Z /\ size (asteroid_objs m' f2) = 2%Z /\
    pos (a_obj (asteroid_objs m' f1)) = mkVector2 50 50 /\
    pos (a_obj (asteroid_objs m' f2)) = mkVector2 50 50.
Proof.
  destruct (proj2 (break_apart_fragmentation_law demo_library double_hit_mem 1))
    as (f1 & f2 & m' & Hrun & _ & H1 & H2 & P1 & P2).
  - simpl. lia.
  - unfold Asteroid_inv. simpl. lia.
  - exists f1, f2, m'. repeat split; assumption.
Defined.

(** C3 at a ship at rest with every key held. *)
Lemma speed_clamp_invariant_witness :
  exists p',
    handle_input demo_library (Player_init demo_library screen_centre) all_keys 1
    = Val p' /\
    (vlength (velocity (p_obj p')) <= 6)%R.
Proof.
  destruct (proj1 (speed_clamp_invariant demo_library)
              (Player_init demo_library screen_centre) all_keys 1%R)
    as (p' & Hrun & _ & Hm & Hv).
  - apply Player_init_inv.
  - change (vlength (mkVector2 0 0) <= 6)%R. rewrite vlength_zero. lra.
  - lra.
  - exists p'. split; [exact Hrun|]. rewrite <- Hm. exact Hv.
Defined.

(** C5 at a paused game: the fire key changes neither game nor memory. *)
Lemma state_machine_closure_witness :
  exists g',
    handle_event demo_library 1 (mkGame 0 0 PAUSED true) (KEYDOWN K_SPACE)
                 double_hit_mem
    = Val (g', double_hit_mem) /\
    g' = mkGame 0 0 PAUSED true.
Proof.
  destruct (proj1 (proj2 (proj2 (state_machine_closure demo_library)))
              1 (mkGame 0 0 PAUSED true) (KEYDOWN K_SPACE) double_hit_mem)
    as (g' & Hrun & Hsame).
  - reflexivity.
  - exists g'. split; [exact Hrun|]. now apply Hsame.
Defined.

(** C6 at the large asteroid of the concrete memory: the loop body run
    twice on it, once for each of the two bullets, adds 60. *)
Lemma score_ten_per_overlapping_pair_witness :
  returns (bind (hit_asteroid demo_library 0 1)
                (fun sc1 => hit_asteroid demo_library sc1 1))
          double_hit_mem
    (fun sc' _ => sc' = 60%Z).
Proof.
  eapply returns_conseq.
  - apply (proj1 (proj2 (proj2 (proj2 (proj2 (proj2
             (score_ten_per_overlapping_pair demo_library))))))
             0%Z 1 double_hit_mem).
    + exact double_hit_mem_inv.
    + simpl. lia.
    + unfold Asteroid_inv. simpl. lia.
  - cbv beta. intros sc' m' Hsc. rewrite Hsc. reflexivity.
Defined.

(** C6 as stated fails at that memory: the pass destroys one asteroid, of
    size 3, and the score grows by 60, not by 30. *)
Lemma score_per_destroyed_counterexample :
  (exists m',
     bullet_collisions demo_library 0 double_hit_mem = Val (60%Z, m') /\
     destroyed double_hit_mem m' = [1] /\
     size (asteroid_objs double_hit_mem 1) = 3%Z) /\
  ~ ten_per_destroyed demo_library 0 double_hit_mem.
Proof.
  destruct (bullet_collisions_score demo_library 0 double_hit_mem double_hit_mem_inv)
    as (sc' & m' & Hrun & Hsc & _ & Hd).
  assert (H60 : sc' = 60%Z) by (rewrite Hsc; reflexivity).
  assert (H1 : destroyed double_hit_mem m' = [1]) by (rewrite Hd; reflexivity).
  subst sc'. split.
  - exists m'. split; [exact Hrun|]. split; [exact H1|reflexivity].
  - intros (sc2 & m2 & Hrun2 & Hsc2).
    rewrite Hrun in Hrun2. injection Hrun2 as E1 E2.
    rewrite <- E2, H1, <- E1 in Hsc2. vm_compute in Hsc2. discriminate.
Qed.

(** C7 with the concrete library, whose first draw is accepted. *)
Lemma reset_gives_fresh_session_witness :
  returns (reset_game demo_library 1) double_hit_mem (fun ps m' =>
    snd ps = 0%Z /\ fresh_session (mkGame (fst ps) (snd ps) PLAYING true) m').
Proof.
  apply (proj1 (proj2 (reset_gives_fresh_session demo_library 1 double_hit_mem))).
  apply demo_spawn_fair.
Defined.

(** C9 at a ship at rest with every key held. *)
Lemma handle_input_total_witness :
  exists p',
    handle_input demo_library (Player_init demo_library screen_centre) all_keys 1
    = Val p'.
Proof.
  apply (handle_input_total demo_library). reflexivity.
Defined.

(** C10 at the large asteroid of the concrete memory. *)
Lemma break_apart_keeps_parent_witness :
  returns (break_apart demo_library 1) double_hit_mem (fun _ m' =>
    asteroid_objs m' 1 = demo_asteroid) /\
  returns (hit_asteroid demo_library 0 1) double_hit_mem (fun sc' m' =>
    sc' = 30%Z /\ ~ In 1 (asteroids m')).
Proof.
  destruct (break_apart_keeps_parent demo_library double_hit_mem 1) as [Hb Hh].
  - simpl. lia.
  - unfold Asteroid_inv. simpl. lia.
  - apply double_hit_mem_inv.
  - apply double_hit_mem_inv.
  - split.
    + eapply returns_conseq; [exact Hb|]. cbv beta. intros frs m' (H & _). exact H.
    + eapply returns_conseq; [exact (Hh 0%Z)|]. cbv beta.
      intros sc' m' (Hsc & Hout & _). split; [exact Hsc|exact Hout].
Defined.

(** * Properties of the rest of the code *)

(** ** Directions *)

Section MoreGeometry.
Local Open Scope R_scope.

(** A direction has length 1. *)
Lemma angle_to_vector_length (angle_deg : R) :
  vlength (angle_to_vector angle_deg) = 1.
Proof.
  unfold vlength, angle_to_vector. cbn [vx vy].
  set (rad := radians angle_deg).
  replace (cos rad * cos rad + - sin rad * - sin rad)
    with (Rsqr (sin rad) + Rsqr (cos rad)) by (unfold Rsqr; ring).
  rewrite sin2_cos2. apply sqrt_1.
Qed.

End MoreGeometry.

(** ** Moving and steering *)

Section MoreObjects.
Variable L : Library.
Local Open Scope R_scope.


Lemma vlength_sqr (v : Vector2) :
  vlength v * vlength v = vx v * vx v + vy v * vy v.
Proof.
  unfold vlength. apply sqrt_sqrt.
  pose proof (Rle_0_sqr (vx v)). pose proof (Rle_0_sqr (vy v)).
  unfold Rsqr in *. lra.
Qed.

(** Cauchy-Schwarz in the plane. *)
Lemma dot_le_lengths (a b : Vector2) :
  vx a * vx b + vy a * vy b <= vlength a * vlength b.
Proof.
  pose proof (vlength_nonneg a) as Ha. pose proof (vlength_nonneg b) as Hb.
  pose proof (vlength_sqr a) as Sa. pose proof (vlength_sqr b) as Sb.
  set (A := vlength a) in *. set (B := vlength b) in *.
  destruct (Rle_or_lt (vx a * vx b + vy a * vy b) (A * B)) as [H|H]; [exact H|].
  exfalso.
  assert (H0 : 0 <= A * B) by (apply Rmult_le_pos; assumption).
  assert (H1 : (A * B) * (A * B)
               < (vx a * vx b + vy a * vy b) * (vx a * vx b + vy a * vy b)) by nra.
  assert (H2 : (A * B) * (A * B)
               = (vx a * vx a + vy a * vy a) * (vx b * vx b + vy b * vy b))
    by (rewrite <- Sa, <- Sb; ring).
  pose proof (Rle_0_sqr (vx a * vy b - vy a * vx b)) as H3. unfold Rsqr in H3.
  nra.
Qed.

Lemma vlength_triangle (a b : Vector2) :
  vlength (vadd a b) <= vlength a + vlength b.
Proof.
  pose proof (vlength_nonneg a) as Ha. pose proof (vlength_nonneg b) as Hb.
  pose proof (vlength_nonneg (vadd a b)) as Hc.
  pose proof (vlength_sqr a) as Sa. pose proof (vlength_sqr b) as Sb.
  pose proof (vlength_sqr (vadd a b)) as Sc. cbn [vadd vx vy] in Sc.
  pose proof (dot_le_lengths a b) as Hd.
  set (A := vlength a) in *. set (B := vlength b) in *.
  set (C := vlength (vadd a b)) in *.
  destruct (Rle_or_lt C (A + B)) as [H|H]; [exact H|]. exfalso. nra.
Qed.

Lemma vlength_triangle_rev (a b : Vector2) :
  vlength a - vlength b <= vlength (vadd a b).
Proof.
  pose proof (vlength_triangle (vadd a b) (vscale b (-1))) as H.
  replace (vadd (vadd a b) (vscale b (-1))) with a in H.
  - rewrite vlength_vscale in H.
    replace (Rabs (-1)) with 1 in H
      by (unfold Rabs; destruct (Rcase_abs (-1)); lra).
    lra.
  - destruct a, b. unfold vadd, vscale. cbn [vx vy]. f_equal; ring.
Qed.

End MoreObjects.

(** ** Bullets *)

Section MoreBullets.
Variable L : Library.
Local Open Scope R_scope.

(** The bullet object that [shoot] creates. *)
Lemma shoot_bullet (self : nat) (now : Z) (m : Mem L) :
  returns (shoot L self now) m (fun b m' =>
    let o := p_obj (players m self) in
    let direction := angle_to_vector (angle o) in
    b = next_id m /\
    bullet_objs m' b =
      mkBullet
        (GameObject_init L (heart_image L)
           (vadd (pos o) (vscale direction (IZR (r_w (rect o) / 2))))
           (Some (vadd (vscale direction 10) (velocity o))) 0)
        2000 (fst (get_ticks L (world m))) /\
    players m' = upd (players m) self (set_last_shot_time (players m self) now) /\
    all_sprites m' = all_sprites m /\ bullets m' = bullets m /\
    asteroids m' = asteroids m).
Proof.
  unfold shoot. mstep. mstep. mstep. mstep. mem_simpl.
  unfold Bullet_new, returns, bind, m_get_ticks, new_bullet. mem_simpl.
  destruct (get_ticks L (world m)) as [t w]. mem_simpl.
  eexists; eexists; split; [reflexivity|]. mem_simpl.
  rewrite !upd_same. cbn [p_obj set_last_shot_time].
  repeat split.
Qed.

(** X6: the cooldown law.  After [shoot(now)] the player can shoot again
    at time [t] exactly when [t - now] is at least the cooldown, and the
    cooldown is still the one the player had (250 ms from the constructor);
    a newly built player, whose last shot time is 0, can shoot exactly when
    the clock shows at least 250. *)
Theorem shoot_then_can_shoot (self : nat) (now : Z) (m : Mem L) :
  returns (shoot L self now) m (fun _ m' =>
    forall t : Z,
      can_shoot (players m' self) t = true <->
      (t - now >= shot_cooldown (players m self))%Z) /\
  (forall (p : Vector2) (t : Z),
     can_shoot (Player_init L p) t = true <-> (t >= 250)%Z).
Proof.
  split.
  - eapply returns_conseq; [apply shoot_bullet|].
    cbv beta zeta. intros b m' (_ & _ & Hp & _). intros t.
    rewrite Hp, upd_same. unfold can_shoot.
    cbn [last_shot_time shot_cooldown set_last_shot_time].
    rewrite Z.geb_le. lia.
  - intros p t. unfold can_shoot. cbn [last_shot_time shot_cooldown Player_init].
    rewrite Z.geb_le. lia.
Qed.

(** X7: the bullet that [shoot] creates.  It starts at the ship's position
    plus the ship's direction times [rect.width // 2]; its velocity is the
    direction times 10 plus the ship's velocity, so that the bullet of a
    ship no faster than 6 moves at a speed between 3.99 and 16.01 (the
    muzzle speed 10, plus or minus the ship's speed); it has lifetime
    2000 ms, the current clock reading as spawn time, angle 0 and no spin. *)
Theorem shoot_bullet_kinematics (self : nat) (now : Z) (m : Mem L) :
  vlength (velocity (p_obj (players m self))) <= 6 ->
  returns (shoot L self now) m (fun b m' =>
    let o := p_obj (players m self) in
    let direction := angle_to_vector (angle o) in
    let bullet := bullet_objs m' b in
    pos (b_obj bullet) =
      vadd (pos o) (vscale direction (IZR (r_w (rect o) / 2))) /\
    velocity (b_obj bullet) = vadd (vscale direction 10) (velocity o) /\
    399 / 100 <= vlength (velocity (b_obj bullet)) <= 1601 / 100 /\
    lifetime bullet = 2000%Z /\
    spawn_time bullet = fst (get_ticks L (world m)) /\
    angle (b_obj bullet) = 0 /\ rotation_speed (b_obj bullet) = 0).
Proof.
  intros Hv.
  eapply returns_conseq; [apply shoot_bullet|].
  cbv beta zeta. intros b m' (_ & Hb & _). rewrite Hb.
  cbn [b_obj lifetime spawn_time GameObject_init velocity pos angle rotation_speed].
  rewrite vector_or_zero.
  set (o := p_obj (players m self)) in *.
  set (d := angle_to_vector (angle o)).
  assert (Hd : vlength d = 1) by apply angle_to_vector_length.
  assert (H10 : vlength (vscale d 10) = 10).
  { rewrite vlength_vscale, Hd, Rabs_right; lra. }
  split; [reflexivity|]. split; [reflexivity|].
  split; [split|repeat split].
  - pose proof (vlength_triangle_rev (vscale d 10) (velocity o)). lra.
  - pose proof (vlength_triangle (vscale d 10) (velocity o)). lra.
Qed.

(** X8: [Bullet.update] always returns.  With [t] the clock reading it
    takes, a bullet older than its lifetime ([t - spawn_time > lifetime])
    leaves both [bullets] and [all_sprites]; a younger one stays and both
    groups are unchanged.  In either case no other bullet enters or leaves
    the group, the asteroid group is untouched, and the bullet keeps its
    velocity, lifetime and spawn time. *)
Theorem Bullet_update_expiry (i : nat) (m : Mem L) :
  returns (Bullet_update L i) m (fun _ m' =>
    let t := fst (get_ticks L (world m)) in
    let b := bullet_objs m i in
    ((t - spawn_time b > lifetime b)%Z ->
       ~ In i (bullets m') /\ ~ In (RBullet i) (all_sprites m')) /\
    ((t - spawn_time b <= lifetime b)%Z ->
       bullets m' = bullets m /\ all_sprites m' = all_sprites m) /\
    (forall j, j <> i -> (In j (bullets m') <-> In j (bullets m))) /\
    asteroids m' = asteroids m /\
    velocity (b_obj (bullet_objs m' i)) = velocity (b_obj b) /\
    lifetime (bullet_objs m' i) = lifetime b /\
    spawn_time (bullet_objs m' i) = spawn_time b).
Proof.
  unfold Bullet_update. mstep. mstep.
  destruct (GameObject_update_returns L (b_obj (bullet_objs m i))) as (o' & Ho & Hv & _).
  apply returns_bind. eapply returns_lift; [exact Ho|]. mstep. mstep.
  apply returns_bind.
  unfold returns at 1, m_get_ticks. mem_simpl.
  destruct (get_ticks L (world m)) as [t w] eqn:Et.
  eexists; eexists; split; [reflexivity|]. cbv beta.
  mstep. mstep. mem_simpl. rewrite upd_same. cbn [spawn_time lifetime fst].
  destruct (t - spawn_time (bullet_objs m i) >? lifetime (bullet_objs m i))%Z eqn:E.
  - unfold kill_bullet. mstep. mem_simpl. rewrite upd_same.
    cbn [b_obj lifetime spawn_time].
    apply Z.gtb_lt in E.
    split.
    { intros _. split.
      - rewrite (In_group_remove Nat.eqb_eq). tauto.
      - rewrite (In_group_remove ref_eqb_eq). tauto. }
    split; [intros Hle; lia|].
    split.
    { intros j Hj. rewrite (In_group_remove Nat.eqb_eq). tauto. }
    repeat split; auto.
  - mstep. mem_simpl. rewrite upd_same. cbn [b_obj lifetime spawn_time].
    assert (Hle : (t - spawn_time (bullet_objs m i) <= lifetime (bullet_objs m i))%Z).
    { destruct (Z.gtb_spec (t - spawn_time (bullet_objs m i))
                           (lifetime (bullet_objs m i))); [discriminate|lia]. }
    split; [intros Hgt; lia|].
    split; [intros _; split; reflexivity|].
    split; [intros j _; tauto|].
    repeat split; auto.
Qed.

End MoreBullets.

(** ** The three groups stay in step *)

Section Keeping.
Variable L : Library.
Variable P : Mem L -> Prop.

Lemma keeps_ret {A : Type} (a : A) : keeps P (ret a).
Proof. intros m Hm a' m' E. now inversion E; subst. Qed.

Lemma keeps_bind {A B : Type} (c : M L A) (k : A -> M L B) :
  keeps P c -> (forall a, keeps P (k a)) -> keeps P (bind c k).
Proof.
  intros Hc Hk m Hm. apply ensures_bind.
  eapply ensures_conseq; [apply Hc; exact Hm|].
  cbv beta. intros a m1 H1. now apply Hk.
Qed.

Lemma keeps_gets {A : Type} (f : Mem L -> A) : keeps P (gets f).
Proof. intros m Hm a' m' E. now inversion E; subst. Qed.

Lemma keeps_lift {A : Type} (r : Res A) : keeps P (lift r).
Proof.
  intros m Hm a' m' E. unfold lift in E. destruct r; simpl in E; try discriminate.
  now inversion E; subst.
Qed.

Lemma keeps_modify (f : Mem L -> Mem L) :
  (forall m, P m -> P (f m)) -> keeps P (modify f).
Proof. intros Hf m Hm a' m' E. inversion E; subst. now apply Hf. Qed.

Lemma keeps_for_each {A : Type} (xs : list A) (body : A -> M L unit) :
  (forall x, keeps P (body x)) -> keeps P (for_each xs body).
Proof.
  intros Hbody. induction xs as [|x xs IH]; simpl.
  - apply keeps_ret.
  - apply keeps_bind; [apply Hbody|]. intros _. exact IH.
Qed.

Lemma keeps_fold_m {A B : Type} (xs : list A) (body : B -> A -> M L B) :
  (forall b x, keeps P (body b x)) -> forall b, keeps P (fold_m L xs body b).
Proof.
  intros Hbody. induction xs as [|x xs IH]; intros b; simpl.
  - apply keeps_ret.
  - apply keeps_bind; [apply Hbody|]. intros b'. apply IH.
Qed.

End Keeping.

Lemma In_group_add {A : Type} (eqb : A -> A -> bool)
    (eqb_eq : forall a b, eqb a b = true <-> a = b) (x y : A) (g : list A) :
  In y (group_add eqb x g) <-> y = x \/ In y g.
Proof.
  unfold group_add. destruct (existsb (eqb x) g) eqn:E.
  - apply existsb_exists in E as (z & Hz & Hxz). apply eqb_eq in Hxz. subst z.
    split; [now right|]. intros [->|H]; assumption.
  - rewrite in_app_iff. simpl. split.
    + intros [H|[->|[]]]; [now right|now left].
    + intros [->|H]; [right; now left|now left].
Qed.

Section Sync.
Variable L : Library.
Variable pl : nat.

(** Steps through a computation that keeps a property of the memory. *)
Ltac kstep :=
  first [ apply keeps_ret | apply keeps_gets | apply keeps_lift
        | apply keeps_bind; [|intro] ].

Lemma sync_world {A : Type} (f : ext L -> A * ext L) :
  keeps (groups_sync pl)
        (fun m : Mem L => let (x, w) := f (world m) in Val (x, set_world m w)).
Proof.
  intros m Hm a m' E. destruct (f (world m)) as [x w].
  inversion E; subst. exact Hm.
Qed.

Lemma sync_get_ticks : keeps (groups_sync pl) (m_get_ticks L).
Proof. apply (sync_world (get_ticks L)). Qed.

Lemma sync_uniform (a b : R) : keeps (groups_sync pl) (m_uniform L a b).
Proof. apply (sync_world (uniform L a b)). Qed.

Lemma sync_randrange (n : Z) : keeps (groups_sync pl) (m_randrange L n).
Proof. apply (sync_world (randrange L n)). Qed.

Lemma sync_new_asteroid (a : Asteroid) : keeps (groups_sync pl) (new_asteroid L a).
Proof. intros m Hm x m' E. inversion E; subst. exact Hm. Qed.

Lemma sync_new_bullet (b : Bullet) : keeps (groups_sync pl) (new_bullet L b).
Proof. intros m Hm x m' E. inversion E; subst. exact Hm. Qed.

Lemma sync_Asteroid_new (p : Vector2) (sz : Z) :
  keeps (groups_sync pl) (Asteroid_new L p sz).
Proof.
  unfold Asteroid_new. kstep; [kstep|].
  kstep; [apply sync_uniform|]. kstep; [apply sync_uniform|].
  cbv zeta. kstep; [apply sync_uniform|]. apply sync_new_asteroid.
Qed.

Lemma sync_break_apart (self : nat) : keeps (groups_sync pl) (break_apart L self).
Proof.
  unfold break_apart. kstep; [kstep|].
  destruct (a <=? 1)%Z; [kstep|]. kstep; [kstep|]. cbv zeta.
  generalize (@nil nat). generalize 2%nat.
  induction n as [|n IH]; intros frs; simpl.
  - kstep.
  - kstep; [kstep|]. kstep; [apply sync_Asteroid_new|]. apply IH.
Qed.

Lemma sync_kill_asteroid (a : nat) : keeps (groups_sync pl) (kill_asteroid L a).
Proof.
  apply keeps_modify. intros m Hm r. mem_simpl.
  rewrite (In_group_remove ref_eqb_eq), (Hm r).
  destruct r as [i|b|b]; try (split; [tauto|]; intros H; split; [exact H|discriminate]).
  rewrite (In_group_remove Nat.eqb_eq). split.
  - intros [H Hne]. split; [exact H|]. congruence.
  - intros [H Hne]. split; [exact H|]. congruence.
Qed.

Lemma sync_kill_bullet (b : nat) : keeps (groups_sync pl) (kill_bullet L b).
Proof.
  apply keeps_modify. intros m Hm r. mem_simpl.
  rewrite (In_group_remove ref_eqb_eq), (Hm r).
  destruct r as [i|a|c]; try (split; [tauto|]; intros H; split; [exact H|discriminate]).
  rewrite (In_group_remove Nat.eqb_eq). split.
  - intros [H Hne]. split; [exact H|]. congruence.
  - intros [H Hne]. split; [exact H|]. congruence.
Qed.

(** Each entity that joins a typed group joins [all_sprites] too. *)
Lemma sync_add_asteroid (f : nat) :
  keeps (groups_sync pl)
        (bind (all_sprites_add L (RAsteroid f)) (fun _ => asteroids_add L f)).
Proof.
  intros m Hm u m' E. inversion E; subst. intros r. mem_simpl.
  rewrite (In_group_add ref_eqb ref_eqb_eq), (Hm r).
  destruct r as [i|a|b]; try (split; [intros [H|H]; [discriminate|exact H]|tauto]).
  rewrite (In_group_add Nat.eqb Nat.eqb_eq). split.
  - intros [H|H]; [left; congruence|now right].
  - intros [H|H]; [left; congruence|now right].
Qed.

Lemma sync_add_bullet (f : nat) :
  keeps (groups_sync pl)
        (bind (all_sprites_add L (RBullet f)) (fun _ => bullets_add L f)).
Proof.
  intros m Hm u m' E. inversion E; subst. intros r. mem_simpl.
  rewrite (In_group_add ref_eqb ref_eqb_eq), (Hm r).
  destruct r as [i|a|b]; try (split; [intros [H|H]; [discriminate|exact H]|tauto]).
  rewrite (In_group_add Nat.eqb Nat.eqb_eq). split.
  - intros [H|H]; [left; congruence|now right].
  - intros [H|H]; [left; congruence|now right].
Qed.

Lemma sync_hit_asteroid (sc : Z) (a : nat) :
  keeps (groups_sync pl) (hit_asteroid L sc a).
Proof.
  unfold hit_asteroid. kstep; [apply sync_break_apart|].
  kstep; [apply sync_kill_asteroid|].
  kstep; [apply keeps_for_each; intros f; apply sync_add_asteroid|].
  kstep; kstep.
Qed.

Lemma sync_bullet_collisions (sc : Z) :
  keeps (groups_sync pl) (bullet_collisions L sc).
Proof.
  unfold bullet_collisions. kstep.
  - unfold groupcollide_bullets_asteroids. kstep; [kstep|].
    apply keeps_fold_m. intros crashed b.
    kstep; [kstep|]. kstep; [unfold spritecollide_asteroids; kstep|].
    destruct a1; [kstep|]. kstep; [apply sync_kill_bullet|kstep].
  - unfold resolve_hits. apply keeps_fold_m. intros sc1 hit.
    apply keeps_fold_m. intros sc2 x. apply sync_hit_asteroid.
Qed.

Lemma sync_sprite_update (r : Ref) : keeps (groups_sync pl) (sprite_update L r).
Proof.
  destruct r as [i|i|i]; simpl.
  - unfold Player_update. kstep; [kstep|]. kstep; [kstep|].
    apply keeps_modify. intros m Hm. exact Hm.
  - unfold Asteroid_update. kstep; [kstep|]. kstep; [kstep|].
    apply keeps_modify. intros m Hm. exact Hm.
  - unfold Bullet_update. kstep; [kstep|]. kstep; [kstep|].
    kstep; [apply keeps_modify; intros m Hm; exact Hm|].
    kstep; [apply sync_get_ticks|]. kstep; [kstep|].
    match goal with |- context [if ?c then _ else _] => destruct c end;
      [apply sync_kill_bullet|kstep].
Qed.

Lemma sync_move_sprites (inp : FrameInput) (g : Game) :
  keeps (groups_sync pl) (move_sprites L inp g).
Proof.
  unfold move_sprites. kstep.
  - unfold player_handle_input. kstep; [kstep|]. kstep; [kstep|].
    apply keeps_modify. intros m Hm. exact Hm.
  - unfold all_sprites_update. kstep; [kstep|].
    apply keeps_for_each. apply sync_sprite_update.
Qed.

Lemma sync_update_logic (inp : FrameInput) (g : Game) :
  keeps (groups_sync pl) (update_logic L inp g).
Proof.
  unfold update_logic. kstep; [apply sync_move_sprites|].
  kstep; [apply sync_bullet_collisions|]. cbv zeta.
  kstep; [unfold spritecollideany_asteroids; kstep|].
  destruct a1; kstep.
Qed.

Lemma sync_shoot (self : nat) (now : Z) : keeps (groups_sync pl) (shoot L self now).
Proof.
  unfold shoot. kstep; [apply keeps_modify; intros m Hm; exact Hm|].
  kstep; [kstep|]. cbv zeta. unfold Bullet_new.
  kstep; [apply sync_get_ticks|]. apply sync_new_bullet.
Qed.

(** Firing: the bullet joins both groups, and the locals of [main] stay. *)
Lemma sync_fire (g : Game) (now : Z) (self : nat) (m : Mem L) :
  groups_sync pl m ->
  ensures
    (bind (shoot L self now) (fun bullet =>
       bind (all_sprites_add L (RBullet bullet)) (fun _ =>
         bind (bullets_add L bullet) (fun _ => ret g)))) m
    (fun g' m' => g' = g /\ groups_sync pl m').
Proof.
  intros Hm g' m' E. unfold bind at 1 in E.
  destruct (shoot L self now m) as [[b m1]| |] eqn:Hs; try discriminate.
  assert (H1 := sync_shoot self now m Hm b m1 Hs).
  assert (Hadd := sync_add_bullet b m1 H1).
  unfold bind, all_sprites_add, bullets_add, modify, ret in E, Hadd.
  inversion E; subst. split; [reflexivity|]. exact (Hadd tt _ eq_refl).
Qed.

End Sync.

Section GroupsInStep.
Variable L : Library.

(** A fresh session has its groups in step. *)
Lemma fresh_session_sync (g : Game) (m : Mem L) :
  fresh_session g m -> groups_sync (player g) m.
Proof.
  intros (_ & Hall & _ & _ & _ & _ & _ & Hb) r. rewrite Hall, Hb. simpl.
  rewrite in_map_iff. destruct r as [i|a|b].
  - split.
    + intros [H|(x & Hx & _)]; [congruence|discriminate].
    + intros ->. now left.
  - split.
    + intros [H|(x & Hx & Hin)]; [discriminate|]. now inversion Hx; subst.
    + intros H. right. exists a. now split.
  - split; [intros [H|(x & Hx & _)]; discriminate|intros []].
Qed.

Lemma sync_handle_event (fuel : nat) (g : Game) (e : Event) (m : Mem L) :
  groups_sync (player g) m ->
  ensures (handle_event L fuel g e) m (fun g' m' => groups_sync (player g') m').
Proof.
  intros Hm. destruct e as [|key|]; simpl; try (now apply ensures_ret).
  destruct (state g).
  - destruct (key_eqb key K_SPACE); now apply ensures_ret.
  - destruct (key_eqb key K_SPACE).
    + apply ensures_bind.
      eapply ensures_conseq; [apply sync_get_ticks; exact Hm|].
      cbv beta. intros now m1 H1.
      apply ensures_bind, returns_ensures, returns_gets.
      destruct (can_shoot (players m1 (player g)) now); [|now apply ensures_ret].
      eapply ensures_conseq; [apply sync_fire; exact H1|].
      cbv beta. intros g' m' [-> H]. exact H.
    + destruct (key_eqb key K_ESCAPE); now apply ensures_ret.
  - destruct (key_eqb key K_ESCAPE); now apply ensures_ret.
  - destruct (key_eqb key K_r).
    + apply ensures_bind.
      eapply ensures_conseq; [apply (reset_game_ensures L fuel m PLAYING (running g))|].
      cbv beta. intros ps m' (_ & Hfresh & _). apply ensures_ret.
      apply fresh_session_sync in Hfresh. exact Hfresh.
    + destruct (key_eqb key K_q); now apply ensures_ret.
Qed.

Lemma update_logic_player (inp : FrameInput) (g : Game) (m : Mem L) :
  ensures (update_logic L inp g) m (fun g' _ => player g' = player g).
Proof.
  intros g' m' E. unfold update_logic, bind in E.
  destruct (move_sprites L inp g m) as [[u m1]| |]; try discriminate.
  destruct (bullet_collisions L (score g) m1) as [[sc m2]| |]; try discriminate.
  cbv zeta in E. unfold spritecollideany_asteroids, gets in E.
  match type of E with (if ?c then _ else _) _ = _ => destruct c end;
    inversion E; subst; reflexivity.
Qed.

Lemma sync_frame (fuel : nat) (inp : FrameInput) (g : Game) (m : Mem L) :
  groups_sync (player g) m ->
  ensures (frame L fuel inp g) m (fun g' m' => groups_sync (player g') m').
Proof.
  intros Hm. unfold frame. apply ensures_bind.
  eapply ensures_conseq.
  - apply (ensures_fold_m L (fun g1 m1 => groups_sync (player g1) m1)); [|exact Hm].
    intros e g1 m1 _ H1. now apply sync_handle_event.
  - cbv beta. intros g1 m1 H1.
    destruct (state g1); try (now apply ensures_ret).
    intros g' m' E. rewrite (update_logic_player inp g1 m1 g' m' E).
    exact (sync_update_logic L (player g1) inp g1 m1 H1 g' m' E).
Qed.

Lemma sync_main_loop (fuel : nat) (inputs : list FrameInput) :
  forall (g : Game) (m : Mem L),
    groups_sync (player g) m ->
    ensures (main_loop L fuel inputs g) m (fun g' m' => groups_sync (player g') m').
Proof.
  induction inputs as [|inp rest IH]; intros g m Hm; simpl.
  - destruct (running g); now apply ensures_ret.
  - destruct (running g); [|now apply ensures_ret].
    apply ensures_bind.
    eapply ensures_conseq; [apply sync_frame; exact Hm|].
    cbv beta. intros g1 m1 H1. now apply IH.
Qed.

(** X9: the three sprite groups stay in step.  [all_sprites] holds
    exactly the current player, the asteroids of [asteroids] and the bullets
    of [bullets]: every [add] to a typed group is paired with an [add] to
    [all_sprites], [kill] removes from both, and [reset_game] empties all
    three.  This holds after [reset_game], is kept by every event, by the
    update block and by every frame, and so holds whenever [main] stops,
    from any memory at all. *)
Theorem groups_stay_in_step :
  (forall (fuel : nat) (m : Mem L),
     ensures (reset_game L fuel) m (fun ps m' => groups_sync (fst ps) m')) /\
  (forall (fuel : nat) (g : Game) (e : Event) (m : Mem L),
     groups_sync (player g) m ->
     ensures (handle_event L fuel g e) m (fun g' m' => groups_sync (player g') m')) /\
  (forall (inp : FrameInput) (g : Game) (m : Mem L),
     groups_sync (player g) m ->
     ensures (update_logic L inp g) m (fun g' m' => groups_sync (player g') m')) /\
  (forall (fuel : nat) (inp : FrameInput) (g : Game) (m : Mem L),
     groups_sync (player g) m ->
     ensures (frame L fuel inp g) m (fun g' m' => groups_sync (player g') m')) /\
  (forall (fuel : nat) (inputs : list FrameInput) (m : Mem L),
     ensures (main L fuel inputs) m (fun g m' => groups_sync (player g) m')).
Proof.
  split; [|split; [|split; [|split]]].
  - intros fuel m.
    eapply ensures_conseq; [apply (reset_game_ensures L fuel m PLAYING true)|].
    cbv beta. intros ps m' (_ & Hfresh & _).
    apply fresh_session_sync in Hfresh. exact Hfresh.
  - intros fuel g e m. apply sync_handle_event.
  - intros inp g m Hm g' m' E. rewrite (update_logic_player inp g m g' m' E).
    exact (sync_update_logic L (player g) inp g m Hm g' m' E).
  - intros fuel inp g m. apply sync_frame.
  - intros fuel inputs m. unfold main. apply ensures_bind.
    eapply ensures_conseq; [apply startup_ensures|].
    cbv beta. intros g m1 (_ & Hfresh & _).
    apply sync_main_loop. now apply fresh_session_sync.
Qed.

End GroupsInStep.

(** ** No exception escapes the loop *)

Section Safety.
Variable L : Library.

Lemma finishes_returns (lax : bool) {A : Type} (c : M L A) (m : Mem L)
    (Q : A -> Mem L -> Prop) :
  returns c m Q -> finishes lax c m Q.
Proof. intros (a & m' & Hc & HQ). unfold finishes. now rewrite Hc. Qed.

Lemma returns_finishes {A : Type} (c : M L A) (m : Mem L) (Q : A -> Mem L -> Prop) :
  finishes false c m Q -> returns c m Q.
Proof.
  unfold finishes, returns. destruct (c m) as [[a m']| |]; intros H.
  - now exists a, m'.
  - contradiction.
  - discriminate.
Qed.

Lemma finishes_no_raise {A : Type} (c : M L A) (m : Mem L) (Q : A -> Mem L -> Prop)
    (e : Exn) :
  finishes true c m Q -> c m <> Raise e.
Proof. unfold finishes. intros H E. now rewrite E in H. Qed.

Lemma finishes_bind (lax : bool) {A B : Type} (c : M L A) (k : A -> M L B)
    (m : Mem L) (Q : B -> Mem L -> Prop) :
  finishes lax c m (fun a m' => finishes lax (k a) m' Q) -> finishes lax (bind c k) m Q.
Proof. unfold finishes, bind. destruct (c m) as [[a m']| |]; auto. Qed.

Lemma finishes_conseq (lax : bool) {A : Type} (c : M L A) (m : Mem L)
    (Q Q' : A -> Mem L -> Prop) :
  finishes lax c m Q -> (forall a m', Q a m' -> Q' a m') -> finishes lax c m Q'.
Proof. unfold finishes. destruct (c m) as [[a m']| |]; auto. Qed.

Lemma finishes_ensures (lax : bool) {A : Type} (c : M L A) (m : Mem L)
    (Q Q' : A -> Mem L -> Prop) :
  finishes lax c m Q -> ensures c m Q' -> finishes lax c m Q'.
Proof.
  unfold finishes, ensures. destruct (c m) as [[a m']| |]; auto.
Qed.

Lemma finishes_fold_m (lax : bool) {A B : Type} (I : B -> Mem L -> Prop)
    (body : B -> A -> M L B) (xs : list A) :
  (forall x b m, I b m -> finishes lax (body b x) m I) ->
  forall b m, I b m -> finishes lax (fold_m L xs body b) m I.
Proof.
  intros Hbody. induction xs as [|x xs IH]; intros b m Hm; simpl.
  - apply finishes_returns. now apply returns_ret.
  - apply finishes_bind.
    eapply finishes_conseq; [apply Hbody; exact Hm|].
    cbv beta. intros b1 m1 H1. now apply IH.
Qed.

(** The rejection loop raises nothing: it draws, compares, and repeats. *)
Lemma spawn_position_no_raise (fuel : nat) (p : nat) (d : R) :
  forall m : Mem L, finishes true (spawn_position L fuel p d) m (fun _ _ => True).
Proof.
  induction fuel as [|fuel IH]; intros m; simpl.
  - reflexivity.
  - apply finishes_bind.
    unfold finishes at 1, m_randrange.
    destruct (randrange L SCREEN_WIDTH (world m)) as [x w1].
    apply finishes_bind.
    unfold finishes at 1.
    destruct (randrange L SCREEN_HEIGHT (world (set_world m w1))) as [y w2].
    apply finishes_bind. unfold finishes at 1, gets.
    match goal with |- finishes _ (if ?c then _ else _) _ _ => destruct c end.
    + apply finishes_returns. now apply returns_ret.
    + apply IH.
Qed.

Lemma spawn_asteroids_no_raise (fuel n p : nat) :
  forall m : Mem L, finishes true (spawn_asteroids L fuel n p) m (fun _ _ => True).
Proof.
  induction n as [|n IH]; intros m; simpl.
  - apply finishes_returns. now apply returns_ret.
  - cbv zeta. apply finishes_bind.
    eapply finishes_conseq; [apply spawn_position_no_raise|].
    cbv beta. intros ps m1 _.
    apply finishes_bind.
    eapply finishes_conseq.
    { apply finishes_returns. apply Asteroid_new_returns. lia. }
    cbv beta. intros f m2 _.
    unfold all_sprites_add, asteroids_add.
    apply finishes_bind. unfold finishes at 1, modify.
    apply finishes_bind. unfold finishes at 1.
    apply IH.
Qed.

Lemma reset_game_finishes (lax : bool) (fuel : nat) (m : Mem L) :
  (lax = false -> spawn_fair L fuel (next_id m)) ->
  finishes lax (reset_game L fuel) m (fun _ _ => True).
Proof.
  intros Hfair. destruct lax.
  - unfold reset_game.
    do 3 (apply finishes_bind; unfold finishes at 1, modify).
    apply finishes_bind. unfold finishes at 1, new_player.
    apply finishes_bind. unfold finishes at 1, all_sprites_add, modify.
    apply finishes_bind.
    eapply finishes_conseq; [apply spawn_asteroids_no_raise|].
    cbv beta. intros u m' _. apply finishes_returns. now apply returns_ret.
  - apply finishes_returns. apply reset_game_returns. now apply Hfair.
Qed.

Lemma handle_event_finishes (lax : bool) (fuel : nat) (g : Game) (e : Event)
    (m : Mem L) :
  (lax = false -> forall p, spawn_fair L fuel p) ->
  frame_inv g m ->
  finishes lax (handle_event L fuel g e) m (fun g' m' => frame_inv g' m').
Proof.
  intros Hfair Hinv.
  destruct (state g) eqn:Hs.
  1-3: apply finishes_returns;
       (eapply returns_conseq;
        [apply handle_event_live; [exact Hinv|rewrite Hs; discriminate]
        |cbv beta; intros g' m' H; apply H]).
  eapply finishes_ensures; [|apply handle_event_ensures; exact Hinv].
  assert (Hret : forall g1 : Game,
            finishes lax (ret g1) m (fun (_ : Game) (_ : Mem L) => True)).
  { intros g1. apply finishes_returns. now apply returns_ret. }
  destruct e as [|key|]; simpl; rewrite ?Hs; try apply Hret.
  destruct (key_eqb key K_r).
  - apply finishes_bind.
    eapply finishes_conseq.
    + apply reset_game_finishes. intros Hl. now apply Hfair.
    + cbv beta. intros ps m' _. apply finishes_returns. now apply returns_ret.
  - destruct (key_eqb key K_q); apply Hret.
Qed.

Lemma frame_finishes (lax : bool) (fuel : nat) (inp : FrameInput) (g : Game)
    (m : Mem L) :
  (lax = false -> forall p, spawn_fair L fuel p) ->
  frame_inv g m ->
  finishes lax (frame L fuel inp g) m (fun g' m' => frame_inv g' m').
Proof.
  intros Hfair Hinv. unfold frame. apply finishes_bind.
  eapply finishes_conseq.
  - apply (finishes_fold_m lax (fun g1 m1 => frame_inv g1 m1)); [|exact Hinv].
    intros e g1 m1 H1. now apply handle_event_finishes.
  - cbv beta. intros g1 m1 H1. apply finishes_returns.
    destruct (state g1); try (now apply returns_ret).
    eapply returns_conseq; [apply update_logic_returns; exact H1|].
    cbv beta. intros g2 m2 H. apply H.
Qed.

Lemma main_loop_finishes (lax : bool) (fuel : nat) (inputs : list FrameInput) :
  (lax = false -> forall p, spawn_fair L fuel p) ->
  forall (g : Game) (m : Mem L),
    frame_inv g m ->
    finishes lax (main_loop L fuel inputs g) m (fun g' m' => frame_inv g' m').
Proof.
  intros Hfair. induction inputs as [|inp rest IH]; intros g m Hinv; simpl.
  - apply finishes_returns. destruct (running g); now apply returns_ret.
  - destruct (running g); [|apply finishes_returns; now apply returns_ret].
    apply finishes_bind.
    eapply finishes_conseq; [apply frame_finishes; assumption|].
    cbv beta. intros g1 m1 H1. now apply IH.
Qed.

Lemma main_finishes (lax : bool) (fuel : nat) (inputs : list FrameInput) (m : Mem L) :
  (lax = false -> forall p, spawn_fair L fuel p) ->
  finishes lax (main L fuel inputs) m (fun g' m' => frame_inv g' m').
Proof.
  intros Hfair. unfold main. apply finishes_bind.
  assert (Hst : finishes lax (startup L fuel) m (fun g m1 => frame_inv g m1)).
  { apply finishes_ensures with (Q := fun (_ : Game) (_ : Mem L) => True).
    - unfold startup.
      do 3 (apply finishes_bind; unfold finishes at 1, modify).
      apply finishes_bind.
      eapply finishes_conseq.
      + apply reset_game_finishes. intros Hl. now apply Hfair.
      + cbv beta. intros ps m' _. apply finishes_returns.
        apply returns_ret. exact I.
    - eapply ensures_conseq; [apply startup_ensures|].
      cbv beta. intros g m1 H. apply H. }
  eapply finishes_conseq; [exact Hst|].
  cbv beta. intros g m1 H1. now apply main_loop_finishes.
Qed.

(** X10: no exception escapes the game.  From a state that satisfies the
    invariant, a frame raises nothing (no [ZeroDivisionError] from a modulo,
    no [ValueError] from [scale_to_length], no [KeyError] from the size
    table), and [main], run from any memory on any inputs, raises
    nothing. *)
Theorem main_raises_nothing :
  (forall (fuel : nat) (inp : FrameInput) (g : Game) (m : Mem L) (e : Exn),
     frame_inv g m -> frame L fuel inp g m <> Raise e) /\
  (forall (fuel : nat) (inputs : list FrameInput) (m : Mem L) (e : Exn),
     main L fuel inputs m <> Raise e).
Proof.
  split.
  - intros fuel inp g m e Hinv.
    apply finishes_no_raise with (Q := fun g' m' => frame_inv g' m').
    apply frame_finishes; [discriminate|exact Hinv].
  - intros fuel inputs m e.
    apply finishes_no_raise with (Q := fun g' m' => frame_inv g' m').
    apply main_finishes. discriminate.
Qed.

(** X11: the game runs.  When the random generator is fair to the
    rejection loop of [reset_game], [main] returns for every list of frame
    inputs, from any memory, and every frame run from a state that
    satisfies the invariant returns and keeps it. *)
Theorem main_returns (fuel : nat) :
  (forall p, spawn_fair L fuel p) ->
  (forall (inp : FrameInput) (g : Game) (m : Mem L),
     frame_inv g m ->
     returns (frame L fuel inp g) m (fun g' m' => frame_inv g' m')) /\
  (forall (inputs : list FrameInput) (m : Mem L),
     returns (main L fuel inputs) m (fun g m' => frame_inv g m')).
Proof.
  intros Hfair. split.
  - intros inp g m Hinv. apply returns_finishes.
    apply frame_finishes; [intros _; exact Hfair|exact Hinv].
  - intros inputs m. apply returns_finishes.
    apply main_finishes. intros _. exact Hfair.
Qed.

End Safety.

(** ** Asteroids as they are built, bullets as they are spent *)

Section MoreCollisions.
Variable L : Library.

(** What [groupcollide] leaves of the bullet group: the bullets that
    overlap no asteroid, in their order. *)
Lemma groupcollide_bullets (m : Mem L) :
  returns (groupcollide_bullets_asteroids L) m (fun _ m' =>
    bullets m' = filter (misses m) (bullets m)).
Proof.
  unfold groupcollide_bullets_asteroids. mstep. mstep.
  pose (hit := fun b => negb (misses m b)).
  pose (I := fun (done : list nat) (crashed : list (nat * list nat)) (m' : Mem L) =>
    asteroid_objs m' = asteroid_objs m /\ bullet_objs m' = bullet_objs m /\
    asteroids m' = asteroids m /\
    bullets m' =
      filter (fun b => negb (existsb (Nat.eqb b) (filter hit done))) (bullets m)).
  eapply returns_conseq.
  - apply (returns_fold_m L I) with (done := []).
    + intros pre b crashed m1 _ (Ha & Hb & Hg & Hbs).
      mstep. mstep. unfold spritecollide_asteroids. mstep. mstep.
      assert (Ho : filter (fun a => colliderect (rect (b_obj (bullet_objs m1 b)))
                                     (rect (a_obj (asteroid_objs m1 a))))
                          (asteroids m1) = overlapping m b).
      { unfold overlapping, overlaps. now rewrite Hb, Ha, Hg. }
      rewrite Ho.
      assert (Hh : hit b = match overlapping m b with [] => false | _ :: _ => true end).
      { unfold hit, misses. now destruct (overlapping m b). }
      destruct (overlapping m b) as [|a0 l] eqn:Eo.
      * mstep. unfold I. rewrite filter_app. simpl. rewrite Hh, app_nil_r.
        repeat split; assumption.
      * unfold kill_bullet. mstep. mstep. mstep. unfold I. mem_simpl.
        rewrite filter_app. simpl. rewrite Hh.
        do 3 (split; [assumption|]).
        rewrite Hbs. apply group_remove_filter_done.
    + unfold I. simpl. repeat split; auto.
      symmetry. apply forallb_filter_id. apply forallb_forall. reflexivity.
  - cbv beta. simpl app. unfold I. intros hits m' (_ & _ & _ & Hbs).
    rewrite Hbs. apply filter_ext_in. intros b Hb.
    destruct (misses m b) eqn:Em.
    + apply negb_true_iff. apply not_true_iff_false. intros H.
      apply existsb_exists in H as (y & Hy & Hby).
      apply Nat.eqb_eq in Hby. subst y.
      apply filter_In in Hy as [_ Hy]. unfold hit in Hy. rewrite Em in Hy.
      discriminate.
    + apply negb_false_iff. apply existsb_exists. exists b.
      split; [|apply Nat.eqb_refl].
      apply filter_In. split; [exact Hb|]. unfold hit. now rewrite Em.
Qed.

Lemma hits_of_length (m : Mem L) :
  length (bullets m) =
  length (filter (misses m) (bullets m)) + length (hits_of m).
Proof.
  unfold hits_of. induction (bullets m) as [|b bs IH]; simpl; [reflexivity|].
  unfold misses at 1. destruct (overlapping m b) eqn:Eo; simpl; lia.
Qed.

(** X12: one collision pass spends exactly the bullets that hit.  A bullet
    of the group leaves it when its rect overlaps the rect of at least one
    asteroid of the group, however many it overlaps, and stays, in its place,
    when it overlaps none; the group shrinks by the number of entries of the
    dictionary that [groupcollide] returns; no bullet object is changed. *)
Theorem collision_pass_spends_bullets (sc : Z) (m : Mem L) :
  Mem_inv m ->
  returns (bullet_collisions L sc) m (fun _ m' =>
    bullets m' = filter (misses m) (bullets m) /\
    (forall b, In b (bullets m') <-> In b (bullets m) /\ overlapping m b = []) /\
    length (bullets m) = length (bullets m') + length (hits_of m) /\
    bullet_objs m' = bullet_objs m).
Proof.
  intros (Hnda & Hndb & Hast & Hbul & Hall). unfold bullet_collisions.
  apply returns_bind.
  eapply returns_conseq.
  { apply returns_and; [apply groupcollide_returns|apply groupcollide_bullets]. }
  cbv beta.
  intros hits m1 ((-> & Hp1 & Ha1 & Hb1 & Hn1 & Hg1 & Hw1 & Hbs1 & Hnd1 & Hal1) & Hex).
  destruct (hit_loop_returns L (hit_pairs m) sc m1)
    as (sc' & m' & Hrun & _ & _ & Hbo & Hbu & _).
  { intros a Ha. rewrite Hg1. now apply hit_pairs_in_group. }
  { intros a Ha. rewrite Hg1 in Ha. rewrite Hn1, Ha1. now apply Hast. }
  { intros r Hr. rewrite Hn1. apply Hall, Hal1, Hr. }
  exists sc', m'. split.
  { rewrite resolve_hits_flat, hits_of_pairs. exact Hrun. }
  rewrite Hbu, Hex. split; [reflexivity|]. split; [|split].
  - intros b. rewrite filter_In. unfold misses.
    destruct (overlapping m b); split; intros [H1 H2]; split;
      auto; discriminate.
  - apply hits_of_length.
  - congruence.
Qed.

End MoreCollisions.

Section MoreAsteroids.
Variable L : Library.
Local Open Scope R_scope.

Lemma target_size_raises (sz : Z) :
  ~ (1 <= sz <= 3)%Z -> target_size sz = Raise KeyError.
Proof.
  intros H. unfold target_size.
  destruct sz as [|p|p]; try reflexivity.
  destruct p as [p|p|]; [destruct p|destruct p|]; try reflexivity;
    exfalso; apply H; lia.
Qed.

Lemma rect_center_get_rect (s : Surface) (c : Z * Z) :
  rect_center (get_rect s c) = c.
Proof.
  destruct c as [cx cy]. unfold rect_center, get_rect, rect_set_center.
  cbn [r_x r_y r_w r_h fst snd]. f_equal; lia.
Qed.


End MoreAsteroids.

(** ** The score *)

Section ScoreSteps.
Variable L : Library.

Lemma restart_or_not (e : Event) : e = KEYDOWN K_r \/ e <> KEYDOWN K_r.
Proof.
  destruct e as [|k|]; try (right; discriminate).
  destruct k; try (right; discriminate). now left.
Qed.

(** An event keeps the score or, on a restart, sets it to 0. *)
Lemma handle_event_score (fuel : nat) (g : Game) (e : Event) (m : Mem L) :
  frame_inv g m ->
  ensures (handle_event L fuel g e) m (fun g' m' =>
    frame_inv g' m' /\ (score g' = score g \/ score g' = 0%Z)).
Proof.
  intros Hinv g' m' E.
  split; [exact (handle_event_ensures L fuel g e m Hinv g' m' E)|].
  destruct (state g) eqn:Hs.
  1-3: left;
       assert (Hl : state g <> GAME_OVER) by (rewrite Hs; discriminate);
       destruct (returns_inv L _ _ _ _ _ (handle_event_live L fuel g e m Hinv Hl) E)
         as (_ & _ & _ & _ & Hsc & _); exact Hsc.
  destruct (handle_event_game_over L fuel g e m Hs g' m' E) as (_ & _ & Hr & Hn).
  destruct (restart_or_not e) as [He|He].
  - right. destruct (Hr He) as (_ & (Hsc & _) & _). exact Hsc.
  - left. now destruct (Hn He).
Qed.

Lemma frame_score_tens (fuel : nat) (inp : FrameInput) (g : Game) (m : Mem L) :
  frame_inv g m -> (10 | score g)%Z ->
  ensures (frame L fuel inp g) m (fun g' m' =>
    frame_inv g' m' /\ (10 | score g')%Z).
Proof.
  intros Hinv Hdiv. unfold frame. apply ensures_bind.
  eapply ensures_conseq.
  - apply (ensures_fold_m L (fun g1 m1 => frame_inv g1 m1 /\ (10 | score g1)%Z));
      [|split; assumption].
    intros e g1 m1 _ [Hi1 Hd1].
    eapply ensures_conseq; [apply handle_event_score; exact Hi1|].
    cbv beta. intros g2 m2 (Hi2 & [Hsc|Hsc]); (split; [exact Hi2|]);
      rewrite Hsc; [exact Hd1|apply Z.divide_0_r].
  - cbv beta. intros g1 m1 [Hi1 Hd1].
    destruct (state g1); try (apply ensures_ret; now split).
    apply returns_ensures.
    eapply returns_conseq; [apply update_logic_returns; exact Hi1|].
    cbv beta. intros g2 m2 (Hi2 & _ & _ & _ & (m3 & _ & _ & Hsc) & _).
    split; [exact Hi2|]. rewrite Hsc.
    apply Z.divide_add_r; [exact Hd1|apply Z.divide_factor_l].
Qed.

Lemma main_loop_score_tens (fuel : nat) (inputs : list FrameInput) :
  forall (g : Game) (m : Mem L),
    frame_inv g m -> (10 | score g)%Z ->
    ensures (main_loop L fuel inputs g) m (fun g' m' =>
      frame_inv g' m' /\ (10 | score g')%Z).
Proof.
  induction inputs as [|inp rest IH]; intros g m Hinv Hd; simpl.
  - destruct (running g); apply ensures_ret; now split.
  - destruct (running g); [|apply ensures_ret; now split].
    apply ensures_bind.
    eapply ensures_conseq; [apply frame_score_tens; assumption|].
    cbv beta. intros g1 m1 [Hi1 Hd1]. now apply IH.
Qed.

(** X14: the score is always a multiple of 10.  It starts at 0, an event
    keeps it or, on a restart, sets it back to 0, and the update block adds
    ten times a sum of asteroid sizes; so every frame keeps the score a
    multiple of 10, and it is one whenever [main] stops. *)
Theorem score_multiple_of_ten :
  (forall (fuel : nat) (g : Game) (e : Event) (m : Mem L),
     frame_inv g m ->
     ensures (handle_event L fuel g e) m (fun g' _ =>
       score g' = score g \/ score g' = 0%Z)) /\
  (forall (fuel : nat) (inp : FrameInput) (g : Game) (m : Mem L),
     frame_inv g m -> (10 | score g)%Z ->
     ensures (frame L fuel inp g) m (fun g' _ => (10 | score g')%Z)) /\
  (forall (fuel : nat) (inputs : list FrameInput) (m : Mem L),
     ensures (main L fuel inputs) m (fun g _ => (10 | score g)%Z)).
Proof.
  split; [|split].
  - intros fuel g e m Hinv.
    eapply ensures_conseq; [apply handle_event_score; exact Hinv|].
    cbv beta. intros g' m' [_ H]. exact H.
  - intros fuel inp g m Hinv Hd.
    eapply ensures_conseq; [apply frame_score_tens; assumption|].
    cbv beta. intros g' m' [_ H]. exact H.
  - intros fuel inputs m. unfold main. apply ensures_bind.
    eapply ensures_conseq; [apply startup_ensures|].
    cbv beta. intros g m1 (Hinv & (Hsc & _) & _).
    eapply ensures_conseq.
    + apply main_loop_score_tens; [exact Hinv|]. rewrite Hsc. apply Z.divide_0_r.
    + cbv beta. intros g' m' [_ H]. exact H.
Qed.

End ScoreSteps.

(** ** A new game is built from new objects *)

Section FreshObjects.
Variable L : Library.
Local Open Scope R_scope.

(** The objects that [reset_game] creates and the ones it leaves. *)
Lemma reset_game_new_objects (fuel : nat) (m : Mem L) :
  ensures (reset_game L fuel) m (fun ps m' => built_anew m (fst ps) m').
Proof.
  unfold reset_game.
  do 3 (apply ensures_bind, returns_ensures, returns_modify).
  apply ensures_bind, returns_ensures. unfold new_player, returns. mem_simpl.
  eexists; eexists; split; [reflexivity|]. cbv beta.
  unfold all_sprites_add.
  apply ensures_bind, returns_ensures, returns_modify. mem_simpl.
  apply ensures_bind.
  eapply ensures_conseq.
  - apply spawn_asteroids_ensures; mem_simpl.
    + intros a [].
    + intros r [<-|[]]. simpl. lia.
  - cbv beta. mem_simpl.
    intros u m' (Hp & Hb & Hbo & Hn & Hfr & new & Ha & Hs & Hlen & Hnd & Hnew).
    apply ensures_ret. cbn [fst snd]. unfold built_anew.
    simpl app in Ha, Hs. rewrite centre_is_half_screen in *.
    split; [reflexivity|]. split; [lia|]. split; [|split; [|split; [|split]]].
    + intros r Hr. rewrite Hs in Hr. destruct Hr as [<-|Hr]; [simpl; lia|].
      apply in_map_iff in Hr as (a & <- & Hin). simpl. apply Hnew in Hin. lia.
    + intros a Hin. rewrite Ha in Hin. apply Hnew in Hin. lia.
    + intros i Hi. rewrite Hp. now apply upd_other.
    + intros i Hi. apply Hfr. lia.
    + split; [exact Hbo|]. rewrite Hp. apply upd_same.
Qed.

(** X15: [reset_game] builds the session from new objects only.  Whenever
    it returns it has created exactly six objects, the ship first and then
    the five asteroids; every sprite in a group afterwards is one of the
    six; no ship, asteroid or bullet object that existed before is changed;
    and the new ship is as [Player.__init__] builds it at the centre of the
    screen.  It does return when the random generator is fair to the
    rejection loop. *)
Theorem reset_game_allocates (fuel : nat) (m : Mem L) :
  ensures (reset_game L fuel) m (fun ps m' => built_anew m (fst ps) m') /\
  (spawn_fair L fuel (next_id m) ->
   returns (reset_game L fuel) m (fun ps m' => built_anew m (fst ps) m')).
Proof.
  split; [apply reset_game_new_objects|].
  intros Hfair.
  eapply returns_conseq.
  - apply ensures_returns;
      [apply reset_game_returns; exact Hfair|apply reset_game_new_objects].
  - cbv beta. intros ps m' [_ H]. exact H.
Qed.

End FreshObjects.

(** ** Events: firing, and the states in which the world stands still *)

Section MoreEvents.
Variable L : Library.


(** Outside Playing, an event other than the key the state waits for
    changes nothing in memory and keeps state, score and player. *)
Lemma handle_event_idle (fuel : nat) (g : Game) (e : Event) (m : Mem L) :
  state g <> PLAYING -> e <> KEYDOWN (leave_key (state g)) ->
  exists g',
    handle_event L fuel g e m = Val (g', m) /\
    state g' = state g /\ score g' = score g /\ player g' = player g /\
    running g' = (running g && negb (spec_exits (state g) e))%bool.
Proof.
  intros Hs He.
  destruct (state g) eqn:E; [|congruence| |];
    destruct e as [|key|]; try destruct key; simpl; rewrite ?E; simpl;
    try (exfalso; apply He; reflexivity);
    eexists; (split; [reflexivity|]);
    cbn [state score player running set_state set_running];
    rewrite ?E, ?andb_true_r, ?andb_false_r; repeat split; reflexivity.
Qed.

Lemma events_idle (fuel : nat) (m : Mem L) (events : list Event) :
  forall g : Game,
    state g <> PLAYING ->
    ~ In (KEYDOWN (leave_key (state g))) events ->
    exists g',
      fold_m L events (handle_event L fuel) g m = Val (g', m) /\
      state g' = state g /\ score g' = score g /\ player g' = player g /\
      (running g = false -> running g' = false).
Proof.
  induction events as [|e events IH]; intros g Hs Hno; simpl.
  - exists g. repeat split; auto.
  - destruct (handle_event_idle fuel g e m Hs) as (g1 & Hrun & Hst & Hsc & Hp & Hr).
    { intros ->. apply Hno. now left. }
    destruct (IH g1) as (g' & Hrun' & Hs' & Hsc' & Hp' & Hr').
    { now rewrite Hst. }
    { rewrite Hst. intros H. apply Hno. now right. }
    exists g'. unfold bind. rewrite Hrun. split; [exact Hrun'|].
    split; [congruence|]. split; [congruence|]. split; [congruence|].
    intros Hf. apply Hr'. rewrite Hr, Hf. reflexivity.
Qed.

(** X17: the world stands still outside Playing.  On the start screen,
    when paused and after the game is over, a frame whose events do not
    hold the key that the state waits for (space, escape, R) returns with
    the memory exactly as it was: no sprite moves, no bullet is created or
    expires, the clock and the random generator are not read; state, score
    and player stay as well. *)
Theorem world_stands_still (fuel : nat) (inp : FrameInput) (g : Game) (m : Mem L) :
  state g <> PLAYING ->
  ~ In (KEYDOWN (leave_key (state g))) (f_events inp) ->
  exists g',
    frame L fuel inp g m = Val (g', m) /\
    state g' = state g /\ score g' = score g /\ player g' = player g.
Proof.
  intros Hs Hno.
  destruct (events_idle fuel m (f_events inp) g Hs Hno)
    as (g' & Hrun & Hs' & Hsc & Hp & _).
  exists g'. unfold frame, bind. rewrite Hrun.
  split; [|repeat split; assumption].
  destruct (state g') eqn:E; try reflexivity. congruence.
Qed.

End MoreEvents.

(** ** The start screen *)

Section StartScreen.
Local Open Scope Z_scope.

(** X18: the prompt of the start screen blinks once a second.  It is
    drawn exactly when the clock reading, in milliseconds, lies in the
    first half of its second, so it is on for 500 ms and off for 500 ms,
    and whether it is drawn repeats every 1000 ms. *)
Theorem start_prompt_blinks (t : Z) :
  (start_prompt_shown t = true <-> t mod 1000 < 500) /\
  start_prompt_shown (t + 1000) = start_prompt_shown t /\
  start_prompt_shown (t + 500) = negb (start_prompt_shown t).
Proof.
  unfold start_prompt_shown.
  assert (Hq : t / 500 = 2 * (t / 1000) + (t mod 1000) / 500).
  { pose proof (Z.div_mod t 1000 ltac:(lia)) as H.
    rewrite H at 1.
    replace (1000 * (t / 1000) + t mod 1000)
      with (t mod 1000 + (2 * (t / 1000)) * 500) by ring.
    rewrite Z.div_add by lia. ring. }
  assert (Hr : 0 <= t mod 1000 < 1000) by (apply Z.mod_pos_bound; lia).
  assert (Hm : (t / 500) mod 2 = (t mod 1000) / 500).
  { rewrite Hq, Z.add_comm, Z.mul_comm, Z.mod_add by lia.
    apply Z.mod_small. split.
    - apply Z.div_pos; lia.
    - apply Z.div_lt_upper_bound; lia. }
  assert (H1 : (t + 1000) / 500 = t / 500 + 2).
  { replace (t + 1000) with (t + 2 * 500) by ring. apply Z.div_add. lia. }
  assert (H5 : (t + 500) / 500 = t / 500 + 1).
  { replace (t + 500) with (t + 1 * 500) by ring. apply Z.div_add. lia. }
  split; [|split].
  - rewrite Z.eqb_eq, Hm. split.
    + intros H0. destruct (Z_lt_le_dec (t mod 1000) 500) as [Hlt|Hge]; [exact Hlt|].
      assert (1 <= t mod 1000 / 500) by (apply Z.div_le_lower_bound; lia). lia.
    + intros Hlt. apply Z.div_small. lia.
  - rewrite H1. replace (t / 500 + 2) with (t / 500 + 1 * 2) by ring.
    rewrite Z.mod_add by lia. reflexivity.
  - rewrite H5.
    pose proof (Z.mod_pos_bound (t / 500) 2 ltac:(lia)) as Hb.
    pose proof (Z.mod_pos_bound (t / 500 + 1) 2 ltac:(lia)) as Hb'.
    pose proof (Z.div_mod (t / 500) 2 ltac:(lia)) as Hd.
    pose proof (Z.div_mod (t / 500 + 1) 2 ltac:(lia)) as Hd'.
    destruct (Z.eqb_spec ((t / 500) mod 2) 0) as [E|E];
      destruct (Z.eqb_spec ((t / 500 + 1) mod 2) 0) as [E'|E'];
      simpl; try reflexivity; exfalso; lia.
Qed.

End StartScreen.

(** ** Every sprite is moved onto the screen *)

Section OnScreen.
Variable L : Library.

Lemma GameObject_update_on_screen (o : GameObject) :
  exists o', GameObject_update L o = Val o' /\ on_screen (pos o').
Proof.
  destruct (GameObject_update_returns L o) as (o' & Ho & _ & Hx & Hy).
  exists o'. split; [exact Ho|]. split; assumption.
Qed.

(** The [update] of one sprite puts it on the screen and moves no other
    sprite. *)
Lemma sprite_update_on_screen (r : Ref) (m : Mem L) :
  returns (sprite_update L r) m (fun _ m' =>
    on_screen (ref_pos m' r) /\
    forall r', r' <> r -> ref_pos m' r' = ref_pos m r').
Proof.
  destruct r as [i|i|i]; simpl.
  - unfold Player_update. mstep. mstep.
    destruct (GameObject_update_on_screen (p_obj (players m i))) as (o' & Ho & Hon).
    apply returns_bind. eapply returns_lift; [exact Ho|]. mstep. mem_simpl.
    split.
    + unfold ref_pos. mem_simpl. rewrite upd_same. exact Hon.
    + intros [j|j|j] Hne; unfold ref_pos; mem_simpl; try reflexivity.
      rewrite upd_other; [reflexivity|congruence].
  - unfold Asteroid_update. mstep. mstep.
    destruct (GameObject_update_on_screen (a_obj (asteroid_objs m i))) as (o' & Ho & Hon).
    apply returns_bind. eapply returns_lift; [exact Ho|]. mstep. mem_simpl.
    split.
    + unfold ref_pos. mem_simpl. rewrite upd_same. exact Hon.
    + intros [j|j|j] Hne; unfold ref_pos; mem_simpl; try reflexivity.
      rewrite upd_other; [reflexivity|congruence].
  - unfold Bullet_update. mstep. mstep.
    destruct (GameObject_update_on_screen (b_obj (bullet_objs m i))) as (o' & Ho & Hon).
    apply returns_bind. eapply returns_lift; [exact Ho|]. mstep. mstep.
    apply returns_bind.
    unfold returns at 1, m_get_ticks. mem_simpl.
    destruct (get_ticks L (world m)) as [t w].
    eexists; eexists; split; [reflexivity|]. cbv beta.
    mstep. mstep. mem_simpl.
    assert (Hpos : forall m' : Mem L,
      bullet_objs m' = upd (bullet_objs m) i
        (mkBullet o' (lifetime (bullet_objs m i)) (spawn_time (bullet_objs m i))) ->
      players m' = players m -> asteroid_objs m' = asteroid_objs m ->
      on_screen (ref_pos m' (RBullet i)) /\
      forall r', r' <> RBullet i -> ref_pos m' r' = ref_pos m r').
    { intros m' Hb Hp Ha. split.
      - unfold ref_pos. rewrite Hb, upd_same. exact Hon.
      - intros [j|j|j] Hne; unfold ref_pos; rewrite ?Hp, ?Ha, ?Hb; try reflexivity.
        rewrite upd_other; [reflexivity|congruence]. }
    match goal with |- context [if ?c then _ else _] => destruct c end.
    + unfold kill_bullet. mstep. apply Hpos; reflexivity.
    + mstep. apply Hpos; reflexivity.
Qed.

Lemma for_each_update_on_screen (rs : list Ref) :
  forall m : Mem L,
    returns (for_each rs (sprite_update L)) m (fun _ m' =>
      (forall r, In r rs -> on_screen (ref_pos m' r)) /\
      (forall r, on_screen (ref_pos m r) -> on_screen (ref_pos m' r)) /\
      (forall r, ~ In r rs -> ref_pos m' r = ref_pos m r)).
Proof.
  induction rs as [|x rs IH]; intros m; simpl.
  - apply returns_ret. split; [intros r []|]. split; auto.
  - apply returns_bind.
    eapply returns_conseq; [apply sprite_update_on_screen|].
    cbv beta. intros u m1 [Hx Hother].
    eapply returns_conseq; [apply IH|].
    cbv beta. intros u' m' (Hin & Hkeep & Hout).
    assert (Hstep : forall r, on_screen (ref_pos m r) -> on_screen (ref_pos m1 r)).
    { intros r Hr. destruct (ref_eqb r x) eqn:E.
      - apply ref_eqb_eq in E. now subst.
      - rewrite Hother; [exact Hr|]. intros ->.
        assert (ref_eqb x x = true) by now apply ref_eqb_eq. congruence. }
    split; [|split].
    + intros r [<-|Hr]; [apply Hkeep, Hx|now apply Hin].
    + intros r Hr. apply Hkeep, Hstep, Hr.
    + intros r Hr. rewrite Hout by tauto. apply Hother. intros ->. apply Hr. now left.
Qed.

(** What [all_sprites.update()] does to the positions and the groups. *)
Lemma all_sprites_update_lands (m : Mem L) :
  returns (all_sprites_update L) m (fun _ m' =>
    (forall r, In r (all_sprites m) -> on_screen (ref_pos m' r)) /\
    (forall r, In r (all_sprites m') -> on_screen (ref_pos m' r)) /\
    (forall r, ~ In r (all_sprites m) -> ref_pos m' r = ref_pos m r) /\
    next_id m' = next_id m /\ asteroids m' = asteroids m /\
    (forall i, size (asteroid_objs m' i) = size (asteroid_objs m i)) /\
    (forall b, In b (bullets m') -> In b (bullets m))).
Proof.
  eapply returns_conseq.
  - apply returns_and; [apply all_sprites_update_returns|].
    unfold all_sprites_update. mstep. mstep. apply for_each_update_on_screen.
  - cbv beta. intros u m' ((Hn & Ha & Hs & Hb & _ & Hr & _) & Hin & _ & Hout).
    split; [exact Hin|]. split; [intros r H; apply Hin, Hr, H|].
    repeat split; assumption.
Qed.

(** What the hit loop keeps: the asteroids of the group and of the list
    of hits exist, have a size tier, and lie on the screen. *)
Lemma hit_asteroid_on_screen (pairs : list nat) (sc : Z) (a : nat) (m : Mem L) :
  In a pairs ->
  (forall r, In r (all_sprites m) -> ref_id r < next_id m) ->
  (forall x, In x (asteroids m) \/ In x pairs ->
     x < next_id m /\ Asteroid_inv (asteroid_objs m x) /\
     on_screen (pos (a_obj (asteroid_objs m x)))) ->
  returns (hit_asteroid L sc a) m (fun _ m' =>
    (forall r, In r (all_sprites m') -> ref_id r < next_id m') /\
    (forall x, In x (asteroids m') \/ In x pairs ->
       x < next_id m' /\ Asteroid_inv (asteroid_objs m' x) /\
       on_screen (pos (a_obj (asteroid_objs m' x))))).
Proof.
  intros Ha Hall HJ.
  destruct (HJ a (or_intror Ha)) as (Hlt & Hinv & Hon).
  eapply returns_conseq.
  - apply hit_asteroid_returns; [exact Hlt|exact Hinv| |exact Hall].
    intros x Hx. now apply HJ; left.
  - cbv beta.
    intros sc' m' (_ & _ & _ & _ & Hfr & frs & Hfrs & Hn & Has & Hal & HF).
    assert (Hfresh : forall f, In f frs ->
              next_id m <= f < next_id m' /\ (1 < size (asteroid_objs m a))%Z).
    { intros f Hf. rewrite Hn, Hfrs. rewrite Hfrs in Hf.
      destruct (size (asteroid_objs m a) <=? 1)%Z eqn:E; simpl in Hf;
        [contradiction|].
      apply Z.leb_gt in E. simpl. lia. }
    split.
    + intros r Hr. rewrite Hal, in_app_iff in Hr. destruct Hr as [Hr|Hr].
      * apply (In_group_remove ref_eqb_eq) in Hr as [Hr _]. apply Hall in Hr. lia.
      * apply in_map_iff in Hr as (f & <- & Hf). simpl. apply Hfresh in Hf. lia.
    + assert (Hold : forall x, x < next_id m ->
                Asteroid_inv (asteroid_objs m x) /\
                on_screen (pos (a_obj (asteroid_objs m x))) ->
                x < next_id m' /\ Asteroid_inv (asteroid_objs m' x) /\
                on_screen (pos (a_obj (asteroid_objs m' x)))).
      { intros x Hx H. rewrite Hfr by exact Hx. split; [lia|exact H]. }
      intros x [Hx|Hx].
      * rewrite Has, in_app_iff in Hx. destruct Hx as [Hx|Hx].
        -- apply (In_group_remove Nat.eqb_eq) in Hx as [Hx _].
           destruct (HJ x (or_introl Hx)) as (H1 & H2). now apply Hold.
        -- destruct (Hfresh x Hx) as [Hb Hs].
           rewrite Forall_forall in HF. destruct (HF x Hx) as [Hsz Hpos].
           split; [lia|]. split.
           ++ unfold Asteroid_inv in *. rewrite Hsz. lia.
           ++ rewrite Hpos. exact Hon.
      * destruct (HJ x (or_intror Hx)) as (H1 & H2). now apply Hold.
Qed.

Lemma hit_loop_on_screen (pairs : list nat) (sc : Z) (m : Mem L) :
  (forall r, In r (all_sprites m) -> ref_id r < next_id m) ->
  (forall x, In x (asteroids m) \/ In x pairs ->
     x < next_id m /\ Asteroid_inv (asteroid_objs m x) /\
     on_screen (pos (a_obj (asteroid_objs m x)))) ->
  ensures (fold_m L pairs (hit_asteroid L) sc) m (fun _ m' =>
    forall x, In x (asteroids m') -> on_screen (pos (a_obj (asteroid_objs m' x)))).
Proof.
  intros Hall HJ.
  eapply ensures_conseq.
  - apply (ensures_fold_m L (fun (_ : Z) (m' : Mem L) =>
      (forall r, In r (all_sprites m') -> ref_id r < next_id m') /\
      (forall x, In x (asteroids m') \/ In x pairs ->
         x < next_id m' /\ Asteroid_inv (asteroid_objs m' x) /\
         on_screen (pos (a_obj (asteroid_objs m' x)))))); [|split; assumption].
    intros a sc1 m1 Ha [H1 H2]. apply returns_ensures.
    now apply hit_asteroid_on_screen.
  - cbv beta. intros sc' m' [_ H] x Hx. now apply H; left.
Qed.

(** X19: every sprite is drawn on the screen.  [all_sprites.update()]
    leaves every sprite of the group at a position with 0 <= x <= 800 and
    0 <= y <= 600, whatever its position and velocity were, moves no sprite
    outside the group, creates no object, keeps the asteroid group and
    every size, and can only remove bullets.  The
    fragments of a hit asteroid start where it is; so after the update
    block of a frame, run from a state that satisfies the invariant and has
    its groups in step, every sprite of [all_sprites] is on the screen. *)
Theorem sprites_stay_on_screen :
  (forall m : Mem L,
     returns (all_sprites_update L) m (fun _ m' =>
       (forall r, In r (all_sprites m) -> on_screen (ref_pos m' r)) /\
       (forall r, ~ In r (all_sprites m) -> ref_pos m' r = ref_pos m r) /\
       next_id m' = next_id m /\ asteroids m' = asteroids m /\
       (forall i, size (asteroid_objs m' i) = size (asteroid_objs m i)) /\
       (forall b, In b (bullets m') -> In b (bullets m)))) /\
  (forall (inp : FrameInput) (g : Game) (m : Mem L),
     frame_inv g m -> groups_sync (player g) m ->
     returns (update_logic L inp g) m (fun _ m' =>
       forall r, In r (all_sprites m') -> on_screen (ref_pos m' r))).
Proof.
  split.
  - intros m. eapply returns_conseq; [apply all_sprites_update_lands|].
    cbv beta. intros u m' (H1 & _ & H3). split; assumption.
  - intros inp g m Hinv Hsync.
    destruct (update_logic_returns L inp g m Hinv)
      as (g' & m' & Hrun & _ & _ & _ & _ & (m1 & Hmove & Hcol & _) & _).
    exists g', m'. split; [exact Hrun|].
    assert (Hsync' : groups_sync (player g) m').
    { exact (sync_update_logic L (player g) inp g m Hsync g' m' Hrun). }
    assert (Hsync1 : groups_sync (player g) m1).
    { exact (sync_move_sprites L (player g) inp g m Hsync tt m1 Hmove). }
    destruct (move_sprites_returns L inp g m Hinv) as (u & m1' & Hmove' & Hinv1).
    rewrite Hmove in Hmove'. inversion Hmove'; subst m1'. clear Hmove'.
    assert (Hon1 : forall r, In r (all_sprites m1) -> on_screen (ref_pos m1 r)).
    { unfold move_sprites, bind in Hmove.
      destruct (player_handle_input L (player g) (f_keys inp) (f_dt inp) m)
        as [[u0 m0]| |]; try discriminate.
      destruct (returns_inv L _ _ _ _ _ (all_sprites_update_lands m0) Hmove)
        as (_ & H & _).
      exact H. }
    destruct Hinv1 as ((Hnda & Hndb & Hast & Hbul & Hall) & _).
    destruct (returns_inv L _ _ _ _ _
                (bullet_collisions_returns L (score g) m1
                   (conj Hnda (conj Hndb (conj Hast (conj Hbul Hall))))) Hcol)
      as (_ & _ & Hpl & Hbo & _ & _ & Hbs & _).
    assert (Hast' : forall x, In x (asteroids m') ->
              on_screen (pos (a_obj (asteroid_objs m' x)))).
    { unfold bullet_collisions, bind in Hcol.
      destruct (groupcollide_returns L m1)
        as (hits & m2 & Hgc & -> & _ & Ha2 & _ & Hn2 & Hg2 & _ & _ & _ & Hal2).
      rewrite Hgc in Hcol. rewrite resolve_hits_flat, hits_of_pairs in Hcol.
      refine (hit_loop_on_screen (hit_pairs m1) (score g) m2 _ _ _ _ Hcol).
      - intros r Hr. rewrite Hn2. apply Hall, Hal2, Hr.
      - intros x Hx.
        assert (Hin : In x (asteroids m1)).
        { destruct Hx as [Hx|Hx]; [now rewrite <- Hg2|now apply hit_pairs_in_group]. }
        rewrite Hn2, Ha2. destruct (Hast x Hin) as [H1 H2].
        split; [exact H1|]. split; [exact H2|].
        apply (Hon1 (RAsteroid x)). apply Hsync1. exact Hin. }
    intros [i|a|b] Hr; apply Hsync' in Hr; unfold ref_pos.
    + subst i. rewrite Hpl. apply (Hon1 (RPlayer (player g))).
      apply Hsync1. reflexivity.
    + now apply Hast'.
    + rewrite Hbo. apply (Hon1 (RBullet b)). apply Hsync1.
      now apply Hbs in Hr.
Qed.

End OnScreen.

(** ** The ship turns only when it is steered *)

Section ShipSpin.
Variable L : Library.
Local Open Scope R_scope.

Lemma GameObject_update_spin (o o' : GameObject) :
  GameObject_update L o = Val o' -> rotation_speed o' = rotation_speed o.
Proof.
  unfold GameObject_update. intros E.
  destruct (Req_dec_T (rotation_speed o) 0) as [Hz|Hnz].
  - cbn [res_bind] in E. cbv zeta in E.
    destruct (wrap_position _) as [q| |]; cbn [res_bind] in E; try discriminate.
    now inversion E.
  - destruct (float_rem _ 360) as [a| |]; cbn [res_bind] in E; try discriminate.
    cbv zeta in E.
    destruct (wrap_position _) as [q| |]; cbn [res_bind] in E; try discriminate.
    now inversion E.
Qed.

(** An object that does not spin keeps its heading and image in [update]. *)
Lemma GameObject_update_still (o : GameObject) :
  rotation_speed o = 0 ->
  exists o',
    GameObject_update L o = Val o' /\
    angle o' = angle o /\ image o' = image o /\ rotation_speed o' = 0.
Proof.
  intros Hz. unfold GameObject_update.
  destruct (Req_dec_T (rotation_speed o) 0) as [_|Hnz]; [|contradiction].
  cbn [res_bind]. cbv zeta.
  destruct (wrap_position_returns (pos (set_pos o (vadd (pos o) (velocity o)))))
    as (q & Hq & _).
  rewrite Hq. cbn [res_bind]. eexists. split; [reflexivity|].
  cbn [angle image rotation_speed set_rect set_pos]. auto.
Qed.

Lemma handle_input_spin (self p' : Player) (keys : Keys) (dt : R) :
  handle_input L self keys dt = Val p' ->
  rotation_speed (p_obj p') = rotation_speed (p_obj self).
Proof.
  unfold handle_input. cbv zeta.
  destruct (rotation_step (keys K_LEFT) (p_obj self)
              (angle (p_obj self) + 180 * dt)) as [a1 ->].
  cbn [res_bind].
  destruct (rotation_step (keys K_RIGHT) (set_angle (p_obj self) a1)
              (angle (set_angle (p_obj self) a1) - 180 * dt)) as [a2 ->].
  cbn [res_bind].
  destruct (keys K_UP).
  - match goal with |- context [Rgt_dec ?a ?b] => destruct (Rgt_dec a b) end.
    + unfold scale_to_length.
      match goal with |- context [Rlt_dec ?a ?b] => destruct (Rlt_dec a b) end;
        cbn [res_bind]; intros E; [discriminate|]. now inversion E.
    + cbn [res_bind]. intros E. now inversion E.
  - cbn [res_bind]. intros E. now inversion E.
Qed.

Section OneShip.
Variable i : nat.

Ltac kstep :=
  first [ apply keeps_ret | apply keeps_gets | apply keeps_lift
        | apply keeps_bind; [|intro] ].
Ltac kept := intros ? Hm ? ? E; inversion E; subst; exact Hm.

Lemma still_world {A : Type} (f : ext L -> A * ext L) :
  keeps (spin_free i) (fun m : Mem L => let (x, w) := f (world m) in Val (x, set_world m w)).
Proof.
  intros m Hm a m' E. destruct (f (world m)) as [x w].
  inversion E; subst. exact Hm.
Qed.

Lemma still_Asteroid_new (p : Vector2) (sz : Z) : keeps (spin_free i) (Asteroid_new L p sz).
Proof.
  unfold Asteroid_new. kstep; [kstep|].
  kstep; [apply (still_world (uniform L _ _))|].
  kstep; [apply (still_world (uniform L _ _))|].
  cbv zeta. kstep; [apply (still_world (uniform L _ _))|]. kept.
Qed.

Lemma still_break_apart (self : nat) : keeps (spin_free i) (break_apart L self).
Proof.
  unfold break_apart. kstep; [kstep|].
  destruct (a <=? 1)%Z; [kstep|]. kstep; [kstep|]. cbv zeta.
  generalize (@nil nat). generalize 2%nat.
  induction n as [|n IH]; intros frs; simpl.
  - kstep.
  - kstep; [kstep|]. kstep; [apply still_Asteroid_new|]. apply IH.
Qed.

Lemma still_hit_asteroid (sc : Z) (a : nat) : keeps (spin_free i) (hit_asteroid L sc a).
Proof.
  unfold hit_asteroid. kstep; [apply still_break_apart|].
  kstep; [kept|].
  kstep; [apply keeps_for_each; intros f; kept|].
  kstep; kstep.
Qed.

Lemma still_bullet_collisions (sc : Z) : keeps (spin_free i) (bullet_collisions L sc).
Proof.
  unfold bullet_collisions. kstep.
  - unfold groupcollide_bullets_asteroids. kstep; [kstep|].
    apply keeps_fold_m. intros crashed b.
    kstep; [kstep|]. kstep; [unfold spritecollide_asteroids; kstep|].
    destruct a1; [kstep|]. kstep; [kept|kstep].
  - unfold resolve_hits. apply keeps_fold_m. intros sc1 hit.
    apply keeps_fold_m. intros sc2 x. apply still_hit_asteroid.
Qed.

Lemma still_sprite_update (r : Ref) : keeps (spin_free i) (sprite_update L r).
Proof.
  destruct r as [j|j|j]; simpl.
  - intros m Hm u m' E. unfold Player_update, bind, gets, lift in E.
    destruct (GameObject_update L (p_obj (players m j))) as [o'| |] eqn:Ho;
      cbn [res_bind] in E; try discriminate.
    inversion E; subst. unfold spin_free. mem_simpl. unfold upd.
    destruct (Nat.eqb i j) eqn:Eij; [|exact Hm].
    apply Nat.eqb_eq in Eij. subst j. cbn [p_obj set_p_obj].
    rewrite (GameObject_update_spin _ _ Ho). exact Hm.
  - unfold Asteroid_update. kstep; [kstep|]. kstep; [kstep|]. kept.
  - unfold Bullet_update. kstep; [kstep|]. kstep; [kstep|].
    kstep; [kept|].
    kstep; [apply (still_world (get_ticks L))|]. kstep; [kstep|].
    match goal with |- context [if ?c then _ else _] => destruct c end;
      [kept|kstep].
Qed.

Lemma still_update_logic (inp : FrameInput) (g : Game) :
  keeps (spin_free i) (update_logic L inp g).
Proof.
  unfold update_logic. kstep.
  - unfold move_sprites. kstep.
    + intros m Hm u m' E. unfold player_handle_input, bind, gets, lift in E.
      destruct (handle_input L (players m (player g)) (f_keys inp) (f_dt inp))
        as [p'| |] eqn:Hp; cbn [res_bind] in E; try discriminate.
      inversion E; subst. unfold spin_free. mem_simpl. unfold upd.
      destruct (Nat.eqb i (player g)) eqn:Eij; [|exact Hm].
      apply Nat.eqb_eq in Eij. subst i.
      rewrite (handle_input_spin _ _ _ _ Hp). exact Hm.
    + unfold all_sprites_update. kstep; [kstep|].
      apply keeps_for_each. apply still_sprite_update.
  - kstep; [apply still_bullet_collisions|]. cbv zeta.
    kstep; [unfold spritecollideany_asteroids; kstep|].
    destruct a1; kstep.
Qed.

Lemma still_shoot (self : nat) (now : Z) : keeps (spin_free i) (shoot L self now).
Proof.
  unfold shoot. kstep.
  - apply keeps_modify. intros m Hm. unfold spin_free. mem_simpl. unfold upd.
    destruct (Nat.eqb i self) eqn:Eij; [|exact Hm].
    apply Nat.eqb_eq in Eij. subst self. exact Hm.
  - kstep; [kstep|]. cbv zeta. unfold Bullet_new.
    kstep; [apply (still_world (get_ticks L))|]. kept.
Qed.

End OneShip.

Lemma still_handle_event (fuel : nat) (g : Game) (e : Event) (m : Mem L) :
  spin_free (player g) m ->
  ensures (handle_event L fuel g e) m (fun g' m' => spin_free (player g') m').
Proof.
  intros Hm. destruct e as [|key|]; simpl; try (now apply ensures_ret).
  destruct (state g).
  - destruct (key_eqb key K_SPACE); now apply ensures_ret.
  - destruct (key_eqb key K_SPACE).
    + apply ensures_bind.
      eapply ensures_conseq;
        [apply (still_world (player g) (get_ticks L)); exact Hm|].
      cbv beta. intros now m1 H1.
      apply ensures_bind, returns_ensures, returns_gets.
      destruct (can_shoot (players m1 (player g)) now); [|now apply ensures_ret].
      apply ensures_bind.
      eapply ensures_conseq; [apply still_shoot; exact H1|].
      cbv beta. intros b m2 H2. unfold all_sprites_add, bullets_add.
      apply ensures_bind, returns_ensures, returns_modify.
      apply ensures_bind, returns_ensures, returns_modify.
      apply ensures_ret. exact H2.
    + destruct (key_eqb key K_ESCAPE); now apply ensures_ret.
  - destruct (key_eqb key K_ESCAPE); now apply ensures_ret.
  - destruct (key_eqb key K_r).
    + apply ensures_bind.
      eapply ensures_conseq; [apply (reset_game_ensures L fuel m PLAYING (running g))|].
      cbv beta. intros ps m' (_ & _ & _ & Hpl & _). apply ensures_ret.
      unfold spin_free. cbn [player]. rewrite Hpl. reflexivity.
    + destruct (key_eqb key K_q); now apply ensures_ret.
Qed.

Lemma still_frame (fuel : nat) (inp : FrameInput) (g : Game) (m : Mem L) :
  spin_free (player g) m ->
  ensures (frame L fuel inp g) m (fun g' m' => spin_free (player g') m').
Proof.
  intros Hm. unfold frame. apply ensures_bind.
  eapply ensures_conseq.
  - apply (ensures_fold_m L (fun g1 m1 => spin_free (player g1) m1)); [|exact Hm].
    intros e g1 m1 _ H1. now apply still_handle_event.
  - cbv beta. intros g1 m1 H1.
    destruct (state g1); try (now apply ensures_ret).
    intros g' m' E. rewrite (update_logic_player L inp g1 m1 g' m' E).
    exact (still_update_logic (player g1) inp g1 m1 H1 g' m' E).
Qed.

Lemma still_main_loop (fuel : nat) (inputs : list FrameInput) :
  forall (g : Game) (m : Mem L),
    spin_free (player g) m ->
    ensures (main_loop L fuel inputs g) m (fun g' m' => spin_free (player g') m').
Proof.
  induction inputs as [|inp rest IH]; intros g m Hm; simpl.
  - destruct (running g); now apply ensures_ret.
  - destruct (running g); [|now apply ensures_ret].
    apply ensures_bind.
    eapply ensures_conseq; [apply still_frame; exact Hm|].
    cbv beta. intros g1 m1 H1. now apply IH.
Qed.

(** X20: the ship does not rotate by itself.  Its [rotation_speed] is 0
    from [Player.__init__] on and no statement of the loop changes it: every
    frame keeps it 0 and it is 0 whenever [main] stops.  So [update] never
    changes the ship's heading or image; only the arrow keys in
    [handle_input] do. *)
Theorem ship_turns_only_when_steered :
  (forall (fuel : nat) (inp : FrameInput) (g : Game) (m : Mem L),
     rotation_speed (p_obj (players m (player g))) = 0 ->
     ensures (frame L fuel inp g) m (fun g' m' =>
       rotation_speed (p_obj (players m' (player g'))) = 0)) /\
  (forall (fuel : nat) (inputs : list FrameInput) (m : Mem L),
     ensures (main L fuel inputs) m (fun g m' =>
       rotation_speed (p_obj (players m' (player g))) = 0)) /\
  (forall (i : nat) (m : Mem L),
     rotation_speed (p_obj (players m i)) = 0 ->
     returns (sprite_update L (RPlayer i)) m (fun _ m' =>
       angle (p_obj (players m' i)) = angle (p_obj (players m i)) /\
       image (p_obj (players m' i)) = image (p_obj (players m i)) /\
       rotation_speed (p_obj (players m' i)) = 0)).
Proof.
  split; [|split].
  - intros fuel inp g m. apply still_frame.
  - intros fuel inputs m. unfold main, startup. apply ensures_bind.
    do 3 (apply ensures_bind, returns_ensures, returns_modify).
    apply ensures_bind.
    eapply ensures_conseq; [apply (reset_game_ensures L fuel _ START true)|].
    cbv beta. intros ps m' (_ & _ & _ & Hpl & _). apply ensures_ret.
    apply still_main_loop. unfold spin_free. cbn [player]. rewrite Hpl. reflexivity.
  - intros i m Hz. simpl. unfold Player_update. mstep. mstep.
    destruct (GameObject_update_still (p_obj (players m i)) Hz)
      as (o' & Ho & Ha & Hi & Hr).
    apply returns_bind. eapply returns_lift; [exact Ho|]. mstep. mem_simpl.
    rewrite upd_same. cbn [p_obj set_p_obj]. auto.
Qed.

End ShipSpin.

(** ** The further statements at concrete inputs *)

Lemma demo_frame_inv : frame_inv demo_game double_hit_mem.
Proof.
  split; [exact double_hit_mem_inv|].
  split; [apply Player_init_inv|].
  split; [|simpl; lia].
  change (vlength (mkVector2 0 0) <= 6)%R. rewrite vlength_zero. lra.
Qed.

Lemma double_hit_mem_sync : groups_sync 0 double_hit_mem.
Proof.
  intros [i|a|b]; simpl.
  - split.
    + intros [H|[H|[H|[H|[]]]]]; inversion H. reflexivity.
    + intros ->. now left.
  - split.
    + intros [H|[H|[H|[H|[]]]]]; inversion H. now left.
    + intros [<-|[]]. right. now left.
  - split.
    + intros [H|[H|[H|[H|[]]]]]; inversion H; [now left|right; now left].
    + intros [<-|[<-|[]]]; [do 2 right; now left|do 3 right; now left].
Qed.

Lemma demo_uniform_in_range : uniform_in_range demo_library.
Proof. intros a b w Hab. simpl. lra. Qed.


(** X7 at the ship of the concrete memory, which is at rest. *)
Lemma shoot_bullet_kinematics_witness :
  returns (shoot demo_library 0 1000) double_hit_mem (fun b m' =>
    lifetime (bullet_objs m' b) = 2000%Z /\
    (399 / 100 <= vlength (velocity (b_obj (bullet_objs m' b))) <= 1601 / 100)%R).
Proof.
  eapply returns_conseq.
  - apply (shoot_bullet_kinematics demo_library 0 1000 double_hit_mem).
    change (vlength (mkVector2 0 0) <= 6)%R. rewrite vlength_zero. lra.
  - cbv beta zeta. intros b m' (_ & _ & Hv & Hl & _). split; assumption.
Defined.

(** X8 at a bullet of the concrete memory, which is young. *)
Lemma Bullet_update_expiry_witness :
  returns (Bullet_update demo_library 2) double_hit_mem (fun _ m' =>
    bullets m' = [2; 3]).
Proof.
  eapply returns_conseq.
  - apply (Bullet_update_expiry demo_library 2 double_hit_mem).
  - cbv beta zeta. intros u m' (_ & Hyoung & _).
    destruct Hyoung as [Hb _]; [simpl; lia|]. exact Hb.
Defined.

(** X9 at the concrete memory, whose groups are in step. *)
Lemma groups_stay_in_step_witness :
  groups_sync (player demo_game) double_hit_mem /\
  ensures (update_logic demo_library demo_input demo_game) double_hit_mem
    (fun g' m' => groups_sync (player g') m').
Proof.
  split; [exact double_hit_mem_sync|].
  apply (proj1 (proj2 (proj2 (groups_stay_in_step demo_library)))).
  exact double_hit_mem_sync.
Defined.

(** X10 at a frame from the concrete memory. *)
Lemma main_raises_nothing_witness :
  frame_inv demo_game double_hit_mem /\
  frame demo_library 1 demo_input demo_game double_hit_mem <> Raise ValueError.
Proof.
  split; [exact demo_frame_inv|].
  apply (proj1 (main_raises_nothing demo_library)). exact demo_frame_inv.
Defined.

(** X11 with the concrete library, whose first draw is accepted. *)
Lemma main_returns_witness :
  returns (main demo_library 1 [demo_input; demo_input]) double_hit_mem
    (fun g m' => frame_inv g m').
Proof.
  apply (proj2 (main_returns demo_library 1 demo_spawn_fair)).
Defined.

(** X12 at the concrete memory: both bullets hit, none is left. *)
Lemma collision_pass_spends_bullets_witness :
  returns (bullet_collisions demo_library 0) double_hit_mem (fun _ m' =>
    bullets m' = []).
Proof.
  eapply returns_conseq.
  - apply (collision_pass_spends_bullets demo_library 0 double_hit_mem).
    exact double_hit_mem_inv.
  - cbv beta. intros sc' m' (Hb & _). rewrite Hb. reflexivity.
Defined.


(** X14 at a frame from the concrete memory, where the score is 0. *)
Lemma score_multiple_of_ten_witness :
  (10 | score demo_game)%Z /\
  ensures (frame demo_library 1 demo_input demo_game) double_hit_mem
    (fun g' _ => (10 | score g')%Z).
Proof.
  assert (H0 : (10 | score demo_game)%Z) by (exists 0%Z; reflexivity).
  split; [exact H0|].
  apply (proj1 (proj2 (score_multiple_of_ten demo_library))).
  - exact demo_frame_inv.
  - exact H0.
Defined.

(** X15 with the concrete library, whose first draw is accepted. *)
Lemma reset_game_allocates_witness :
  returns (reset_game demo_library 1) double_hit_mem (fun ps m' =>
    built_anew double_hit_mem (fst ps) m').
Proof.
  apply (proj2 (reset_game_allocates demo_library 1 double_hit_mem)).
  apply demo_spawn_fair.
Defined.


(** X17 on the start screen. *)
Lemma world_stands_still_witness :
  exists g',
    frame demo_library 1 demo_input (mkGame 0 0 START true) double_hit_mem
    = Val (g', double_hit_mem) /\
    state g' = START.
Proof.
  destruct (world_stands_still demo_library 1 demo_input (mkGame 0 0 START true)
              double_hit_mem) as (g' & Hrun & Hs & _).
  - discriminate.
  - simpl. intros [H|[H|[]]]; discriminate.
  - exists g'. split; [exact Hrun|exact Hs].
Defined.

(** X19 at the update block run from the concrete memory. *)
Lemma sprites_stay_on_screen_witness :
  returns (update_logic demo_library demo_input demo_game) double_hit_mem
    (fun _ m' => forall r, In r (all_sprites m') -> on_screen (ref_pos m' r)).
Proof.
  apply (proj2 (sprites_stay_on_screen demo_library)).
  - exact demo_frame_inv.
  - exact double_hit_mem_sync.
Defined.

(** X20 at the ship of the concrete memory. *)
Lemma ship_turns_only_when_steered_witness :
  returns (sprite_update demo_library (RPlayer 0)) double_hit_mem (fun _ m' =>
    angle (p_obj (players m' 0)) = 0%R).
Proof.
  eapply returns_conseq.
  - apply (proj2 (proj2 (ship_turns_only_when_steered demo_library)) 0 double_hit_mem).
    reflexivity.
  - cbv beta. intros u m' (Ha & _). rewrite Ha. reflexivity.
Defined.
